(** * Path-indexed perceptron branch predictor (gem5 [PerceptronBP])

    A shallow embedding of [src/perceptron.hh] and [src/perceptron.cc]:
    the predictor object is a record with the fields of the C++ class, the
    four member functions [lookup], [update], [updateHistories] and [squash]
    are functions that pass the object and the heap of [BPHistory] records
    explicitly, and every operation whose behaviour C++ leaves undefined
    (an index outside a vector, a null or dangling handle, a read of an
    uninitialised field, a signed overflow, a shift by the width of the
    type or more) returns [None]. *)

From stdpp Require Import base option list gmap.
From Stdlib Require Import ZArith Lia.

Local Open Scope Z_scope.

(** ** Machine integers

    [unsigned] is 32 bits wide, [Addr] is 64 bits wide, [int] is a 32-bit
    two's complement number.  Conversions to an unsigned type reduce
    modulo the width; the conversion to [int] keeps the low 32 bits. *)

Definition u32 (x : Z) : Z := x mod 2 ^ 32.
Definition u64 (x : Z) : Z := x mod 2 ^ 64.
Definition s32 (x : Z) : Z := (x + 2 ^ 31) mod 2 ^ 32 - 2 ^ 31.

Definition INT_MIN : Z := - 2 ^ 31.
Definition INT_MAX : Z := 2 ^ 31 - 1.

Definition in_int (x : Z) : bool := (INT_MIN <=? x) && (x <=? INT_MAX).

(** Arithmetic on [int]: a result outside the type is undefined. *)
Definition int_add (a b : Z) : option Z :=
  if in_int (a + b) then Some (a + b) else None.
Definition int_sub (a b : Z) : option Z :=
  if in_int (a - b) then Some (a - b) else None.

(** Shifts of an [Addr]: a count of 64 or more is undefined. *)
Definition shl64 (x n : Z) : option Z :=
  if (0 <=? n) && (n <? 64) then Some (u64 (Z.shiftl x n)) else None.
Definition shr64 (x n : Z) : option Z :=
  if (0 <=? n) && (n <? 64) then Some (Z.shiftr x n) else None.

Definition b2z (b : bool) : Z := if b then 1 else 0.

(** ** Vectors

    [v[i]] on a [std::vector]: the element when [i] is inside the vector,
    undefined otherwise. *)

Definition vat {A} (v : list A) (i : Z) : option A :=
  if 0 <=? i then v !! Z.to_nat i else None.

Definition vset {A} (v : list A) (i : Z) (x : A) : option (list A) :=
  if (0 <=? i) && (i <? Z.of_nat (length v))
  then Some (<[Z.to_nat i := x]> v) else None.

(** [for (int j = 1; j <= n; ++j) body] with the loop state passed along;
    the first argument counts the iterations that remain. *)
Fixpoint for_loop {S} (n : nat) (j : Z) (body : Z → S → option S) (s : S)
  : option S :=
  match n with
  | O => Some s
  | Datatypes.S n' => s' ← body j s; for_loop n' (j + 1) body s'
  end.

(** ** The data of [perceptron.hh] *)

Record BPHistory := mkBPHistory {
  h_globalHistoryReg : Z;           (* unsigned *)
  h_branchAddr : option Z;          (* unsigned; [None] until assigned *)
  h_local : Z;                      (* int *)
  h_path : list Z;                  (* std::vector<Addr> *)
  h_new_pc : Z;                     (* unsigned *)
  h_branchAddrReplaced : bool;
  h_last_y : Z                      (* int *)
}.

Record PerceptronBP := mkPerceptronBP {
  globalHistoryReg : list Z;        (* std::vector<unsigned> *)
  globalHistoryBits : Z;
  globalHistoryMask : Z;
  localMask : Z;
  pcMask : Z;
  localHistoryBits : Z;
  history_length : Z;
  branchAddrBits : Z;
  branchHistoryTable : list Z;      (* std::vector<int> *)
  pathTable : list (list Z);        (* std::vector<std::vector<Addr>> *)
  historyWeightTable : list (list Z);
  addrWeightTable : list (list Z)
}.

(** The heap of snapshot records; a handle ([void *]) is an address or null. *)
Abbreviation Heap := (gmap positive BPHistory).
Abbreviation Handle := (option positive).

Record PerceptronBPParams := mkParams {
  p_globalHistoryBits : Z;
  p_localHistoryBits : Z;
  p_branchAddrBits : Z;
  p_numThreads : Z
}.

(** Writes to one member of the object. *)
Definition set_globalHistoryReg (st : PerceptronBP) (v : list Z) :=
  mkPerceptronBP v (globalHistoryBits st) (globalHistoryMask st) (localMask st)
    (pcMask st) (localHistoryBits st) (history_length st) (branchAddrBits st)
    (branchHistoryTable st) (pathTable st) (historyWeightTable st)
    (addrWeightTable st).
Definition set_branchHistoryTable (st : PerceptronBP) (v : list Z) :=
  mkPerceptronBP (globalHistoryReg st) (globalHistoryBits st)
    (globalHistoryMask st) (localMask st) (pcMask st) (localHistoryBits st)
    (history_length st) (branchAddrBits st) v (pathTable st)
    (historyWeightTable st) (addrWeightTable st).
Definition set_pathTable (st : PerceptronBP) (v : list (list Z)) :=
  mkPerceptronBP (globalHistoryReg st) (globalHistoryBits st)
    (globalHistoryMask st) (localMask st) (pcMask st) (localHistoryBits st)
    (history_length st) (branchAddrBits st) (branchHistoryTable st) v
    (historyWeightTable st) (addrWeightTable st).
Definition set_historyWeightTable (st : PerceptronBP) (v : list (list Z)) :=
  mkPerceptronBP (globalHistoryReg st) (globalHistoryBits st)
    (globalHistoryMask st) (localMask st) (pcMask st) (localHistoryBits st)
    (history_length st) (branchAddrBits st) (branchHistoryTable st)
    (pathTable st) v (addrWeightTable st).
Definition set_addrWeightTable (st : PerceptronBP) (v : list (list Z)) :=
  mkPerceptronBP (globalHistoryReg st) (globalHistoryBits st)
    (globalHistoryMask st) (localMask st) (pcMask st) (localHistoryBits st)
    (history_length st) (branchAddrBits st) (branchHistoryTable st)
    (pathTable st) (historyWeightTable st) v.

(** ** The constructor *)

(** The lambda [makeMask]; its result is an [Addr]. *)
Definition makeMask (bits : Z) : Z :=
  if bits =? 0 then 0
  else if 64 <=? bits then 2 ^ 64 - 1
  else Z.shiftl 1 bits - 1.

(** [PerceptronBP::PerceptronBP].  The three masks are [unsigned] members,
    so the [Addr] that [makeMask] returns is cut to 32 bits.  The table
    sizes [1 << branchAddrBits] are undefined from 64 bits on.  The
    [resize] calls are modelled as returning: whether the memory for
    [2 ^ branchAddrBits] rows is there (or [resize] throws) is outside the
    model. *)
Definition PerceptronBP_new (params : PerceptronBPParams) : option PerceptronBP :=
  let gb := u32 (p_globalHistoryBits params) in
  let lb := u32 (p_localHistoryBits params) in
  let hl := u32 (gb + lb) in
  let ab := u32 (p_branchAddrBits params) in
  let nt := Z.to_nat (u32 (p_numThreads params)) in
  rows ← shl64 1 ab;
  Some {|
    globalHistoryReg := replicate nt 0;
    globalHistoryBits := gb;
    globalHistoryMask := u32 (makeMask gb);
    localMask := u32 (makeMask lb);
    pcMask := u32 (makeMask ab);
    localHistoryBits := lb;
    history_length := hl;
    branchAddrBits := ab;
    branchHistoryTable := replicate (Z.to_nat rows) 0;
    pathTable := replicate nt (replicate (Z.to_nat (Z.max ab hl)) 0);
    historyWeightTable :=
      replicate (Z.to_nat rows) (replicate (Z.to_nat (u32 (hl + 1))) 0);
    addrWeightTable :=
      replicate (Z.to_nat rows) (replicate (Z.to_nat (u32 (ab + 1))) 0)
  |}.

(** The record that [lookup] and the [uncond] branch of [updateHistories]
    fill in after [new BPHistory]: every field but [branchAddr]. *)
Definition new_BPHistory (g local : Z) (path : list Z) (new_pc y : Z)
  : BPHistory :=
  {| h_globalHistoryReg := g;
     h_branchAddr := None;
     h_local := local;
     h_path := path;
     h_new_pc := new_pc;
     h_branchAddrReplaced := false;
     h_last_y := y |}.

(** The two assignments of lines 175 and 176. *)
Definition set_evicted (history : BPHistory) (back : Z) : BPHistory :=
  {| h_globalHistoryReg := h_globalHistoryReg history;
     h_branchAddr := Some (u32 back);
     h_local := h_local history;
     h_path := h_path history;
     h_new_pc := h_new_pc history;
     h_branchAddrReplaced := true;
     h_last_y := h_last_y history |}.

(** ** [PerceptronBP::lookup] *)

(** One round of the two scoring loops: row [k] is the address at position
    [j-1] of the path, the sign is bit [j-1] of [reg]. *)
Definition score_step (wt : list (list Z)) (path : list Z) (reg : Z)
    (j : Z) (y : Z) : option Z :=
  a ← vat path (j - 1);
  let k := u32 a in
  sh ← shr64 reg (j - 1);
  let bit_j := negb (Z.land sh 1 =? 0) in
  row ← vat wt k;
  w ← vat row j;
  if bit_j then int_add y w else int_sub y w.

Definition lookup (st : PerceptronBP) (hp : Heap) (tid pc : Z)
  : option (bool * Handle * PerceptronBP * Heap) :=
  let new_pc := Z.land pc (pcMask st) in
  g ← vat (globalHistoryReg st) tid;
  let global := Z.land g (globalHistoryMask st) in
  b ← vat (branchHistoryTable st) new_pc;
  let local := Z.land (u32 b) (localMask st) in
  row0 ← vat (historyWeightTable st) new_pc;
  y0 ← vat row0 0;
  sh ← shl64 global (localHistoryBits st);
  let history_reg := Z.lor sh local in
  path ← vat (pathTable st) tid;
  y_hist ← for_loop (Z.to_nat (history_length st)) 1
             (score_step (historyWeightTable st) path history_reg) y0;
  arow0 ← vat (addrWeightTable st) new_pc;
  a0 ← vat arow0 0;
  y_addr ← for_loop (Z.to_nat (branchAddrBits st)) 1
             (score_step (addrWeightTable st) path new_pc) a0;
  y ← int_add y_addr y_hist;
  let history := new_BPHistory g (s32 local) path (u32 new_pc) y in
  let l := fresh (dom hp) in
  Some (0 <=? y, Some l, st, <[l := history]> hp).

(** ** [PerceptronBP::update] *)

(** [++wt[k][j]] or [--wt[k][j]]. *)
Definition adjust (wt : list (list Z)) (k j : Z) (up : bool)
  : option (list (list Z)) :=
  row ← vat wt k;
  w ← vat row j;
  w' ← (if up then int_add w 1 else int_sub w 1);
  row' ← vset row j w';
  vset wt k row'.

(** One round of the two training loops. *)
Definition train_step (path : list Z) (reg : Z) (taken : bool)
    (j : Z) (wt : list (list Z)) : option (list (list Z)) :=
  a ← vat path (j - 1);
  let k := u32 a in
  sh ← shr64 reg (j - 1);
  let bit_j := negb (Z.land sh 1 =? 0) in
  adjust wt k j (eqb taken bit_j).

(** The body of the [if] at line 103.  [local] is an [Addr] that receives
    the [int] of the snapshot, which extends its sign. *)
Definition train (st : PerceptronBP) (history : BPHistory) (new_pc : Z)
    (taken : bool) : option PerceptronBP :=
  hw1 ← adjust (historyWeightTable st) new_pc 0 taken;
  let global := Z.land (h_globalHistoryReg history) (globalHistoryMask st) in
  let local := u64 (h_local history) in
  sh ← shl64 global (localHistoryBits st);
  let history_reg := Z.lor sh local in
  hw2 ← for_loop (Z.to_nat (history_length st)) 1
          (train_step (h_path history) history_reg taken) hw1;
  aw1 ← adjust (addrWeightTable st) new_pc 0 taken;
  aw2 ← for_loop (Z.to_nat (branchAddrBits st)) 1
          (train_step (h_path history) new_pc taken) aw1;
  Some (set_addrWeightTable (set_historyWeightTable st hw2) aw2).

Definition fires (history : BPHistory) (squashed : bool) : bool :=
  squashed || ((h_last_y history <=? 64) && (-64 <=? h_last_y history)).

Definition update (st : PerceptronBP) (hp : Heap) (tid pc : Z) (taken : bool)
    (bp_history : Handle) (squashed : bool)
  : option (Handle * PerceptronBP * Heap) :=
  l ← bp_history;
  history ← hp !! l;
  let new_pc := Z.land pc (pcMask st) in
  st' ← (if fires history squashed then train st history new_pc taken
         else Some st);
  if negb squashed then Some (None, st', delete l hp)
  else Some (Some l, st', hp).

(** ** [PerceptronBP::updateHistories] *)

(** Line 166, on [unsigned]. *)
Definition shift_global (st : PerceptronBP) (g : Z) (taken : bool) : Z :=
  Z.land (Z.lor (u32 (Z.shiftl g 1)) (b2z taken)) (globalHistoryMask st).

(** Line 169: the shift and the [|] are on [int] (the shift keeps the low
    32 bits, as compilers and C++20 have it), the [&] with the [unsigned]
    mask is on [unsigned], the store is to an [int]. *)
Definition shift_local (st : PerceptronBP) (b : Z) (taken : bool) : Z :=
  s32 (Z.land (u32 (Z.lor (s32 (Z.shiftl b 1)) (b2z taken))) (localMask st)).

Definition updateHistories (st : PerceptronBP) (hp : Heap) (tid pc : Z)
    (uncond taken : bool) (bp_history : Handle)
  : option (Handle * PerceptronBP * Heap) :=
  let new_pc := Z.land pc (pcMask st) in
  '(bp_history1, hp1) ←
    (if uncond then
       g ← vat (globalHistoryReg st) tid;
       b ← vat (branchHistoryTable st) new_pc;
       path ← vat (pathTable st) tid;
       let history :=
         new_BPHistory g (s32 (Z.land (u32 b) (localMask st))) path
                       (u32 new_pc) 0 in
       let l := fresh (dom hp) in
       Some (Some l, <[l := history]> hp)
     else Some (bp_history, hp));
  g ← vat (globalHistoryReg st) tid;
  ghr ← vset (globalHistoryReg st) tid (shift_global st g taken);
  b ← vat (branchHistoryTable st) new_pc;
  bht ← vset (branchHistoryTable st) new_pc (shift_local st b taken);
  let PT_LEN := Z.max (branchAddrBits st) (history_length st) in
  pt ← vat (pathTable st) tid;
  '(pt1, hp2) ←
    (if Z.of_nat (length pt) =? PT_LEN then
       l ← bp_history1;
       history ← hp1 !! l;
       back ← last pt;
       Some (removelast pt, <[l := set_evicted history back]> hp1)
     else Some (pt, hp1));
  ptab ← vset (pathTable st) tid (new_pc :: pt1);
  Some (bp_history1,
        set_pathTable (set_branchHistoryTable (set_globalHistoryReg st ghr) bht)
                      ptab,
        hp2).

(** ** [PerceptronBP::squash] *)

Definition squash (st : PerceptronBP) (hp : Heap) (tid : Z)
    (bp_history : Handle) : option (Handle * PerceptronBP * Heap) :=
  l ← bp_history;
  history ← hp !! l;
  ghr ← vset (globalHistoryReg st) tid (h_globalHistoryReg history);
  bht ← vset (branchHistoryTable st) (h_new_pc history) (h_local history);
  pt ← vat (pathTable st) tid;
  let pt1 := match pt with [] => pt | _ :: r => r end in
  pt2 ← (if h_branchAddrReplaced history then
           a ← h_branchAddr history; Some (pt1 ++ [a])
         else Some pt1);
  ptab ← vset (pathTable st) tid pt2;
  Some (None,
        set_pathTable (set_branchHistoryTable (set_globalHistoryReg st ghr) bht)
                      ptab,
        delete l hp).

(** ** Reachable states

    The worlds (object and heap) that the constructor and any sequence of
    calls with defined behaviour produce. *)

Inductive reachable (p : PerceptronBPParams) : PerceptronBP → Heap → Prop :=
| reach_new st :
    PerceptronBP_new p = Some st → reachable p st ∅
| reach_lookup st hp tid pc b h st' hp' :
    reachable p st hp →
    lookup st hp tid pc = Some (b, h, st', hp') →
    reachable p st' hp'
| reach_updateHistories st hp tid pc uncond taken h h' st' hp' :
    reachable p st hp →
    updateHistories st hp tid pc uncond taken h = Some (h', st', hp') →
    reachable p st' hp'
| reach_update st hp tid pc taken h squashed h' st' hp' :
    reachable p st hp →
    update st hp tid pc taken h squashed = Some (h', st', hp') →
    reachable p st' hp'
| reach_squash st hp tid h h' st' hp' :
    reachable p st hp →
    squash st hp tid h = Some (h', st', hp') →
    reachable p st' hp'.

(** The record a handle points to. *)
Definition snapshot_of (hp : Heap) (h : Handle) : option BPHistory :=
  l ← h; hp !! l.

(** Total reads, for stating what a table holds. *)
Definition wget (wt : list (list Z)) (r c : Z) : Z :=
  default 0 (row ← vat wt r; vat row c).

(** ** Invariants of the reachable worlds *)

(** A local history value is a fixed point of the mask-and-store of
    line 52 and line 84. *)
Definition masked (mask x : Z) : Prop :=
  s32 (Z.land (u32 x) mask) = x.

Definition addr32 (a : Z) : Prop := 0 <= a < 2 ^ 32.

(** The members that only the constructor writes. *)
Record config_of (p : PerceptronBPParams) (st : PerceptronBP) : Prop := {
  cfg_gb : globalHistoryBits st = u32 (p_globalHistoryBits p);
  cfg_lb : localHistoryBits st = u32 (p_localHistoryBits p);
  cfg_ab : branchAddrBits st = u32 (p_branchAddrBits p);
  cfg_hl : history_length st =
           u32 (u32 (p_globalHistoryBits p) + u32 (p_localHistoryBits p));
  cfg_gmask : globalHistoryMask st = u32 (makeMask (globalHistoryBits st));
  cfg_lmask : localMask st = u32 (makeMask (localHistoryBits st));
  cfg_pcmask : pcMask st = u32 (makeMask (branchAddrBits st))
}.

Record hist_ok (mask : Z) (h : BPHistory) : Prop := {
  hist_local : masked mask (h_local h);
  hist_evicted : ∀ a, h_branchAddr h = Some a → addr32 a;
  hist_path : Forall addr32 (h_path h)
}.

Record inv (p : PerceptronBPParams) (st : PerceptronBP) (hp : Heap) : Prop := {
  inv_config : config_of p st;
  inv_bht : Forall (masked (localMask st)) (branchHistoryTable st);
  inv_path : Forall (Forall addr32) (pathTable st);
  inv_heap : map_Forall (λ _ h, hist_ok (localMask st) h) hp
}.

(** Two objects with the same constructor-written members. *)
Definition same_config (st st' : PerceptronBP) : Prop :=
  globalHistoryBits st' = globalHistoryBits st ∧
  globalHistoryMask st' = globalHistoryMask st ∧
  localMask st' = localMask st ∧
  pcMask st' = pcMask st ∧
  localHistoryBits st' = localHistoryBits st ∧
  history_length st' = history_length st ∧
  branchAddrBits st' = branchAddrBits st.

(** ** What training does to a table entry *)

Definition sgn (up : bool) : Z := if up then 1 else -1.

(** The history register that [update] rebuilds from the snapshot
    (line 110 to line 114). *)
Definition snapshot_history_reg (st : PerceptronBP) (history : BPHistory) : Z :=
  Z.lor (u64 (Z.shiftl (Z.land (h_globalHistoryReg history)
                               (globalHistoryMask st))
                       (localHistoryBits st)))
        (u64 (h_local history)).

(** The change that round [c] of a training loop makes to entry [(r, c)]. *)
Definition step_delta (path : list Z) (reg : Z) (taken : bool) (r c : Z) : Z :=
  match vat path (c - 1) with
  | Some a => if r =? u32 a then sgn (eqb taken (Z.testbit reg (c - 1))) else 0
  | None => 0
  end.

(** The two weight tables of an object, and of the object a call returns. *)
Definition weights (st : PerceptronBP) : list (list Z) * list (list Z) :=
  (historyWeightTable st, addrWeightTable st).

Definition weights_after (r : option (Handle * PerceptronBP * Heap))
  : option (list (list Z) * list (list Z)) :=
  (λ x, weights (x.1.2)) <$> r.

(** An object that differs in its history registers and path queues only. *)
Definition with_history (st : PerceptronBP) (ghr bht : list Z)
    (ptab : list (list Z)) : PerceptronBP :=
  set_pathTable (set_branchHistoryTable (set_globalHistoryReg st ghr) bht) ptab.

(** Total movement between two tables: the sum over the entries of the
    absolute difference. *)
Fixpoint dist {A} (d : A → A → Z) (a b : list A) : Z :=
  match a, b with
  | x :: a', y :: b' => d x y + dist d a' b'
  | _, _ => 0
  end.

Definition l1_row : list Z → list Z → Z := dist (λ x y, Z.abs (y - x)).
Definition l1_table : list (list Z) → list (list Z) → Z := dist l1_row.

(** ** The prediction rule in the words of the specification

    The bucket is the address under the address mask.  The combined
    history has the masked global history of the thread in its high-order
    bits and the masked local history of the bucket in the low-order
    [localHistoryBits] bits.  Each score is the bias of the bucket plus,
    for [j] from 1 to the number of inputs, the weight in column [j] of
    the row of the bucket visited [j] steps back, added when input bit
    [j-1] is 1 and subtracted otherwise. *)

Definition spec_bucket (st : PerceptronBP) (pc : Z) : Z :=
  Z.land pc (pcMask st).

Definition spec_visited (st : PerceptronBP) (tid j : Z) : Z :=
  default 0 (path ← vat (pathTable st) tid; vat path (j - 1)).

Definition spec_combined_history (st : PerceptronBP) (tid pc : Z) : Z :=
  let global :=
    Z.land (default 0 (vat (globalHistoryReg st) tid)) (globalHistoryMask st) in
  let local :=
    Z.land (default 0 (vat (branchHistoryTable st) (spec_bucket st pc)))
           (localMask st) in
  global * 2 ^ localHistoryBits st + local.

Definition signed (w : Z) (bit : bool) : Z := if bit then w else - w.

Definition sum_from_1 (n : Z) (f : Z → Z) : Z :=
  foldr Z.add 0 (f <$> seqZ 1 n).

Definition spec_y_hist (st : PerceptronBP) (tid pc : Z) : Z :=
  wget (historyWeightTable st) (spec_bucket st pc) 0 +
  sum_from_1 (history_length st)
    (λ j, signed (wget (historyWeightTable st) (spec_visited st tid j) j)
                 (Z.testbit (spec_combined_history st tid pc) (j - 1))).

Definition spec_y_addr (st : PerceptronBP) (tid pc : Z) : Z :=
  wget (addrWeightTable st) (spec_bucket st pc) 0 +
  sum_from_1 (branchAddrBits st)
    (λ j, signed (wget (addrWeightTable st) (spec_visited st tid j) j)
                 (Z.testbit pc (j - 1))).

Definition spec_y_total (st : PerceptronBP) (tid pc : Z) : Z :=
  spec_y_hist st tid pc + spec_y_addr st tid pc.

(** What a caller sees of a [lookup]: the prediction and the record
    behind the handle. *)
Definition lookup_result (r : option (bool * Handle * PerceptronBP * Heap))
  : option (bool * option BPHistory) :=
  (λ x, (x.1.1.1, snapshot_of x.2 x.1.1.2)) <$> r.

(** ** The path queues under the calling protocol *)

(** The capacity [PT_LEN] of line 172. *)
Definition path_capacity (st : PerceptronBP) : Z :=
  Z.max (branchAddrBits st) (history_length st).

Definition path_full (st : PerceptronBP) : Prop :=
  Forall (λ q : list Z, Z.of_nat (length q) = path_capacity st) (pathTable st).

(** The worlds reached when [squash] is only called on a snapshot that
    went through [updateHistories] (the one place that sets
    [branchAddrReplaced]); the other calls are unrestricted. *)
Inductive protocol_run (p : PerceptronBPParams)
  : PerceptronBP → Heap → Prop :=
| run_new st :
    PerceptronBP_new p = Some st → protocol_run p st ∅
| run_lookup st hp tid pc b h st' hp' :
    protocol_run p st hp →
    lookup st hp tid pc = Some (b, h, st', hp') →
    protocol_run p st' hp'
| run_updateHistories st hp tid pc uncond taken h h' st' hp' :
    protocol_run p st hp →
    updateHistories st hp tid pc uncond taken h = Some (h', st', hp') →
    protocol_run p st' hp'
| run_update st hp tid pc taken h squashed h' st' hp' :
    protocol_run p st hp →
    update st hp tid pc taken h squashed = Some (h', st', hp') →
    protocol_run p st' hp'
| run_squash st hp tid h s h' st' hp' :
    protocol_run p st hp →
    snapshot_of hp h = Some s →
    h_branchAddrReplaced s = true →
    squash st hp tid h = Some (h', st', hp') →
    protocol_run p st' hp'.

Record run_inv (st : PerceptronBP) (hp : Heap) : Prop := {
  run_full : path_full st;
  run_cap_nonneg : 0 <= path_capacity st;
  run_heap :
    map_Forall (λ _ s, h_branchAddrReplaced s = true → 0 < path_capacity st) hp
}.

(** ** A concrete world

    Two bits of global history, two of local history, two address bits,
    one thread.  [w_st] and [w_hp] are the object and the heap after three
    branches (at 1, 2 and 3, all taken) were predicted and advanced, the
    first trained and retired, the second trained as squashed; the
    snapshots of the second and third are live. *)

Definition w_p : PerceptronBPParams := mkParams 2 2 2 1.

Definition w_st0 : PerceptronBP :=
  {| globalHistoryReg := [0];
     globalHistoryBits := 2;
     globalHistoryMask := 3;
     localMask := 3;
     pcMask := 3;
     localHistoryBits := 2;
     history_length := 4;
     branchAddrBits := 2;
     branchHistoryTable := [0; 0; 0; 0];
     pathTable := [[0; 0; 0; 0]];
     historyWeightTable :=
       [[0; 0; 0; 0; 0]; [0; 0; 0; 0; 0]; [0; 0; 0; 0; 0]; [0; 0; 0; 0; 0]];
     addrWeightTable := [[0; 0; 0]; [0; 0; 0]; [0; 0; 0]; [0; 0; 0]] |}.

Definition w_st : PerceptronBP :=
  {| globalHistoryReg := [3];
     globalHistoryBits := 2;
     globalHistoryMask := 3;
     localMask := 3;
     pcMask := 3;
     localHistoryBits := 2;
     history_length := 4;
     branchAddrBits := 2;
     branchHistoryTable := [0; 1; 1; 1];
     pathTable := [[3; 2; 1; 0]];
     historyWeightTable :=
       [[0; -1; 0; -2; 0]; [1; 1; 0; 0; 0]; [-1; 0; 0; 0; 0]; [0; 0; 0; 0; 0]];
     addrWeightTable := [[0; 1; -2]; [1; 1; 0]; [-1; 0; 0]; [0; 0; 0]] |}.

Definition w_snap1 : BPHistory :=
  {| h_globalHistoryReg := 1;
     h_branchAddr := Some 0;
     h_local := 0;
     h_path := [1; 0; 0; 0];
     h_new_pc := 2;
     h_branchAddrReplaced := true;
     h_last_y := 0 |}.

Definition w_snap2 : BPHistory :=
  {| h_globalHistoryReg := 3;
     h_branchAddr := Some 0;
     h_local := 0;
     h_path := [2; 1; 0; 0];
     h_new_pc := 3;
     h_branchAddrReplaced := true;
     h_last_y := -2 |}.

Definition w_hp : Heap := <[2%positive := w_snap2]> {[1%positive := w_snap1]}.

(** A snapshot whose recorded score is outside the band of line 103. *)
Definition w_snap_sat : BPHistory :=
  {| h_globalHistoryReg := 3;
     h_branchAddr := Some 0;
     h_local := 0;
     h_path := [2; 1; 0; 0];
     h_new_pc := 3;
     h_branchAddrReplaced := true;
     h_last_y := 100 |}.

Definition w_hp_sat : Heap := {[1%positive := w_snap_sat]}.

(** ** Worlds in which every call has defined behaviour *)

Definition bucket_ok (st : PerceptronBP) (a : Z) : Prop := 0 <= a <= pcMask st.

(** The sizes the constructor gives the tables, with widths for which the
    shifts of [lookup] and [update] are defined. *)
Record shape (st : PerceptronBP) : Prop := {
  sh_lb : 0 <= localHistoryBits st < 64;
  sh_hl : 0 <= history_length st <= 64;
  sh_ab : 0 <= branchAddrBits st <= 64;
  sh_mask : 0 <= pcMask st < 2 ^ 32;
  sh_bht : pcMask st < Z.of_nat (length (branchHistoryTable st));
  sh_hwt : pcMask st < Z.of_nat (length (historyWeightTable st));
  sh_awt : pcMask st < Z.of_nat (length (addrWeightTable st));
  sh_hrow : Forall (λ row : list Z, Z.of_nat (length row) = history_length st + 1)
                   (historyWeightTable st);
  sh_arow : Forall (λ row : list Z, Z.of_nat (length row) = branchAddrBits st + 1)
                   (addrWeightTable st);
  sh_threads : length (pathTable st) = length (globalHistoryReg st);
  sh_path : Forall (Forall (bucket_ok st)) (pathTable st)
}.

Record snap_shape (st : PerceptronBP) (s : BPHistory) : Prop := {
  ss_new_pc : bucket_ok st (h_new_pc s);
  ss_evicted : h_branchAddrReplaced s = true →
               ∃ a, h_branchAddr s = Some a ∧ bucket_ok st a;
  ss_path_len : Z.of_nat (length (h_path s)) = path_capacity st;
  ss_path : Forall (bucket_ok st) (h_path s)
}.

Record world_shape (st : PerceptronBP) (hp : Heap) : Prop := {
  ws_shape : shape st;
  ws_full : path_full st;
  ws_cap : 0 < path_capacity st;
  ws_heap : map_Forall (λ _ s, snap_shape st s) hp
}.

(** Every weight lies in [-B, B]. *)
Definition weights_within (B : Z) (wt : list (list Z)) : Prop :=
  Forall (Forall (λ w, - B <= w <= B)) wt.

(** Parameters for which the constructor and the shifts are defined and
    the predictor has at least one input. *)
Record params_ok (p : PerceptronBPParams) : Prop := {
  po_gb : 0 <= p_globalHistoryBits p;
  po_lb : 0 <= p_localHistoryBits p < 64;
  po_hl : p_globalHistoryBits p + p_localHistoryBits p <= 64;
  po_ab : 0 <= p_branchAddrBits p < 64;
  po_in : 0 < Z.max (p_branchAddrBits p)
                    (p_globalHistoryBits p + p_localHistoryBits p)
}.

(** The table has an entry at row [r], column [c]. *)
Definition has_cell (wt : list (list Z)) (r c : Z) : Prop :=
  ∃ row w, vat wt r = Some row ∧ vat row c = Some w.

(** ** The global registers stay under their mask *)

Record reg_inv (st : PerceptronBP) (hp : Heap) : Prop := {
  ri_ghr : Forall (λ g, 0 <= g <= globalHistoryMask st) (globalHistoryReg st);
  ri_heap : map_Forall
              (λ _ s, 0 <= h_globalHistoryReg s <= globalHistoryMask st) hp
}.

(** ** The address score as [lookup] computes it

    Line 73 reads the bits of [new_pc], the address under the 32-bit
    [pcMask], where the specification reads the bits of [pc]. *)

Definition bucket_y_addr (st : PerceptronBP) (tid pc : Z) : Z :=
  wget (addrWeightTable st) (spec_bucket st pc) 0 +
  sum_from_1 (branchAddrBits st)
    (λ j, signed (wget (addrWeightTable st) (spec_visited st tid j) j)
                 (Z.testbit (spec_bucket st pc) (j - 1))).

(** * Properties *)

(** ** Machine integers *)

Lemma u32_range x : 0 <= u32 x < 2 ^ 32.
Proof. unfold u32. apply Z.mod_pos_bound. lia. Qed.

Lemma u32_id x : 0 <= x < 2 ^ 32 → u32 x = x.
Proof. intros. unfold u32. apply Z.mod_small. lia. Qed.

Lemma u32_s32 x : u32 (s32 x) = u32 x.
Proof.
  unfold u32, s32.
  rewrite <- Zminus_mod_idemp_l, Z.mod_mod by lia.
  rewrite Zminus_mod_idemp_l. f_equal. lia.
Qed.

Lemma ones_range k : 0 <= k <= 32 → 0 <= Z.ones k < 2 ^ 32.
Proof.
  intros Hk. rewrite Z.ones_equiv.
  assert (0 < 2 ^ k) by (apply Z.pow_pos_nonneg; lia).
  assert (2 ^ k <= 2 ^ 32) by (apply Z.pow_le_mono_r; lia).
  lia.
Qed.

Lemma land_ones_range x k : 0 <= k <= 32 → 0 <= Z.land x (Z.ones k) <= Z.ones k.
Proof.
  intros Hk. rewrite Z.land_ones by lia. rewrite Z.ones_equiv.
  assert (0 < 2 ^ k) by (apply Z.pow_pos_nonneg; lia).
  pose proof (Z.mod_pos_bound x (2 ^ k)). lia.
Qed.

(** The masks the constructor stores: [makeMask] cut to 32 bits leaves the
    low [min bits 32] bits set. *)
Lemma mask32_ones bits :
  0 <= bits → u32 (makeMask bits) = Z.ones (Z.min bits 32).
Proof.
  intros Hb. unfold makeMask.
  destruct (bits =? 0) eqn:E0; [apply Z.eqb_eq in E0; subst; reflexivity|].
  apply Z.eqb_neq in E0.
  destruct (64 <=? bits) eqn:E64.
  - apply Z.leb_le in E64. rewrite Z.min_r by lia. reflexivity.
  - apply Z.leb_gt in E64. rewrite Z.shiftl_1_l.
    replace (2 ^ bits - 1) with (Z.ones bits) by (rewrite Z.ones_equiv; lia).
    unfold u32. rewrite <- Z.land_ones by lia.
    apply Z.bits_inj'. intros i Hi.
    rewrite Z.land_spec, !Z.testbit_ones_nonneg by lia.
    destruct (Z.min_spec bits 32) as [[? ->]|[? ->]];
      destruct (i <? bits) eqn:?, (i <? 32) eqn:?; simpl; try reflexivity; lia.
Qed.

Lemma bit_of_shift r n :
  0 <= n → negb (Z.land (Z.shiftr r n) 1 =? 0) = Z.testbit r n.
Proof.
  intros Hn. change 1 with (Z.ones 1) at 1.
  rewrite Z.land_ones by lia. change (2 ^ 1) with 2.
  rewrite <- Z.bit0_mod, Z.shiftr_spec, Z.add_0_l by lia.
  destruct (Z.testbit r n); reflexivity.
Qed.

(** ** Vectors *)

Lemma vat_Some {A} (v : list A) i x :
  vat v i = Some x ↔ 0 <= i ∧ v !! Z.to_nat i = Some x.
Proof.
  unfold vat. destruct (0 <=? i) eqn:E.
  - apply Z.leb_le in E. tauto.
  - apply Z.leb_gt in E. split; [discriminate | lia].
Qed.

Lemma vat_lt {A} (v : list A) i x :
  vat v i = Some x → 0 <= i < Z.of_nat (length v).
Proof.
  intros [Hi Hl]%vat_Some. apply lookup_lt_Some in Hl. lia.
Qed.

Lemma vat_is_Some {A} (v : list A) i :
  0 <= i < Z.of_nat (length v) → is_Some (vat v i).
Proof.
  intros Hi. unfold vat.
  destruct (0 <=? i) eqn:E; [|apply Z.leb_gt in E; lia].
  apply lookup_lt_is_Some. lia.
Qed.

Lemma vset_Some {A} (v : list A) i x v' :
  vset v i x = Some v' ↔
  0 <= i < Z.of_nat (length v) ∧ v' = <[Z.to_nat i := x]> v.
Proof.
  unfold vset.
  destruct (0 <=? i) eqn:E1, (i <? Z.of_nat (length v)) eqn:E2; simpl;
    repeat match goal with
    | H : (_ <=? _) = true |- _ => apply Z.leb_le in H
    | H : (_ <=? _) = false |- _ => apply Z.leb_gt in H
    | H : (_ <? _) = true |- _ => apply Z.ltb_lt in H
    | H : (_ <? _) = false |- _ => apply Z.ltb_ge in H
    end;
    split; try (intros [? ?]; subst; first [reflexivity | lia]);
    try discriminate.
  intros [= <-]. split; [lia | reflexivity].
Qed.

Lemma vset_is_Some {A} (v : list A) i x :
  0 <= i < Z.of_nat (length v) → vset v i x = Some (<[Z.to_nat i := x]> v).
Proof. intros Hi. apply vset_Some. auto. Qed.

Lemma vat_vset_eq {A} (v v' : list A) i x :
  vset v i x = Some v' → vat v' i = Some x.
Proof.
  intros [Hi ->]%vset_Some. apply vat_Some. split; [lia|].
  apply list_lookup_insert_eq. lia.
Qed.

Lemma vat_vset_ne {A} (v v' : list A) i j x :
  vset v i x = Some v' → i ≠ j → vat v' j = vat v j.
Proof.
  intros [Hi ->]%vset_Some Hne. unfold vat.
  destruct (0 <=? j) eqn:E; [|reflexivity]. apply Z.leb_le in E.
  apply list_lookup_insert_ne. lia.
Qed.

(** Writing an element back over a fresh write restores the vector. *)
Lemma vset_vset_restore {A} (v v1 : list A) i x y :
  vat v i = Some x → vset v i y = Some v1 → vset v1 i x = Some v.
Proof.
  intros [Hi Hx]%vat_Some [Hr ->]%vset_Some.
  apply vset_Some. rewrite length_insert. split; [lia|].
  rewrite list_insert_insert_eq. symmetry. by apply list_insert_id.
Qed.

(** ** Inversion of the four member functions *)

Ltac bind_inv H :=
  repeat
    (let x := fresh "x" in
     let E := fresh "E" in
     apply bind_Some in H as (x & E & H); cbv beta in H;
     try (progress (repeat match type of H with
                    | context [let '(_, _) := ?y in _] => destruct y
                    end))).

Lemma lookup_inv st hp tid pc b h st' hp' :
  lookup st hp tid pc = Some (b, h, st', hp') →
  ∃ g bv path y,
    vat (globalHistoryReg st) tid = Some g ∧
    vat (branchHistoryTable st) (Z.land pc (pcMask st)) = Some bv ∧
    vat (pathTable st) tid = Some path ∧
    b = (0 <=? y) ∧
    h = Some (fresh (dom hp)) ∧
    st' = st ∧
    hp' = <[fresh (dom hp) :=
              new_BPHistory g (s32 (Z.land (u32 bv) (localMask st))) path
                            (u32 (Z.land pc (pcMask st))) y]> hp.
Proof.
  unfold lookup. intros H. bind_inv H. injection H as <- <- <- <-.
  eauto 12.
Qed.

Lemma updateHistories_inv st hp tid pc uncond taken h h' st' hp' :
  updateHistories st hp tid pc uncond taken h = Some (h', st', hp') →
  let new_pc := Z.land pc (pcMask st) in
  ∃ hp1 g b pt pt1,
    vat (globalHistoryReg st) tid = Some g ∧
    vat (branchHistoryTable st) new_pc = Some b ∧
    vat (pathTable st) tid = Some pt ∧
    (if uncond
     then h' = Some (fresh (dom hp)) ∧
          hp1 = <[fresh (dom hp) :=
                    new_BPHistory g (s32 (Z.land (u32 b) (localMask st))) pt
                                  (u32 new_pc) 0]> hp
     else h' = h ∧ hp1 = hp) ∧
    (if Z.of_nat (length pt) =?
        Z.max (branchAddrBits st) (history_length st)
     then ∃ l history back,
          h' = Some l ∧ hp1 !! l = Some history ∧ last pt = Some back ∧
          pt1 = removelast pt ∧ hp' = <[l := set_evicted history back]> hp1
     else pt1 = pt ∧ hp' = hp1) ∧
    st' = set_pathTable
            (set_branchHistoryTable
               (set_globalHistoryReg st
                  (<[Z.to_nat tid := shift_global st g taken]>
                     (globalHistoryReg st)))
               (<[Z.to_nat new_pc := shift_local st b taken]>
                  (branchHistoryTable st)))
            (<[Z.to_nat tid := new_pc :: pt1]> (pathTable st)).
Proof.
  intros H new_pc. unfold updateHistories in H. fold new_pc in H.
  apply bind_Some in H as ([h1 hp1] & E1 & H). cbv beta iota in H.
  apply bind_Some in H as (g & Eg & H).
  apply bind_Some in H as (ghr & Eghr & H).
  apply bind_Some in H as (b & Eb & H).
  apply bind_Some in H as (bht & Ebht & H).
  apply bind_Some in H as (pt & Ept & H).
  apply bind_Some in H as ([pt1 hp2] & E2 & H). cbv beta iota in H.
  apply bind_Some in H as (ptab & Eptab & H).
  injection H as <- <- <-.
  apply vset_Some in Eghr as [_ ->], Ebht as [_ ->], Eptab as [_ ->].
  exists hp1, g, b, pt, pt1. repeat split; try assumption.
  - destruct uncond.
    + rewrite Eg, Eb, Ept in E1. simpl in E1. by injection E1 as <- <-.
    + by injection E1 as <- <-.
  - destruct (Z.of_nat (length pt) =? _).
    + bind_inv E2. injection E2 as <- <-. eauto 10.
    + by injection E2 as <- <-.
Qed.

Lemma squash_inv st hp tid h h' st' hp' :
  squash st hp tid h = Some (h', st', hp') →
  ∃ l history pt pt2,
    h = Some l ∧ hp !! l = Some history ∧
    0 <= tid < Z.of_nat (length (globalHistoryReg st)) ∧
    0 <= h_new_pc history < Z.of_nat (length (branchHistoryTable st)) ∧
    vat (pathTable st) tid = Some pt ∧
    (if h_branchAddrReplaced history
     then ∃ a, h_branchAddr history = Some a ∧ pt2 = tail pt ++ [a]
     else pt2 = tail pt) ∧
    h' = None ∧ hp' = delete l hp ∧
    st' = set_pathTable
            (set_branchHistoryTable
               (set_globalHistoryReg st
                  (<[Z.to_nat tid := h_globalHistoryReg history]>
                     (globalHistoryReg st)))
               (<[Z.to_nat (h_new_pc history) := h_local history]>
                  (branchHistoryTable st)))
            (<[Z.to_nat tid := pt2]> (pathTable st)).
Proof.
  unfold squash. intros H.
  apply bind_Some in H as (l & El & H).
  apply bind_Some in H as (history & Eh & H).
  apply bind_Some in H as (ghr & Eghr & H).
  apply bind_Some in H as (bht & Ebht & H).
  apply bind_Some in H as (pt & Ept & H).
  apply bind_Some in H as (pt2 & E2 & H).
  apply bind_Some in H as (ptab & Eptab & H).
  injection H as <- <- <-.
  apply vset_Some in Eghr as [? ->], Ebht as [? ->], Eptab as [_ ->].
  exists l, history, pt, pt2. repeat split; try assumption; try lia.
  destruct (h_branchAddrReplaced history).
  - bind_inv E2. injection E2 as <-. exists x. split; [done|].
    by destruct pt.
  - injection E2 as <-. by destruct pt.
Qed.

Lemma update_inv st hp tid pc taken h squashed h' st' hp' :
  update st hp tid pc taken h squashed = Some (h', st', hp') →
  ∃ l history,
    h = Some l ∧ hp !! l = Some history ∧
    (if fires history squashed
     then train st history (Z.land pc (pcMask st)) taken = Some st'
     else st' = st) ∧
    (if squashed then h' = Some l ∧ hp' = hp
     else h' = None ∧ hp' = delete l hp).
Proof.
  unfold update. intros H.
  apply bind_Some in H as (l & El & H).
  apply bind_Some in H as (history & Eh & H).
  apply bind_Some in H as (st1 & Est & H).
  exists l, history. repeat split; try assumption.
  - destruct squashed; simpl in H; injection H as <- <- <-;
      destruct (fires history _); congruence.
  - destruct squashed; simpl in H; injection H as <- <- <-; done.
Qed.

Lemma train_inv st history new_pc taken st' :
  train st history new_pc taken = Some st' →
  ∃ hw1 sh hw2 aw1 aw2,
    adjust (historyWeightTable st) new_pc 0 taken = Some hw1 ∧
    shl64 (Z.land (h_globalHistoryReg history) (globalHistoryMask st))
          (localHistoryBits st) = Some sh ∧
    for_loop (Z.to_nat (history_length st)) 1
      (train_step (h_path history) (Z.lor sh (u64 (h_local history))) taken)
      hw1 = Some hw2 ∧
    adjust (addrWeightTable st) new_pc 0 taken = Some aw1 ∧
    for_loop (Z.to_nat (branchAddrBits st)) 1
      (train_step (h_path history) new_pc taken) aw1 = Some aw2 ∧
    st' = set_addrWeightTable (set_historyWeightTable st hw2) aw2.
Proof.
  unfold train. intros H. bind_inv H. injection H as <-. eauto 12.
Qed.

(** ** The invariant holds in every reachable world *)

Lemma masked_store k X :
  0 <= k <= 32 → masked (Z.ones k) (s32 (Z.land X (Z.ones k))).
Proof.
  intros Hk. unfold masked. rewrite u32_s32.
  pose proof (land_ones_range X k Hk). pose proof (ones_range k Hk).
  rewrite u32_id by lia.
  by rewrite <- Z.land_assoc, Z.land_diag.
Qed.

Lemma config_lmask p st :
  config_of p st → ∃ k, 0 <= k <= 32 ∧ localMask st = Z.ones k.
Proof.
  intros C. exists (Z.min (localHistoryBits st) 32).
  pose proof (u32_range (p_localHistoryBits p)).
  rewrite (cfg_lmask _ _ C), (cfg_lb _ _ C).
  split; [lia | apply mask32_ones; lia].
Qed.

Lemma config_pcmask p st :
  config_of p st → ∃ k, 0 <= k <= 32 ∧ pcMask st = Z.ones k.
Proof.
  intros C. exists (Z.min (branchAddrBits st) 32).
  pose proof (u32_range (p_branchAddrBits p)).
  rewrite (cfg_pcmask _ _ C), (cfg_ab _ _ C).
  split; [lia | apply mask32_ones; lia].
Qed.

Lemma new_pc_addr32 p st pc :
  config_of p st → addr32 (Z.land pc (pcMask st)).
Proof.
  intros (k & Hk & ->)%config_pcmask.
  pose proof (land_ones_range pc k Hk). pose proof (ones_range k Hk).
  unfold addr32. lia.
Qed.

Lemma new_BPHistory_ok p st g X path new_pc y :
  config_of p st →
  Forall addr32 path →
  hist_ok (localMask st)
    (new_BPHistory g (s32 (Z.land X (localMask st))) path new_pc y).
Proof.
  intros (k & Hk & ->)%config_lmask Hp. split; simpl.
  - by apply masked_store.
  - discriminate.
  - assumption.
Qed.

Lemma inv_path_at p st hp tid path :
  inv p st hp → vat (pathTable st) tid = Some path → Forall addr32 path.
Proof.
  intros [_ _ P _] [_ Hp]%vat_Some. by eapply (Forall_lookup_1 _ _ _ _ P).
Qed.

Lemma inv_new p st : PerceptronBP_new p = Some st → inv p st ∅.
Proof.
  unfold PerceptronBP_new. intros H.
  apply bind_Some in H as (rows & _ & H). injection H as <-.
  split; simpl.
  - by split.
  - apply Forall_replicate. reflexivity.
  - apply Forall_replicate, Forall_replicate. unfold addr32. lia.
  - apply map_Forall_empty.
Qed.

Lemma inv_lookup p st hp tid pc b h st' hp' :
  inv p st hp → lookup st hp tid pc = Some (b, h, st', hp') → inv p st' hp'.
Proof.
  intros Hi (g & bv & path & y & _ & _ & Hp & _ & _ & -> & ->)%lookup_inv.
  pose proof (inv_path_at _ _ _ _ _ Hi Hp). destruct Hi as [C B P M].
  split; try assumption.
  apply map_Forall_insert_2; [|assumption].
  by eapply new_BPHistory_ok.
Qed.

Lemma inv_update p st hp tid pc taken h squashed h' st' hp' :
  inv p st hp →
  update st hp tid pc taken h squashed = Some (h', st', hp') →
  inv p st' hp'.
Proof.
  intros [C B P M] (l & history & _ & _ & Ht & Hh)%update_inv.
  assert (inv p st' hp) as [C' B' P' M'].
  { destruct (fires history squashed); [|by subst].
    apply train_inv in Ht as (? & ? & ? & ? & ? & _ & _ & _ & _ & _ & ->).
    split; simpl; try assumption. by destruct C. }
  destruct squashed; destruct Hh as [_ ->]; split; try assumption.
  by apply map_Forall_delete.
Qed.

Lemma removelast_last {A} (l : list A) x :
  last l = Some x → removelast l ++ [x] = l.
Proof.
  intros [l' ->]%last_Some. by rewrite List.removelast_last.
Qed.

Lemma inv_updateHistories p st hp tid pc uncond taken h h' st' hp' :
  inv p st hp →
  updateHistories st hp tid pc uncond taken h = Some (h', st', hp') →
  inv p st' hp'.
Proof.
  intros [C B P M] H. apply updateHistories_inv in H; simpl in H.
  destruct H as (hp1 & g & b & pt & pt1 & Hg & Hb & Hpt & H1 & H2 & ->).
  assert (Forall addr32 pt) as Fpt.
  { apply vat_Some in Hpt as [_ Hpt].
    by eapply (Forall_lookup_1 _ _ _ _ P). }
  assert (map_Forall (λ _ h, hist_ok (localMask st) h) hp1) as M1.
  { destruct uncond; destruct H1 as [_ ->]; [|assumption].
    apply map_Forall_insert_2; [|assumption]. by eapply new_BPHistory_ok. }
  split; simpl.
  - by destruct C.
  - apply Forall_insert; [assumption|]. unfold shift_local.
    destruct (config_lmask _ _ C) as (k & Hk & ->).
    by apply masked_store.
  - apply Forall_insert; [assumption|]. constructor.
    + by eapply new_pc_addr32.
    + destruct (_ =? _).
      * destruct H2 as (l & history & back & _ & _ & Hl & -> & _).
        apply removelast_last in Hl. rewrite <- Hl in Fpt.
        by apply Forall_app in Fpt as [? _].
      * by destruct H2 as [-> _].
  - destruct (_ =? _).
    + destruct H2 as (l & history & back & _ & Hh & _ & _ & ->).
      apply map_Forall_insert_2; [|assumption].
      apply M1 in Hh as [? ? ?]. split; simpl; [assumption| |assumption].
      intros a [= <-]. apply u32_range.
    + by destruct H2 as [_ ->].
Qed.

Lemma inv_squash p st hp tid h h' st' hp' :
  inv p st hp →
  squash st hp tid h = Some (h', st', hp') →
  inv p st' hp'.
Proof.
  intros [C B P M] H. apply squash_inv in H.
  destruct H as (l & history & pt & pt2 & _ & Hh & _ & _ & Hpt & H2 & _ & -> & ->).
  apply M in Hh as [Hloc Hev _].
  assert (Forall addr32 pt) as Fpt.
  { apply vat_Some in Hpt as [_ Hpt].
    by eapply (Forall_lookup_1 _ _ _ _ P). }
  assert (Forall addr32 (tail pt)) as Ftl.
  { destruct pt; [assumption|]. by inversion Fpt. }
  split; simpl.
  - by destruct C.
  - by apply Forall_insert.
  - apply Forall_insert; [assumption|].
    destruct (h_branchAddrReplaced history).
    + destruct H2 as (a & Ha & ->). apply Forall_app. split; [assumption|].
      constructor; [by apply Hev | constructor].
    + by subst.
  - by apply map_Forall_delete.
Qed.

Lemma reachable_inv p st hp : reachable p st hp → inv p st hp.
Proof.
  induction 1;
    eauto using inv_new, inv_lookup, inv_updateHistories, inv_update,
                inv_squash.
Qed.

(** ** Advance followed by squash *)

Lemma vset_insert_restore {A} (v : list A) i x y :
  vat v i = Some x → vset (<[Z.to_nat i := y]> v) i x = Some v.
Proof.
  intros Hx. eapply vset_vset_restore; [exact Hx|].
  apply vset_is_Some. by eapply vat_lt.
Qed.

Lemma vat_insert_eq {A} (v : list A) i x y :
  vat v i = Some x → vat (<[Z.to_nat i := y]> v) i = Some y.
Proof.
  intros Hx. eapply vat_vset_eq. apply vset_is_Some. by eapply vat_lt.
Qed.

Lemma set_restore st ghr bht ptab :
  set_pathTable
    (set_branchHistoryTable
       (set_globalHistoryReg
          (set_pathTable
             (set_branchHistoryTable (set_globalHistoryReg st ghr) bht) ptab)
          (globalHistoryReg st))
       (branchHistoryTable st))
    (pathTable st) = st.
Proof. by destruct st. Qed.

Lemma squash_intro st hp tid l history ghr bht pt pt2 ptab :
  hp !! l = Some history →
  vset (globalHistoryReg st) tid (h_globalHistoryReg history) = Some ghr →
  vset (branchHistoryTable st) (h_new_pc history) (h_local history)
    = Some bht →
  vat (pathTable st) tid = Some pt →
  (if h_branchAddrReplaced history
   then ∃ a, h_branchAddr history = Some a ∧ pt2 = tail pt ++ [a]
   else pt2 = tail pt) →
  vset (pathTable st) tid pt2 = Some ptab →
  squash st hp tid (Some l) =
  Some (None,
        set_pathTable (set_branchHistoryTable (set_globalHistoryReg st ghr) bht)
                      ptab,
        delete l hp).
Proof.
  intros Hh Hg Hb Hpt H2 Hptab. unfold squash. simpl.
  rewrite Hh. simpl. rewrite Hg. simpl. rewrite Hb. simpl.
  rewrite Hpt. simpl.
  replace (match pt with [] => pt | _ :: r => r end) with (tail pt)
    by (by destruct pt).
  destruct (h_branchAddrReplaced history).
  - destruct H2 as (a & -> & ->). simpl. rewrite Hptab. reflexivity.
  - subst pt2. simpl. rewrite Hptab. reflexivity.
Qed.

(** A snapshot taken from the current state and handed to
    [updateHistories] is undone by [squash]: the object is restored as a
    whole, and no other live snapshot is touched. *)
Lemma advance_squash p st hp tid pc uncond taken l y h2 st2 hp2 :
  inv p st hp →
  let new_pc := Z.land pc (pcMask st) in
  ∀ g bv path,
  vat (globalHistoryReg st) tid = Some g →
  vat (branchHistoryTable st) new_pc = Some bv →
  vat (pathTable st) tid = Some path →
  hp !! l =
    Some (new_BPHistory g (s32 (Z.land (u32 bv) (localMask st))) path
                        (u32 new_pc) y) →
  updateHistories st hp tid pc uncond taken (Some l) = Some (h2, st2, hp2) →
  ∃ l2, h2 = Some l2 ∧ (uncond = false → l2 = l) ∧
        (uncond = true → hp !! l2 = None) ∧
        squash st2 hp2 tid h2 = Some (None, st, delete l2 hp2) ∧
        ∀ l0, l0 ≠ l2 → hp2 !! l0 = hp !! l0.
Proof.
  intros [C B P M] new_pc g bv path Hg Hb Hpath Hl H.
  apply updateHistories_inv in H; simpl in H. fold new_pc in H.
  destruct H as (hp1 & g' & b' & pt & pt1 & Hg' & Hb' & Hpt & H1 & H2 & ->).
  assert (g' = g) as -> by congruence.
  assert (b' = bv) as -> by congruence.
  assert (pt = path) as -> by congruence.
  assert (∃ l2 y2, h2 = Some l2 ∧ (uncond = false → l2 = l) ∧
            (uncond = true → hp !! l2 = None) ∧
            hp1 !! l2 =
              Some (new_BPHistory g (s32 (Z.land (u32 bv) (localMask st)))
                                  path (u32 new_pc) y2) ∧
            ∀ l0, l0 ≠ l2 → hp1 !! l0 = hp !! l0)
    as (l2 & y2 & -> & Hl2 & Hfresh & Hh1 & Hframe1).
  { destruct uncond; destruct H1 as [-> ->].
    - exists (fresh (dom hp)), 0. repeat split; try done.
      + intros _. apply not_elem_of_dom, is_fresh.
      + apply lookup_insert_eq.
      + intros l0 Hne. by apply lookup_insert_ne.
    - exists l, y. repeat split; done. }
  assert (masked (localMask st) bv) as Hbv.
  { apply vat_Some in Hb as [_ Hb]. by eapply (Forall_lookup_1 _ _ _ _ B). }
  assert (Forall addr32 path) as Fpt.
  { apply vat_Some in Hpath as [_ Hpath].
    by eapply (Forall_lookup_1 _ _ _ _ P). }
  assert (u32 new_pc = new_pc) as Hnpc.
  { apply u32_id. by eapply new_pc_addr32. }
  exists l2. split; [done|]. split; [done|]. split; [done|].
  destruct (Z.of_nat (length path) =? _).
  - destruct H2 as (l' & history & back & [= <-] & Hh & Hlast & -> & ->).
    rewrite Hh1 in Hh. injection Hh as <-. split.
    + erewrite squash_intro with (pt2 := path);
        [by rewrite set_restore | apply lookup_insert_eq | simpl..].
      * by apply vset_insert_restore.
      * rewrite Hnpc, Hbv. by apply vset_insert_restore.
      * by eapply vat_insert_eq.
      * exists (u32 back). split; [done|]. simpl.
        apply removelast_last in Hlast as Hrl.
        rewrite u32_id; [done|].
        rewrite <- Hrl in Fpt. apply Forall_app in Fpt as [_ Fb].
        by inversion Fb.
      * by apply vset_insert_restore.
    + intros l0 Hne. rewrite lookup_insert_ne by done. by apply Hframe1.
  - destruct H2 as [-> ->]. split.
    + erewrite squash_intro with (pt2 := path);
        [by rewrite set_restore | exact Hh1 | simpl..].
      * by apply vset_insert_restore.
      * rewrite Hnpc, Hbv. by apply vset_insert_restore.
      * by eapply vat_insert_eq.
      * done.
      * by apply vset_insert_restore.
    + done.
Qed.

(** ** Claims about speculation and rollback *)

(** C1 (round-trip restoration).  In every reachable world, when
    [lookup tid pc] produces a snapshot and [updateHistories] is called
    for the same branch with that snapshot, the [squash] that follows has
    defined behaviour, nulls the handle, and puts back the global history
    register of the thread, the local history register of the bucket and
    the path queue of the thread exactly as they were before
    [updateHistories]; in fact the whole predictor object is the one from
    before the call. *)
Theorem squash_restores_advance p st hp tid pc b h st1 hp1 uncond taken
    h2 st2 hp2 :
  reachable p st hp →
  lookup st hp tid pc = Some (b, h, st1, hp1) →
  updateHistories st1 hp1 tid pc uncond taken h = Some (h2, st2, hp2) →
  ∃ st3 hp3,
    squash st2 hp2 tid h2 = Some (None, st3, hp3) ∧
    vat (globalHistoryReg st3) tid = vat (globalHistoryReg st1) tid ∧
    vat (branchHistoryTable st3) (Z.land pc (pcMask st1)) =
      vat (branchHistoryTable st1) (Z.land pc (pcMask st1)) ∧
    vat (pathTable st3) tid = vat (pathTable st1) tid ∧
    st3 = st1.
Proof.
  intros Hr Hlk Hadv. apply reachable_inv in Hr.
  pose proof (inv_lookup _ _ _ _ _ _ _ _ _ Hr Hlk) as Hi1.
  apply lookup_inv in Hlk
    as (g & bv & path & y & Hg & Hb & Hp & _ & Eh & Est & Ehp).
  subst h st1 hp1.
  eapply advance_squash in Hadv as (l2 & Eh2 & _ & _ & Hsq & _);
    [| exact Hi1 | exact Hg | exact Hb | exact Hp | apply lookup_insert_eq].
  subst h2. eauto 10.
Qed.

(** C2 (squash of the youngest branch in flight).  After predict and
    advance for a branch A and then predict and advance for a branch B on
    the same thread, [squash] on the snapshot of B leaves the snapshot of A
    and both weight tables as they were, and the global history register
    and the path queue of the thread (the whole object, in fact) are again
    what they were right after the advance of A. *)
Theorem squash_youngest_keeps_older p st hp tid pcA pcB
    bA hA st1 hp1 uncondA takenA hA' stA hpA
    bB hB st2 hp2 uncondB takenB hB' stB hpB :
  reachable p st hp →
  lookup st hp tid pcA = Some (bA, hA, st1, hp1) →
  updateHistories st1 hp1 tid pcA uncondA takenA hA = Some (hA', stA, hpA) →
  lookup stA hpA tid pcB = Some (bB, hB, st2, hp2) →
  updateHistories st2 hp2 tid pcB uncondB takenB hB = Some (hB', stB, hpB) →
  ∃ st3 hp3,
    squash stB hpB tid hB' = Some (None, st3, hp3) ∧
    is_Some (snapshot_of hpA hA') ∧
    snapshot_of hp3 hA' = snapshot_of hpA hA' ∧
    historyWeightTable st3 = historyWeightTable stB ∧
    addrWeightTable st3 = addrWeightTable stB ∧
    historyWeightTable st3 = historyWeightTable stA ∧
    addrWeightTable st3 = addrWeightTable stA ∧
    vat (globalHistoryReg st3) tid = vat (globalHistoryReg stA) tid ∧
    vat (pathTable st3) tid = vat (pathTable stA) tid ∧
    st3 = stA.
Proof.
  intros Hr HlkA HadvA HlkB HadvB. apply reachable_inv in Hr.
  pose proof (inv_lookup _ _ _ _ _ _ _ _ _ Hr HlkA) as Hi1.
  pose proof (inv_updateHistories _ _ _ _ _ _ _ _ _ _ _ Hi1 HadvA) as HiA.
  pose proof (inv_lookup _ _ _ _ _ _ _ _ _ HiA HlkB) as Hi2.
  (* the snapshot of A is live after its advance *)
  assert (∃ lA sA, hA' = Some lA ∧ hpA !! lA = Some sA)
    as (lA & sA & -> & HsA).
  { apply lookup_inv in HlkA
      as (g & bv & path & y & Hg & Hb & Hp & _ & Eh & Est & Ehp).
    subst hA st1 hp1.
    eapply advance_squash in HadvA as (l2 & Eh2 & _ & _ & Hsq & _);
      [| exact Hi1 | exact Hg | exact Hb | exact Hp | apply lookup_insert_eq].
    subst hA'.
    apply squash_inv in Hsq as (l & s & _ & _ & [= <-] & Hs & _). eauto. }
  assert (historyWeightTable stB = historyWeightTable stA ∧
          addrWeightTable stB = addrWeightTable stA) as [HwB HaB].
  { apply lookup_inv in HlkB as (? & ? & ? & ? & _ & _ & _ & _ & _ & Est & _).
    apply updateHistories_inv in HadvB
      as (? & ? & ? & ? & ? & _ & _ & _ & _ & _ & EstB).
    by subst st2 stB. }
  apply lookup_inv in HlkB
    as (g & bv & path & y & Hg & Hb & Hp & _ & Eh & Est & Ehp).
  subst hB st2 hp2.
  eapply advance_squash in HadvB as (l2 & Eh2 & Hsame & Hnew & Hsq & Hframe);
    [| exact Hi2 | exact Hg | exact Hb | exact Hp | apply lookup_insert_eq].
  subst hB'.
  assert (fresh (dom hpA) ≠ lA) as HfA.
  { intros <-. apply (is_fresh (dom hpA)), elem_of_dom. eauto. }
  assert (l2 ≠ lA) as Hne.
  { destruct uncondB.
    - intros ->. rewrite lookup_insert_ne in Hnew by done.
      rewrite HsA in Hnew. by specialize (Hnew eq_refl).
    - by rewrite Hsame. }
  exists stA, (delete l2 hpB). split; [exact Hsq|].
  unfold snapshot_of. simpl.
  rewrite lookup_delete_ne by done.
  rewrite Hframe by (by apply not_eq_sym).
  rewrite lookup_insert_ne by done.
  rewrite HsA. eauto 12.
Qed.

(** ** Training *)

Lemma adjust_inv wt k j up wt' :
  adjust wt k j up = Some wt' →
  ∃ row w,
    vat wt k = Some row ∧ vat row j = Some w ∧
    in_int (w + sgn up) = true ∧
    wt' = <[Z.to_nat k := <[Z.to_nat j := w + sgn up]> row]> wt.
Proof.
  unfold adjust. intros H.
  apply bind_Some in H as (row & Er & H).
  apply bind_Some in H as (w & Ew & H).
  apply bind_Some in H as (w' & Ew' & H).
  apply bind_Some in H as (row' & Erow' & H).
  apply vset_Some in Erow' as [_ ->], H as [_ ->].
  exists row, w. repeat split; try assumption.
  - destruct up; unfold int_add, int_sub in Ew'; simpl;
      destruct (in_int _); try discriminate; reflexivity.
  - destruct up; unfold int_add, int_sub in Ew'; simpl;
      destruct (in_int _); try discriminate; by injection Ew' as <-.
Qed.

Lemma wget_insert wt k j row w v r c :
  vat wt k = Some row → vat row j = Some w →
  wget (<[Z.to_nat k := <[Z.to_nat j := v]> row]> wt) r c =
  if (r =? k) && (c =? j) then v else wget wt r c.
Proof.
  intros Hrow Hw. unfold wget.
  destruct (r =? k) eqn:Er; simpl.
  - apply Z.eqb_eq in Er. subst r.
    rewrite (vat_insert_eq _ _ _ _ Hrow). simpl.
    destruct (c =? j) eqn:Ec.
    + apply Z.eqb_eq in Ec. subst c.
      by rewrite (vat_insert_eq _ _ _ _ Hw).
    + apply Z.eqb_neq in Ec. rewrite Hrow. simpl.
      erewrite vat_vset_ne; [done | | by apply not_eq_sym].
      apply vset_is_Some. by eapply vat_lt.
  - apply Z.eqb_neq in Er.
    erewrite vat_vset_ne; [done | | by apply not_eq_sym].
    apply vset_is_Some. by eapply vat_lt.
Qed.

(** One [++] or [--] moves exactly the entry it names, by one. *)
Lemma adjust_wget wt k j up wt' r c :
  adjust wt k j up = Some wt' →
  wget wt' r c = wget wt r c + (if (r =? k) && (c =? j) then sgn up else 0).
Proof.
  intros (row & w & Hrow & Hw & _ & ->)%adjust_inv.
  rewrite (wget_insert _ _ _ _ _ _ _ _ Hrow Hw).
  destruct ((r =? k) && (c =? j)) eqn:E; [|lia].
  apply andb_true_iff in E as [->%Z.eqb_eq ->%Z.eqb_eq].
  unfold wget. rewrite Hrow. simpl. by rewrite Hw.
Qed.

Lemma train_step_inv path reg taken j wt wt' :
  train_step path reg taken j wt = Some wt' →
  ∃ a, vat path (j - 1) = Some a ∧
       adjust wt (u32 a) j (eqb taken (Z.testbit reg (j - 1))) = Some wt'.
Proof.
  unfold train_step. intros H.
  apply bind_Some in H as (a & Ea & H).
  apply bind_Some in H as (sh & Esh & H).
  exists a. split; [assumption|].
  unfold shr64 in Esh.
  destruct ((0 <=? j - 1) && (j - 1 <? 64)) eqn:E; [|discriminate].
  injection Esh as <-.
  apply andb_true_iff in E as [E%Z.leb_le _].
  by rewrite bit_of_shift in H.
Qed.

(** The rounds [j0 .. j0+n-1] of a training loop: entry [(r, c)] moves in
    round [c] only, and only in the row that the path names there. *)
Lemma train_loop_wget path reg taken n : ∀ j0 wt wt',
  for_loop n j0 (train_step path reg taken) wt = Some wt' →
  ∀ r c,
    wget wt' r c =
    wget wt r c +
    (if (j0 <=? c) && (c <? j0 + Z.of_nat n)
     then step_delta path reg taken r c else 0).
Proof.
  induction n as [|n IH]; intros j0 wt wt' H r c.
  - injection H as <-.
    replace ((j0 <=? c) && (c <? j0 + Z.of_nat 0)) with false; [lia|].
    symmetry. apply andb_false_iff. rewrite Z.leb_gt, Z.ltb_ge. lia.
  - simpl in H. apply bind_Some in H as (wt1 & Hs & H).
    rewrite (IH _ _ _ H r c).
    apply train_step_inv in Hs as (a & Ha & Hadj).
    rewrite (adjust_wget _ _ _ _ _ r c Hadj). unfold step_delta.
    destruct (Z.eq_dec c j0) as [->|Hne].
    + rewrite Ha, Z.eqb_refl, andb_true_r.
      replace ((j0 + 1 <=? j0) && (j0 <? j0 + 1 + Z.of_nat n)) with false
        by (symmetry; apply andb_false_iff; rewrite Z.leb_gt; lia).
      replace ((j0 <=? j0) && (j0 <? j0 + Z.of_nat (S n))) with true
        by (symmetry; apply andb_true_iff; rewrite Z.leb_le, Z.ltb_lt; lia).
      lia.
    + replace (c =? j0) with false by (symmetry; by apply Z.eqb_neq).
      rewrite andb_false_r.
      replace ((j0 <=? c) && (c <? j0 + Z.of_nat (S n)))
        with ((j0 + 1 <=? c) && (c <? j0 + 1 + Z.of_nat n)); [lia|].
      apply eq_true_iff_eq.
      rewrite !andb_true_iff, !Z.leb_le, !Z.ltb_lt. lia.
Qed.

Lemma train_loop_path path reg taken n : ∀ j0 wt wt',
  for_loop n j0 (train_step path reg taken) wt = Some wt' →
  ∀ c, j0 <= c < j0 + Z.of_nat n → is_Some (vat path (c - 1)).
Proof.
  induction n as [|n IH]; intros j0 wt wt' H c Hc; [lia|].
  simpl in H. apply bind_Some in H as (wt1 & Hs & H).
  destruct (Z.eq_dec c j0) as [->|Hne].
  - apply train_step_inv in Hs as (a & Ha & _). eauto.
  - eapply IH; [exact H | lia].
Qed.

Lemma step_delta_bound path reg taken r c :
  -1 <= step_delta path reg taken r c <= 1.
Proof.
  unfold step_delta, sgn.
  destruct (vat path (c - 1)); [|lia].
  destruct (r =? _); [|lia]. destruct (eqb _ _); lia.
Qed.

Lemma loop_range n c hl :
  n = Z.to_nat hl →
  (1 <=? c) && (c <? 1 + Z.of_nat n) = (1 <=? c) && (c <=? hl).
Proof.
  intros ->. apply eq_true_iff_eq.
  rewrite !andb_true_iff, !Z.leb_le, !Z.ltb_lt. lia.
Qed.

(** What [train] leaves in the two tables, entry by entry. *)
Lemma train_wget st history new_pc taken st' :
  train st history new_pc taken = Some st' →
  ∀ r c,
    wget (historyWeightTable st') r c =
      wget (historyWeightTable st) r c +
      (if (r =? new_pc) && (c =? 0) then sgn taken else 0) +
      (if (1 <=? c) && (c <=? history_length st)
       then step_delta (h_path history) (snapshot_history_reg st history)
                       taken r c
       else 0) ∧
    wget (addrWeightTable st') r c =
      wget (addrWeightTable st) r c +
      (if (r =? new_pc) && (c =? 0) then sgn taken else 0) +
      (if (1 <=? c) && (c <=? branchAddrBits st)
       then step_delta (h_path history) new_pc taken r c
       else 0).
Proof.
  intros (hw1 & sh & hw2 & aw1 & aw2 & Hh1 & Hsh & Hh2 & Ha1 & Ha2 & ->)%train_inv
    r c.
  simpl.
  assert (Z.lor sh (u64 (h_local history)) = snapshot_history_reg st history)
    as Hreg.
  { unfold shl64 in Hsh. destruct (_ && _); [|discriminate].
    by injection Hsh as <-. }
  rewrite Hreg in Hh2.
  rewrite (train_loop_wget _ _ _ _ _ _ _ Hh2 r c),
          (train_loop_wget _ _ _ _ _ _ _ Ha2 r c),
          (adjust_wget _ _ _ _ _ r c Hh1), (adjust_wget _ _ _ _ _ r c Ha1).
  by rewrite !(loop_range _ _ _ eq_refl).
Qed.

(** *** Total movement *)

Lemma dist_diag {A} (d : A → A → Z) (a : list A) :
  (∀ x, d x x = 0) → dist d a a = 0.
Proof. intros Hd. induction a as [|x a IH]; simpl; [done|]. rewrite Hd. lia. Qed.

Lemma dist_insert {A} (d : A → A → Z) e y y' : ∀ (a b : list A) i,
  b !! i = Some y →
  (∀ x, d x y' <= d x y + e) → 0 <= e →
  dist d a (<[i := y']> b) <= dist d a b + e.
Proof.
  induction a as [|x a IH]; intros [|z b] [|i] Hi Hd He; simpl in *;
    try discriminate; try lia.
  - injection Hi as ->. specialize (Hd x). lia.
  - specialize (IH b i Hi Hd He). lia.
Qed.

Lemma adjust_dist ref wt k j up wt' :
  adjust wt k j up = Some wt' → l1_table ref wt' <= l1_table ref wt + 1.
Proof.
  intros (row & w & [_ Hrow]%vat_Some & [_ Hw]%vat_Some & _ & ->)%adjust_inv.
  unfold l1_table. eapply dist_insert; [exact Hrow| |lia].
  intros x. unfold l1_row. eapply dist_insert; [exact Hw| |lia].
  intros z. unfold sgn. destruct up; lia.
Qed.

Lemma train_loop_dist ref path reg taken n : ∀ j0 wt wt',
  for_loop n j0 (train_step path reg taken) wt = Some wt' →
  l1_table ref wt' <= l1_table ref wt + Z.of_nat n.
Proof.
  induction n as [|n IH]; intros j0 wt wt' H.
  - injection H as <-. lia.
  - simpl in H. apply bind_Some in H as (wt1 & Hs & H).
    apply train_step_inv in Hs as (a & _ & Hadj).
    apply (adjust_dist ref) in Hadj. apply IH in H. lia.
Qed.

Lemma train_dist st history new_pc taken st' :
  train st history new_pc taken = Some st' →
  l1_table (historyWeightTable st) (historyWeightTable st') <=
    1 + Z.of_nat (Z.to_nat (history_length st)) ∧
  l1_table (addrWeightTable st) (addrWeightTable st') <=
    1 + Z.of_nat (Z.to_nat (branchAddrBits st)).
Proof.
  intros (hw1 & sh & hw2 & aw1 & aw2 & Hh1 & _ & Hh2 & Ha1 & Ha2 & ->)%train_inv.
  simpl.
  apply (adjust_dist (historyWeightTable st)) in Hh1.
  apply (train_loop_dist (historyWeightTable st)) in Hh2.
  apply (adjust_dist (addrWeightTable st)) in Ha1.
  apply (train_loop_dist (addrWeightTable st)) in Ha2.
  assert (∀ t, l1_table t t = 0) as Hz.
  { intros t. apply dist_diag. intros x. apply dist_diag. intros; lia. }
  rewrite Hz in Hh1, Ha1. lia.
Qed.

(** *** The tables keep their shape *)

Lemma adjust_shape wt k j up wt' :
  adjust wt k j up = Some wt' → length <$> wt' = length <$> wt.
Proof.
  intros (row & w & [_ Hrow]%vat_Some & _ & _ & ->)%adjust_inv.
  rewrite list_fmap_insert, length_insert.
  apply list_insert_id. by rewrite list_lookup_fmap, Hrow.
Qed.

Lemma train_loop_shape path reg taken n : ∀ j0 wt wt',
  for_loop n j0 (train_step path reg taken) wt = Some wt' →
  length <$> wt' = length <$> wt.
Proof.
  induction n as [|n IH]; intros j0 wt wt' H.
  - by injection H as <-.
  - simpl in H. apply bind_Some in H as (wt1 & Hs & H).
    apply train_step_inv in Hs as (a & _ & Hadj).
    apply adjust_shape in Hadj. apply IH in H. congruence.
Qed.

Lemma train_shape st history new_pc taken st' :
  train st history new_pc taken = Some st' →
  length <$> historyWeightTable st' = length <$> historyWeightTable st ∧
  length <$> addrWeightTable st' = length <$> addrWeightTable st.
Proof.
  intros (hw1 & sh & hw2 & aw1 & aw2 & Hh1 & _ & Hh2 & Ha1 & Ha2 & ->)%train_inv.
  simpl.
  apply adjust_shape in Hh1, Ha1. apply train_loop_shape in Hh2, Ha2.
  split; congruence.
Qed.

(** [train] reads the weight tables and the constructor-written members
    only, and writes the weight tables only. *)
Lemma train_with_history st ghr bht ptab history new_pc taken :
  train (with_history st ghr bht ptab) history new_pc taken =
  (λ s, with_history s ghr bht ptab) <$> train st history new_pc taken.
Proof.
  unfold train, with_history. simpl.
  destruct (adjust (historyWeightTable st) _ _ _); [simpl|done].
  destruct (shl64 _ _); [simpl|done].
  destruct (for_loop _ _ _ _); [simpl|done].
  destruct (adjust (addrWeightTable st) _ _ _); [simpl|done].
  destruct (for_loop _ _ _ _); [simpl|done].
  done.
Qed.

Lemma train_frame st history new_pc taken st' :
  train st history new_pc taken = Some st' →
  st' = set_addrWeightTable
          (set_historyWeightTable st (historyWeightTable st'))
          (addrWeightTable st').
Proof.
  by intros (? & ? & ? & ? & ? & _ & _ & _ & _ & _ & ->)%train_inv.
Qed.

(** ** Claims about training *)

Lemma fires_spec history squashed :
  fires history squashed = true ↔
  squashed = true ∨ -64 <= h_last_y history <= 64.
Proof.
  unfold fires.
  rewrite orb_true_iff, andb_true_iff, !Z.leb_le.
  split; (intros [?|[? ?]]; [by left | right; lia]).
Qed.

Lemma update_train st hp tid pc taken h squashed h' st' hp' history :
  snapshot_of hp h = Some history →
  update st hp tid pc taken h squashed = Some (h', st', hp') →
  if fires history squashed
  then train st history (Z.land pc (pcMask st)) taken = Some st'
  else st' = st.
Proof.
  intros Hs (l & history' & -> & Hl & Ht & _)%update_inv.
  simpl in Hs. by replace history with history' by congruence.
Qed.

(** C3 (saturation policy).  When the score recorded in the snapshot has
    magnitude above 64 and the branch was not squashed, [update] leaves
    both weight tables as they were; when the branch was squashed or the
    score lies in [-64, 64], training fires: the two bias weights of the
    bucket move by one in the direction of the outcome. *)
Theorem saturation_policy st hp tid pc taken h squashed history h' st' hp' :
  snapshot_of hp h = Some history →
  update st hp tid pc taken h squashed = Some (h', st', hp') →
  (squashed = false → 64 < Z.abs (h_last_y history) →
     historyWeightTable st' = historyWeightTable st ∧
     addrWeightTable st' = addrWeightTable st) ∧
  (squashed = true ∨ -64 <= h_last_y history <= 64 →
     wget (historyWeightTable st') (Z.land pc (pcMask st)) 0 =
       wget (historyWeightTable st) (Z.land pc (pcMask st)) 0 + sgn taken ∧
     wget (addrWeightTable st') (Z.land pc (pcMask st)) 0 =
       wget (addrWeightTable st) (Z.land pc (pcMask st)) 0 + sgn taken ∧
     historyWeightTable st' ≠ historyWeightTable st ∧
     addrWeightTable st' ≠ addrWeightTable st).
Proof.
  intros Hs Hu. pose proof (update_train _ _ _ _ _ _ _ _ _ _ _ Hs Hu) as Ht.
  split.
  - intros -> Hy.
    assert (fires history false = false) as Hf.
    { apply not_true_iff_false. rewrite fires_spec. lia. }
    rewrite Hf in Ht. by subst.
  - intros Hf%fires_spec. rewrite Hf in Ht.
    destruct (train_wget _ _ _ _ _ Ht (Z.land pc (pcMask st)) 0) as [Hh Ha].
    rewrite !Z.eqb_refl in Hh, Ha. simpl in Hh, Ha.
    rewrite Z.add_0_r in Hh, Ha.
    repeat split; try assumption.
    + intros E. rewrite E in Hh. unfold sgn in Hh. destruct taken; lia.
    + intros E. rewrite E in Ha. unfold sgn in Ha. destruct taken; lia.
Qed.

(** C6 (training moves every weight by at most one step).  Whenever
    [update] fires, every entry of the two weight tables either keeps its
    value or moves by exactly +1 or -1, the tables keep their shape, and
    the total movement of the call (the sum over all entries of the
    absolute change) is at most [history_length + branchAddrBits + 2]. *)
Theorem training_moves_by_one p st hp tid pc taken h squashed history
    h' st' hp' :
  reachable p st hp →
  snapshot_of hp h = Some history →
  fires history squashed = true →
  update st hp tid pc taken h squashed = Some (h', st', hp') →
  (∀ r c,
     let d := wget (historyWeightTable st') r c
              - wget (historyWeightTable st) r c in
     d = 1 ∨ d = -1 ∨ d = 0) ∧
  (∀ r c,
     let d := wget (addrWeightTable st') r c
              - wget (addrWeightTable st) r c in
     d = 1 ∨ d = -1 ∨ d = 0) ∧
  length <$> historyWeightTable st' = length <$> historyWeightTable st ∧
  length <$> addrWeightTable st' = length <$> addrWeightTable st ∧
  l1_table (historyWeightTable st) (historyWeightTable st')
  + l1_table (addrWeightTable st) (addrWeightTable st')
  <= history_length st + branchAddrBits st + 2.
Proof.
  intros Hr Hs Hf Hu.
  pose proof (update_train _ _ _ _ _ _ _ _ _ _ _ Hs Hu) as Ht.
  rewrite Hf in Ht.
  assert (∀ r c new_pc hl path reg,
            let d := (if (r =? new_pc) && (c =? 0) then sgn taken else 0) +
                     (if (1 <=? c) && (c <=? hl)
                      then step_delta path reg taken r c else 0) in
            d = 1 ∨ d = -1 ∨ d = 0) as Hd.
  { intros r c new_pc hl path reg.
    pose proof (step_delta_bound path reg taken r c).
    destruct (c =? 0) eqn:E0.
    - apply Z.eqb_eq in E0. subst c. simpl. rewrite andb_true_r.
      unfold sgn. destruct (r =? new_pc), taken; simpl; lia.
    - rewrite andb_false_r. simpl. destruct (_ && _); lia. }
  split; [|split; [|split; [|split]]].
  - intros r c. destruct (train_wget _ _ _ _ _ Ht r c) as [Hh _].
    specialize (Hd r c (Z.land pc (pcMask st)) (history_length st)
                  (h_path history) (snapshot_history_reg st history)).
    simpl in *. lia.
  - intros r c. destruct (train_wget _ _ _ _ _ Ht r c) as [_ Ha].
    specialize (Hd r c (Z.land pc (pcMask st)) (branchAddrBits st)
                  (h_path history) (Z.land pc (pcMask st))).
    simpl in *. lia.
  - by apply train_shape in Ht as [? ?].
  - by apply train_shape in Ht as [? ?].
  - apply reachable_inv in Hr as [C _ _ _].
    pose proof (u32_range (p_branchAddrBits p)).
    pose proof (u32_range (u32 (p_globalHistoryBits p)
                           + u32 (p_localHistoryBits p))).
    rewrite <- (cfg_ab _ _ C) in *. rewrite <- (cfg_hl _ _ C) in *.
    apply train_dist in Ht as [? ?]. lia.
Qed.

Lemma update_with_history st ghr bht ptab hp hp2 tid tid2 pc taken l l2
    squashed history :
  hp !! l = Some history → hp2 !! l2 = Some history →
  weights_after
    (update (with_history st ghr bht ptab) hp2 tid2 pc taken (Some l2) squashed)
  = weights_after (update st hp tid pc taken (Some l) squashed).
Proof.
  intros Hl Hl2. unfold update. simpl. rewrite Hl, Hl2. simpl.
  destruct (fires history squashed).
  - rewrite train_with_history.
    destruct (train st history _ taken); simpl; [|done].
    by destruct squashed.
  - simpl. by destruct squashed.
Qed.

(** C7 (training reads the snapshot, not the live history).  When
    [update] fires in a reachable world, round [c] of the history loop
    moves the weight in column [c] of the row named by position [c-1] of
    the path stored in the snapshot, in the direction given by bit [c-1]
    of the history register rebuilt from the global and local history
    stored in the snapshot; the address loop does the same with the bits
    of the bucket.  Hence a second run with the same snapshot, [pc],
    [taken] and [squashed], on an object whose history registers and path
    queues are arbitrary, leaves the same weight tables. *)
Theorem training_reads_only_snapshot p st hp tid pc taken l squashed history
    h' st' hp' :
  reachable p st hp →
  hp !! l = Some history →
  fires history squashed = true →
  update st hp tid pc taken (Some l) squashed = Some (h', st', hp') →
  (∀ c, 1 <= c <= history_length st →
     ∃ a, vat (h_path history) (c - 1) = Some a ∧
          ∀ r, wget (historyWeightTable st') r c =
               wget (historyWeightTable st) r c +
               (if r =? a
                then sgn (eqb taken
                            (Z.testbit (snapshot_history_reg st history)
                                       (c - 1)))
                else 0)) ∧
  (∀ c, 1 <= c <= branchAddrBits st →
     ∃ a, vat (h_path history) (c - 1) = Some a ∧
          ∀ r, wget (addrWeightTable st') r c =
               wget (addrWeightTable st) r c +
               (if r =? a
                then sgn (eqb taken
                            (Z.testbit (Z.land pc (pcMask st)) (c - 1)))
                else 0)) ∧
  (∀ ghr bht ptab hp2 tid2 l2,
     hp2 !! l2 = Some history →
     weights_after
       (update (with_history st ghr bht ptab) hp2 tid2 pc taken (Some l2)
               squashed)
     = Some (weights st')).
Proof.
  intros Hr Hl Hf Hu.
  assert (snapshot_of hp (Some l) = Some history) as Hs by exact Hl.
  pose proof (update_train _ _ _ _ _ _ _ _ _ _ _ Hs Hu) as Ht.
  rewrite Hf in Ht.
  apply reachable_inv in Hr as [_ _ _ M].
  apply M in Hl as Hok. destruct Hok as [_ _ Hpath].
  pose proof (train_inv _ _ _ _ _ Ht)
    as (hw1 & sh & hw2 & aw1 & aw2 & _ & Hsh & Hh2 & _ & Ha2 & _).
  assert (Z.lor sh (u64 (h_local history)) = snapshot_history_reg st history)
    as Hreg.
  { unfold shl64 in Hsh. destruct (_ && _); [|discriminate].
    by injection Hsh as <-. }
  rewrite Hreg in Hh2.
  assert (∀ n path reg wt wt' c r,
            for_loop n 1 (train_step path reg taken) wt = Some wt' →
            Forall addr32 path →
            1 <= c < 1 + Z.of_nat n →
            ∃ a, vat path (c - 1) = Some a ∧
                 step_delta path reg taken r c =
                 if r =? a then sgn (eqb taken (Z.testbit reg (c - 1))) else 0)
    as Hstep.
  { intros n path reg wt wt' c r Hloop Fp Hc.
    destruct (train_loop_path _ _ _ _ _ _ _ Hloop c Hc) as [a Ha].
    exists a. split; [assumption|]. unfold step_delta. rewrite Ha.
    rewrite u32_id; [done|].
    apply vat_Some in Ha as [_ Ha]. by eapply (Forall_lookup_1 _ _ _ _ Fp). }
  split; [|split].
  - intros c Hc.
    destruct (Hstep _ _ _ _ _ c 0 Hh2 Hpath ltac:(lia)) as (a & Ha & _).
    exists a. split; [assumption|]. intros r.
    destruct (Hstep _ _ _ _ _ c r Hh2 Hpath ltac:(lia)) as (a' & Ha' & Hd).
    assert (a' = a) as -> by congruence.
    destruct (train_wget _ _ _ _ _ Ht r c) as [Hh _]. rewrite Hh.
    replace (c =? 0) with false by (symmetry; apply Z.eqb_neq; lia).
    replace ((1 <=? c) && (c <=? history_length st)) with true
      by (symmetry; apply andb_true_iff; rewrite !Z.leb_le; lia).
    rewrite andb_false_r. lia.
  - intros c Hc.
    destruct (Hstep _ _ _ _ _ c 0 Ha2 Hpath ltac:(lia)) as (a & Ha & _).
    exists a. split; [assumption|]. intros r.
    destruct (Hstep _ _ _ _ _ c r Ha2 Hpath ltac:(lia)) as (a' & Ha' & Hd).
    assert (a' = a) as -> by congruence.
    destruct (train_wget _ _ _ _ _ Ht r c) as [_ Haw]. rewrite Haw.
    replace (c =? 0) with false by (symmetry; apply Z.eqb_neq; lia).
    replace ((1 <=? c) && (c <=? branchAddrBits st)) with true
      by (symmetry; apply andb_true_iff; rewrite !Z.leb_le; lia).
    rewrite andb_false_r. lia.
  - intros ghr bht ptab hp2 tid2 l2 Hl2.
    rewrite (update_with_history st ghr bht ptab hp hp2 tid tid2 pc taken
               l l2 squashed history Hl Hl2).
    by rewrite Hu.
Qed.

(** C8 (snapshot disposal).  [update] deletes the snapshot and nulls the
    handle exactly when [squashed] is false, and leaves both the handle
    and the heap alone when it is true; [squash] always deletes the
    snapshot and nulls the handle. *)
Theorem snapshot_disposal st hp tid pc taken h squashed hu stu hpu
    st2 hp2 tid2 h2 hs sts hps :
  update st hp tid pc taken h squashed = Some (hu, stu, hpu) →
  squash st2 hp2 tid2 h2 = Some (hs, sts, hps) →
  (∃ l, h = Some l ∧ is_Some (hp !! l) ∧
        (hu = None ↔ squashed = false) ∧
        (squashed = false → hpu = delete l hp ∧ hpu !! l = None) ∧
        (squashed = true → hu = Some l ∧ hpu = hp)) ∧
  (∃ l, h2 = Some l ∧ is_Some (hp2 !! l) ∧
        hs = None ∧ hps = delete l hp2 ∧ hps !! l = None).
Proof.
  intros (l & history & -> & Hl & _ & Hd)%update_inv
         (l' & history' & _ & _ & -> & Hl' & _ & _ & _ & _ & -> & -> & _)%squash_inv.
  split.
  - exists l. split; [done|]. split; [eauto|].
    destruct squashed; destruct Hd as [-> ->].
    + repeat split; done.
    + repeat split; try done. apply lookup_delete_eq.
  - exists l'. repeat split; eauto. apply lookup_delete_eq.
Qed.

(** C10 (training is a frame on the history store).  [update] leaves
    every global history register, every local history register, every
    path queue and every constructor-written member exactly as they were:
    the object it returns is the one it was given with other weight
    tables, and the heap either is the same or has lost the snapshot. *)
Theorem update_keeps_history st hp tid pc taken h squashed h' st' hp' :
  update st hp tid pc taken h squashed = Some (h', st', hp') →
  globalHistoryReg st' = globalHistoryReg st ∧
  branchHistoryTable st' = branchHistoryTable st ∧
  pathTable st' = pathTable st ∧
  same_config st st' ∧
  st' = set_addrWeightTable
          (set_historyWeightTable st (historyWeightTable st'))
          (addrWeightTable st') ∧
  ∃ l, h = Some l ∧ hp' = (if squashed then hp else delete l hp).
Proof.
  intros (l & history & -> & Hl & Ht & Hd)%update_inv.
  assert (st' = set_addrWeightTable
                  (set_historyWeightTable st (historyWeightTable st'))
                  (addrWeightTable st')) as Hst.
  { destruct (fires history squashed).
    - by apply train_frame in Ht.
    - subst st'. by destruct st. }
  split; [by rewrite Hst|]. split; [by rewrite Hst|].
  split; [by rewrite Hst|]. split; [by rewrite Hst|].
  split; [exact Hst|].
  exists l. split; [done|]. by destruct squashed; destruct Hd as [_ ->].
Qed.

(** ** Claims about prediction *)

(** The prediction and the snapshot do not depend on the heap. *)
Lemma lookup_heap_indep st hp hp2 tid pc :
  lookup_result (lookup st hp tid pc) = lookup_result (lookup st hp2 tid pc).
Proof.
  unfold lookup, lookup_result.
  repeat match goal with
         | |- context [mbind _ ?m] =>
             match m with
             | context [mbind] => fail 1
             | _ => destruct m; simpl; [|reflexivity]
             end
         end.
  unfold snapshot_of. simpl. by rewrite !lookup_insert_eq.
Qed.

(** C5 ([lookup] is read-only).  [lookup] returns the object it was
    given: every global history register, local history register, path
    queue and weight is unchanged, and no snapshot that was live is
    touched.  Two lookups from the same object (whatever the heaps) give
    the same prediction and snapshots with the same contents. *)
Theorem lookup_read_only st hp hp2 tid pc b h st' hp' b2 h2 st2 hp2' :
  lookup st hp tid pc = Some (b, h, st', hp') →
  lookup st hp2 tid pc = Some (b2, h2, st2, hp2') →
  st' = st ∧
  globalHistoryReg st' = globalHistoryReg st ∧
  branchHistoryTable st' = branchHistoryTable st ∧
  pathTable st' = pathTable st ∧
  historyWeightTable st' = historyWeightTable st ∧
  addrWeightTable st' = addrWeightTable st ∧
  (∀ l, is_Some (hp !! l) → hp' !! l = hp !! l) ∧
  b2 = b ∧
  is_Some (snapshot_of hp' h) ∧
  snapshot_of hp2' h2 = snapshot_of hp' h.
Proof.
  intros H1 H2.
  pose proof (lookup_heap_indep st hp hp2 tid pc) as Hi.
  rewrite H1, H2 in Hi. simpl in Hi. injection Hi as Hb Hs.
  apply lookup_inv in H1
    as (g & bv & path & y & _ & _ & _ & _ & Eh & Est & Ehp).
  subst st'. repeat split; try done.
  - intros l [s Hl]. subst hp'. apply lookup_insert_ne.
    intros <-. apply (is_fresh (dom hp)), elem_of_dom. eauto.
  - subst h hp'. simpl. rewrite lookup_insert_eq. eauto.
Qed.

Lemma score_step_inv wt path reg j y y' :
  score_step wt path reg j y = Some y' →
  ∃ a row w,
    vat path (j - 1) = Some a ∧ 0 <= j - 1 < 64 ∧
    vat wt (u32 a) = Some row ∧ vat row j = Some w ∧
    y' = y + signed w (Z.testbit reg (j - 1)) ∧ in_int y' = true.
Proof.
  unfold score_step. intros H.
  apply bind_Some in H as (a & Ea & H).
  apply bind_Some in H as (sh & Esh & H).
  apply bind_Some in H as (row & Er & H).
  apply bind_Some in H as (w & Ew & H).
  unfold shr64 in Esh.
  destruct ((0 <=? j - 1) && (j - 1 <? 64)) eqn:E; [|discriminate].
  injection Esh as <-.
  apply andb_true_iff in E as [E1%Z.leb_le E2%Z.ltb_lt].
  rewrite bit_of_shift in H by assumption.
  exists a, row, w. repeat split; try assumption.
  - unfold signed. unfold int_add, int_sub in H.
    destruct (Z.testbit reg (j - 1)); destruct (in_int _);
      try discriminate; injection H as <-; lia.
  - unfold int_add, int_sub in H.
    destruct (Z.testbit reg (j - 1)); destruct (in_int _) eqn:Ei;
      try discriminate; by injection H as <-.
Qed.

(** A scoring loop adds up the signed weights along the path. *)
Lemma score_loop_sum wt path reg f n : ∀ j0 y y',
  for_loop n j0 (score_step wt path reg) y = Some y' →
  Forall addr32 path →
  (∀ j a, j0 <= j < j0 + Z.of_nat n → 0 <= j - 1 < 64 →
          vat path (j - 1) = Some a →
          f j = signed (wget wt a j) (Z.testbit reg (j - 1))) →
  y' = y + foldr Z.add 0 (f <$> seqZ j0 (Z.of_nat n)) ∧
  ∀ j, j0 <= j < j0 + Z.of_nat n → 0 <= j - 1 < 64.
Proof.
  induction n as [|n IH]; intros j0 y y' H Fp Hf.
  - injection H as <-. simpl. split; lia.
  - simpl in H. apply bind_Some in H as (y1 & Hs & H).
    apply score_step_inv in Hs
      as (a & row & w & Ha & Hj & Hrow & Hw & -> & _).
    apply IH in H as [-> Hrange]; [|assumption|].
    + rewrite (seqZ_cons j0) by lia.
      replace (Z.pred (Z.of_nat (S n))) with (Z.of_nat n) by lia.
      replace (Z.succ j0) with (j0 + 1) by lia.
      rewrite fmap_cons. cbn [foldr].
      rewrite (Hf j0 a) by (assumption || lia).
      assert (u32 a = a) as Hu.
      { apply u32_id. apply vat_Some in Ha as [_ Ha].
        by eapply (Forall_lookup_1 _ _ _ _ Fp). }
      rewrite Hu in Hrow.
      replace (wget wt a j0) with w
        by (unfold wget; rewrite Hrow; simpl; by rewrite Hw).
      split; [lia|].
      intros j Hjr. destruct (Z.eq_dec j j0) as [->|?]; [lia|].
      apply Hrange. lia.
    + intros j a' Hjr. apply Hf. lia.
Qed.

(** Below bit 64 the register that [lookup] builds is the combined
    history: the masked local history does not reach the bits of the
    shifted global history, so the [|] is a concatenation. *)
Lemma history_reg_bit G bv k lb i :
  0 <= k <= 32 → k <= lb → 0 <= i < 64 →
  Z.testbit (Z.lor (u64 (Z.shiftl G lb)) (Z.land (u32 bv) (Z.ones k))) i =
  Z.testbit (G * 2 ^ lb + Z.land bv (Z.ones k)) i.
Proof.
  intros Hk Hlb Hi.
  assert (Z.land (u32 bv) (Z.ones k) = Z.land bv (Z.ones k)) as ->.
  { apply Z.bits_inj'. intros n Hn. unfold u32.
    rewrite !Z.land_spec, Z.testbit_ones_nonneg by lia.
    destruct (n <? k) eqn:E; [|by rewrite !andb_false_r].
    apply Z.ltb_lt in E. by rewrite Z.mod_pow2_bits_low by lia. }
  rewrite <- Z.shiftl_mul_pow2 by lia.
  rewrite Z.add_nocarry_lor.
  - unfold u64. rewrite !Z.lor_spec. by rewrite Z.mod_pow2_bits_low by lia.
  - apply Z.bits_inj'. intros n Hn.
    rewrite Z.bits_0, !Z.land_spec, Z.testbit_ones_nonneg by lia.
    destruct (n <? k) eqn:E; [|by rewrite !andb_false_r].
    apply Z.ltb_lt in E. by rewrite Z.shiftl_spec_low by lia.
Qed.

Lemma bucket_bit pc k i :
  0 <= k → 0 <= i < k →
  Z.testbit (Z.land pc (Z.ones k)) i = Z.testbit pc i.
Proof.
  intros Hk Hi. rewrite Z.land_spec, Z.testbit_ones_nonneg by lia.
  replace (i <? k) with true by (symmetry; apply Z.ltb_lt; lia).
  apply andb_true_r.
Qed.

(** C4 (prediction rule).  In a reachable world of a predictor with at
    most 32 address bits (the width of [pcMask]), [lookup] answers taken
    exactly when the total score of the specification is non-negative, and
    that total is the score it records in the snapshot. *)
Theorem prediction_rule p st hp tid pc b h st' hp' :
  reachable p st hp →
  branchAddrBits st <= 32 →
  lookup st hp tid pc = Some (b, h, st', hp') →
  (b = true ↔ 0 <= spec_y_total st tid pc) ∧
  h_last_y <$> snapshot_of hp' h = Some (spec_y_total st tid pc).
Proof.
  intros Hr Hab H.
  apply reachable_inv in Hr as Hi. destruct Hi as [C _ P _].
  pose proof (u32_range (p_branchAddrBits p)) as Ra.
  rewrite <- (cfg_ab _ _ C) in Ra.
  pose proof (u32_range (u32 (p_globalHistoryBits p)
                         + u32 (p_localHistoryBits p))) as Rh.
  rewrite <- (cfg_hl _ _ C) in Rh.
  pose proof (u32_range (p_localHistoryBits p)) as Rl.
  rewrite <- (cfg_lb _ _ C) in Rl.
  assert (localMask st = Z.ones (Z.min (localHistoryBits st) 32)) as Hlm.
  { rewrite (cfg_lmask _ _ C). apply mask32_ones. lia. }
  assert (pcMask st = Z.ones (branchAddrBits st)) as Hpm.
  { rewrite (cfg_pcmask _ _ C), mask32_ones by lia. f_equal. lia. }
  unfold lookup in H.
  apply bind_Some in H as (g & Eg & H).
  apply bind_Some in H as (bv & Eb & H).
  apply bind_Some in H as (row0 & Erow0 & H).
  apply bind_Some in H as (y0 & Ey0 & H).
  apply bind_Some in H as (sh & Esh & H).
  apply bind_Some in H as (path & Epath & H).
  apply bind_Some in H as (y_hist & Ehist & H).
  apply bind_Some in H as (arow0 & Earow0 & H).
  apply bind_Some in H as (a0 & Ea0 & H).
  apply bind_Some in H as (y_addr & Eaddr & H).
  apply bind_Some in H as (y & Ey & H).
  injection H as <- <- <- <-.
  assert (Forall addr32 path) as Fp.
  { apply vat_Some in Epath as [_ Epath].
    by eapply (Forall_lookup_1 _ _ _ _ P). }
  assert (sh = u64 (Z.shiftl (Z.land g (globalHistoryMask st))
                             (localHistoryBits st))) as ->.
  { unfold shl64 in Esh. destruct (_ && _); [|discriminate].
    by injection Esh as <-. }
  assert (∀ j a, vat path (j - 1) = Some a → spec_visited st tid j = a)
    as Hvis.
  { intros j a Ha. unfold spec_visited. rewrite Epath. simpl. by rewrite Ha. }
  eapply (score_loop_sum _ _ _
            (λ j, signed (wget (historyWeightTable st) (spec_visited st tid j) j)
                         (Z.testbit (spec_combined_history st tid pc) (j - 1))))
    in Ehist as [-> _]; [|assumption|]; cycle 1.
  { intros j a Hj Hj64 Ha. rewrite (Hvis j a Ha). f_equal.
    unfold spec_combined_history, spec_bucket. rewrite Eb, Eg. simpl.
    rewrite Hlm. symmetry. apply history_reg_bit; lia. }
  eapply (score_loop_sum _ _ _
            (λ j, signed (wget (addrWeightTable st) (spec_visited st tid j) j)
                         (Z.testbit pc (j - 1))))
    in Eaddr as [-> _]; [|assumption|]; cycle 1.
  { intros j a Hj Hj64 Ha. rewrite (Hvis j a Ha). f_equal.
    rewrite Hpm. symmetry. apply bucket_bit; lia. }
  assert (y = spec_y_total st tid pc) as ->.
  { unfold int_add in Ey. destruct (in_int _); [|discriminate].
    injection Ey as <-.
    unfold spec_y_total, spec_y_hist, spec_y_addr, sum_from_1, spec_bucket,
      wget.
    rewrite Erow0, Earow0. simpl. rewrite Ey0, Ea0. simpl.
    rewrite !Z2Nat.id by lia. lia. }
  split.
  - by rewrite Z.leb_le.
  - unfold snapshot_of. simpl. by rewrite lookup_insert_eq.
Qed.

(** ** The path queues stay full *)

Lemma new_path_zero p st :
  PerceptronBP_new p = Some st →
  length (pathTable st) = Z.to_nat (u32 (p_numThreads p)) ∧
  Forall (λ q, q = replicate (Z.to_nat (path_capacity st)) 0) (pathTable st) ∧
  0 <= path_capacity st.
Proof.
  unfold PerceptronBP_new. intros H.
  apply bind_Some in H as (rows & _ & H). injection H as <-.
  unfold path_capacity. simpl. split; [apply length_replicate|]. split.
  - by apply Forall_replicate.
  - pose proof (u32_range (p_branchAddrBits p)). lia.
Qed.

Lemma run_inv_new p st : PerceptronBP_new p = Some st → run_inv st ∅.
Proof.
  intros (_ & Hz & Hc)%new_path_zero. split; [|assumption|].
  - unfold path_full. eapply Forall_impl; [exact Hz|].
    intros q ->. simpl. rewrite length_replicate. lia.
  - apply map_Forall_empty.
Qed.

Lemma run_inv_lookup st hp tid pc b h st' hp' :
  run_inv st hp → lookup st hp tid pc = Some (b, h, st', hp') →
  run_inv st' hp'.
Proof.
  intros [F C M] (g & bv & path & y & _ & _ & _ & _ & _ & -> & ->)%lookup_inv.
  split; try assumption.
  apply map_Forall_insert_2; [|assumption]. discriminate.
Qed.

Lemma run_inv_update st hp tid pc taken h squashed h' st' hp' :
  run_inv st hp →
  update st hp tid pc taken h squashed = Some (h', st', hp') →
  run_inv st' hp'.
Proof.
  intros [F C M] (l & history & _ & _ & Ht & Hh)%update_inv.
  assert (pathTable st' = pathTable st ∧
          path_capacity st' = path_capacity st) as [Hp Hc].
  { destruct (fires history squashed); [|by subst].
    apply train_frame in Ht. by rewrite Ht. }
  assert (path_full st') as F'.
  { unfold path_full. rewrite Hp, Hc. exact F. }
  destruct squashed; destruct Hh as [_ ->]; split; rewrite ?Hc;
    try assumption.
  by apply map_Forall_delete.
Qed.

(** From a world with full queues, [updateHistories] always takes the
    branch of line 174: it records the address at the back of the queue in
    the snapshot, sets [branchAddrReplaced], and leaves the queue full. *)
Lemma updateHistories_full st hp tid pc uncond taken h h' st' hp' :
  run_inv st hp →
  updateHistories st hp tid pc uncond taken h = Some (h', st', hp') →
  run_inv st' hp' ∧
  ∃ l s q back,
    h' = Some l ∧ hp' !! l = Some s ∧
    h_branchAddrReplaced s = true ∧
    vat (pathTable st) tid = Some q ∧ last q = Some back ∧
    h_branchAddr s = Some (u32 back) ∧
    vat (pathTable st') tid = Some (Z.land pc (pcMask st) :: removelast q).
Proof.
  intros [F C M] H. apply updateHistories_inv in H; simpl in H.
  destruct H as (hp1 & g & b & q & q1 & Hg & Hb & Hq & H1 & H2 & ->).
  assert (Z.of_nat (length q) = path_capacity st) as Hlen.
  { apply vat_Some in Hq as [_ Hq]. by apply (Forall_lookup_1 _ _ _ _ F Hq). }
  fold (path_capacity st) in H2.
  rewrite Hlen, Z.eqb_refl in H2.
  destruct H2 as (l & history & back & -> & Hh & Hlast & -> & ->).
  assert (0 < path_capacity st) as Hpos.
  { apply last_Some in Hlast as [q' ->]. rewrite length_app in Hlen.
    simpl in Hlen. lia. }
  split.
  - split; [| assumption |].
    + unfold path_full, path_capacity. simpl.
      apply Forall_insert; [exact F|]. simpl.
      apply removelast_last in Hlast as Hq'.
      rewrite <- Hq', length_app in Hlen. simpl in Hlen.
      fold (path_capacity st). lia.
    + apply map_Forall_insert_2; [done|].
      destruct uncond; destruct H1 as [_ ->]; [|exact M].
      apply map_Forall_insert_2; [discriminate | exact M].
  - exists l, (set_evicted history back), q, back.
    repeat split; try done.
    + apply lookup_insert_eq.
    + simpl. by eapply vat_insert_eq.
Qed.

Lemma run_inv_squash st hp tid h s h' st' hp' :
  run_inv st hp →
  snapshot_of hp h = Some s →
  h_branchAddrReplaced s = true →
  squash st hp tid h = Some (h', st', hp') →
  run_inv st' hp'.
Proof.
  intros [F C M] Hs Hrep H. apply squash_inv in H.
  destruct H as (l & history & q & q2 & -> & Hh & _ & _ & Hq & H2 & _ & -> & ->).
  simpl in Hs. assert (history = s) as -> by congruence.
  rewrite Hrep in H2. destruct H2 as (a & _ & ->).
  assert (Z.of_nat (length q) = path_capacity st) as Hlen.
  { apply vat_Some in Hq as [_ Hq]. by apply (Forall_lookup_1 _ _ _ _ F Hq). }
  pose proof (M _ _ Hh Hrep) as Hpos.
  split; [| assumption |].
  - unfold path_full, path_capacity. simpl.
    apply Forall_insert; [exact F|]. simpl.
    fold (path_capacity st). rewrite length_app. simpl.
    destruct q; simpl in *; lia.
  - by apply map_Forall_delete.
Qed.

Lemma protocol_run_inv p st hp : protocol_run p st hp → run_inv st hp.
Proof.
  induction 1; eauto using run_inv_new, run_inv_lookup, run_inv_update,
                 run_inv_squash.
  by eapply updateHistories_full.
Qed.

(** C9 (the path queues are always at capacity).  The constructor gives
    every thread a path queue of exactly [max branchAddrBits
    history_length] zeros.  In every world reached by [lookup],
    [updateHistories], [update], and [squash] on snapshots that went
    through [updateHistories], every queue has exactly that length, and
    each of these calls leaves it so; hence every [updateHistories] takes
    the branch of line 174, drops the address at the back and sets the
    [branchAddrReplaced] flag of its snapshot. *)
Theorem path_queue_stays_full p st hp :
  protocol_run p st hp →
  (∀ st0, PerceptronBP_new p = Some st0 →
     length (pathTable st0) = Z.to_nat (u32 (p_numThreads p)) ∧
     Forall (λ q, q = replicate (Z.to_nat (path_capacity st0)) 0)
            (pathTable st0)) ∧
  path_full st ∧
  (∀ tid pc b h st' hp',
     lookup st hp tid pc = Some (b, h, st', hp') → path_full st') ∧
  (∀ tid pc taken h squashed h' st' hp',
     update st hp tid pc taken h squashed = Some (h', st', hp') →
     path_full st') ∧
  (∀ tid h s h' st' hp',
     snapshot_of hp h = Some s → h_branchAddrReplaced s = true →
     squash st hp tid h = Some (h', st', hp') → path_full st') ∧
  (∀ tid pc uncond taken h h' st' hp',
     updateHistories st hp tid pc uncond taken h = Some (h', st', hp') →
     path_full st' ∧
     ∃ l s q back,
       h' = Some l ∧ hp' !! l = Some s ∧
       h_branchAddrReplaced s = true ∧
       vat (pathTable st) tid = Some q ∧ last q = Some back ∧
       h_branchAddr s = Some (u32 back) ∧
       vat (pathTable st') tid
         = Some (Z.land pc (pcMask st) :: removelast q)).
Proof.
  intros Hrun. pose proof (protocol_run_inv _ _ _ Hrun) as Hi.
  split; [|split; [|split; [|split; [|split]]]].
  - intros st0 (? & ? & _)%new_path_zero. done.
  - by destruct Hi.
  - intros tid pc b h st' hp' H.
    by destruct (run_inv_lookup _ _ _ _ _ _ _ _ Hi H).
  - intros tid pc taken h squashed h' st' hp' H.
    by destruct (run_inv_update _ _ _ _ _ _ _ _ _ _ Hi H).
  - intros tid h s h' st' hp' Hs Hrep H.
    by destruct (run_inv_squash _ _ _ _ _ _ _ _ Hi Hs Hrep H).
  - intros tid pc uncond taken h h' st' hp' H.
    destruct (updateHistories_full _ _ _ _ _ _ _ _ _ _ Hi H) as [[? _ _] ?].
    done.
Qed.

(** ** Defined behaviour

    From parameters with valid widths the constructor succeeds, and in
    the worlds it leads to under the calling protocol every call with a
    valid thread and a live snapshot has defined behaviour (for [lookup]
    and [update], as long as the weights are away from the limits of
    [int]). *)

Lemma world_shape_new p st :
  params_ok p → PerceptronBP_new p = Some st → world_shape st ∅.
Proof.
  intros [Hgb Hlb Hhl Hab Hin] H. unfold PerceptronBP_new in H.
  rewrite !(u32_id (p_globalHistoryBits p)), !(u32_id (p_localHistoryBits p)),
    !(u32_id (p_branchAddrBits p)) in H by lia.
  rewrite (u32_id (_ + _)) in H by lia.
  unfold shl64 in H.
  replace ((0 <=? p_branchAddrBits p) && (p_branchAddrBits p <? 64)) with true
    in H by (symmetry; apply andb_true_iff; rewrite Z.leb_le, Z.ltb_lt; lia).
  simpl in H. injection H as <-.
  assert (0 < 2 ^ p_branchAddrBits p) as Hpos by (apply Z.pow_pos_nonneg; lia).
  assert (2 ^ p_branchAddrBits p < 2 ^ 64) as Hlt
    by (apply Z.pow_lt_mono_r; lia).
  assert (u64 (Z.shiftl 1 (p_branchAddrBits p)) = 2 ^ p_branchAddrBits p) as Hrows.
  { rewrite Z.shiftl_1_l. apply Z.mod_small. lia. }
  assert (0 <= u32 (makeMask (p_branchAddrBits p)) < 2 ^ p_branchAddrBits p)
    as Hmask.
  { rewrite mask32_ones by lia.
    pose proof (land_ones_range (-1) (Z.min (p_branchAddrBits p) 32)
                  ltac:(lia)) as _.
    rewrite Z.ones_equiv.
    assert (0 < 2 ^ Z.min (p_branchAddrBits p) 32)
      by (apply Z.pow_pos_nonneg; lia).
    assert (2 ^ Z.min (p_branchAddrBits p) 32 <= 2 ^ p_branchAddrBits p)
      by (apply Z.pow_le_mono_r; lia).
    lia. }
  split.
  - split; simpl; rewrite ?length_replicate, ?Hrows; try lia.
    + pose proof (u32_range (makeMask (p_branchAddrBits p))). lia.
    + apply Forall_replicate. rewrite length_replicate, u32_id; lia.
    + apply Forall_replicate. rewrite length_replicate, u32_id; lia.
    + apply Forall_replicate, Forall_replicate. unfold bucket_ok. simpl. lia.
  - unfold path_full, path_capacity. simpl.
    apply Forall_replicate. rewrite length_replicate. lia.
  - unfold path_capacity. simpl. lia.
  - apply map_Forall_empty.
Qed.

Lemma new_defined p : params_ok p → is_Some (PerceptronBP_new p).
Proof.
  intros [Hgb Hlb Hhl Hab Hin]. unfold PerceptronBP_new, shl64.
  rewrite (u32_id (p_branchAddrBits p)) by lia.
  replace ((0 <=? p_branchAddrBits p) && (p_branchAddrBits p <? 64)) with true
    by (symmetry; apply andb_true_iff; rewrite Z.leb_le, Z.ltb_lt; lia).
  simpl. eauto.
Qed.

Lemma shape_queue st tid q :
  shape st → path_full st → vat (pathTable st) tid = Some q →
  Z.of_nat (length q) = path_capacity st ∧ Forall (bucket_ok st) q.
Proof.
  intros S F [_ Hq]%vat_Some. split.
  - by apply (Forall_lookup_1 _ _ _ _ F Hq).
  - by apply (Forall_lookup_1 _ _ _ _ (sh_path _ S) Hq).
Qed.

Lemma new_pc_ok st pc : shape st → bucket_ok st (Z.land pc (pcMask st)).
Proof.
  intros S. pose proof (sh_mask _ S) as Hm. unfold bucket_ok.
  assert (0 <= Z.land pc (pcMask st)) by (apply Z.land_nonneg; lia).
  split; [assumption|].
  destruct (Z.le_gt_cases (Z.land pc (pcMask st)) (pcMask st)) as [|Hgt];
    [assumption|exfalso].
  (* a bit of the conjunction that the mask does not have *)
  assert (Z.land (Z.land pc (pcMask st)) (pcMask st) = Z.land pc (pcMask st))
    as Hidem by (by rewrite <- Z.land_assoc, Z.land_diag).
  pose proof (Z.sub_nocarry_ldiff (pcMask st) (Z.land pc (pcMask st))) as Hsub.
  assert (Z.ldiff (Z.land pc (pcMask st)) (pcMask st) = 0) as Hz.
  { apply Z.bits_inj'. intros n Hn.
    rewrite Z.ldiff_spec, Z.land_spec, Z.bits_0.
    destruct (Z.testbit pc n), (Z.testbit (pcMask st) n); reflexivity. }
  specialize (Hsub Hz).
  assert (0 <= Z.ldiff (pcMask st) (Z.land pc (pcMask st))).
  { apply Z.ldiff_nonneg. lia. }
  lia.
Qed.

Lemma thread_ok st tid :
  shape st → 0 <= tid < Z.of_nat (length (globalHistoryReg st)) →
  is_Some (vat (globalHistoryReg st) tid) ∧ is_Some (vat (pathTable st) tid).
Proof.
  intros S Ht. split; apply vat_is_Some; [lia|].
  rewrite (sh_threads _ S). lia.
Qed.

Lemma bucket_row_ok st a :
  shape st → bucket_ok st a →
  is_Some (vat (branchHistoryTable st) a) ∧
  is_Some (vat (historyWeightTable st) a) ∧
  is_Some (vat (addrWeightTable st) a).
Proof.
  intros S [? ?].
  pose proof (sh_bht _ S). pose proof (sh_hwt _ S). pose proof (sh_awt _ S).
  repeat split; apply vat_is_Some; lia.
Qed.

(** [updateHistories] is defined for a valid thread and either an
    unconditional branch or a live snapshot. *)
Lemma updateHistories_defined st hp tid pc uncond taken h :
  world_shape st hp →
  0 <= tid < Z.of_nat (length (globalHistoryReg st)) →
  uncond = true ∨ is_Some (snapshot_of hp h) →
  is_Some (updateHistories st hp tid pc uncond taken h).
Proof.
  intros [S F Hcap M] Ht Hh.
  destruct (thread_ok _ _ S Ht) as [[g Hg] [q Hq]].
  destruct (bucket_row_ok _ _ S (new_pc_ok st pc S)) as ([b Hb] & _ & _).
  destruct (shape_queue _ _ _ S F Hq) as [Hlen _].
  assert (is_Some (last q)) as [back Hback].
  { destruct q as [|x q] using rev_ind; [simpl in Hlen; lia|].
    rewrite last_snoc. eauto. }
  unfold updateHistories.
  assert (∃ l s hp1,
            (if uncond
             then g ← vat (globalHistoryReg st) tid;
                  b ← vat (branchHistoryTable st) (Z.land pc (pcMask st));
                  path ← vat (pathTable st) tid;
                  Some (Some (fresh (dom hp)),
                        <[fresh (dom hp) :=
                            new_BPHistory g
                              (s32 (Z.land (u32 b) (localMask st))) path
                              (u32 (Z.land pc (pcMask st))) 0]> hp)
             else Some (h, hp)) = Some (Some l, hp1) ∧ hp1 !! l = Some s)
    as (l & s & hp1 & -> & Hl).
  { destruct uncond.
    - rewrite Hg, Hb, Hq. simpl. do 3 eexists. split; [reflexivity|].
      apply lookup_insert_eq.
    - destruct Hh as [?|[s Hs]]; [discriminate|].
      destruct h as [l|]; [|discriminate]. simpl in Hs. eauto. }
  simpl. rewrite Hg. simpl.
  rewrite (vset_is_Some (globalHistoryReg st)) by lia. simpl.
  rewrite Hb. simpl.
  rewrite (vset_is_Some (branchHistoryTable st))
    by (by eapply vat_lt). simpl.
  rewrite Hq. simpl. rewrite Hlen. fold (path_capacity st).
  rewrite Z.eqb_refl, Hl. simpl. rewrite Hback. simpl.
  rewrite (vset_is_Some (pathTable st)) by (by eapply vat_lt). simpl.
  eauto.
Qed.

(** [squash] is defined for a valid thread and a live snapshot. *)
Lemma squash_defined st hp tid h :
  world_shape st hp →
  0 <= tid < Z.of_nat (length (globalHistoryReg st)) →
  is_Some (snapshot_of hp h) →
  is_Some (squash st hp tid h).
Proof.
  intros [S F Hcap M] Ht [s Hs].
  destruct h as [l|]; [|discriminate]. simpl in Hs.
  destruct (thread_ok _ _ S Ht) as [[g Hg] [q Hq]].
  pose proof (M _ _ Hs) as [Hnp Hev _ _].
  destruct (bucket_row_ok _ _ S Hnp) as ([b Hb] & _ & _).
  unfold squash. simpl. rewrite Hs. simpl.
  rewrite (vset_is_Some (globalHistoryReg st)) by lia. simpl.
  rewrite (vset_is_Some (branchHistoryTable st)) by (by eapply vat_lt).
  simpl. rewrite Hq. simpl.
  destruct (h_branchAddrReplaced s).
  - destruct (Hev eq_refl) as (a & -> & _). simpl.
    rewrite (vset_is_Some (pathTable st)) by (by eapply vat_lt). simpl. eauto.
  - simpl.
    rewrite (vset_is_Some (pathTable st)) by (by eapply vat_lt). simpl. eauto.
Qed.

Lemma has_cell_shape wt wt' r c :
  length <$> wt' = length <$> wt → has_cell wt r c → has_cell wt' r c.
Proof.
  intros Hs (row & w & [Hr Hrow]%vat_Some & [Hc Hw]%vat_Some).
  assert ((length <$> wt') !! Z.to_nat r = Some (length row)) as Hl
    by (by rewrite Hs, list_lookup_fmap, Hrow).
  rewrite list_lookup_fmap in Hl.
  destruct (wt' !! Z.to_nat r) as [row'|] eqn:Hrow'; [|discriminate].
  injection Hl as Hl.
  destruct (lookup_lt_is_Some_2 row' (Z.to_nat c)) as [w' Hw'].
  { rewrite Hl. by eapply lookup_lt_Some. }
  exists row', w'. split; by apply vat_Some.
Qed.

Lemma shape_cells st r :
  shape st → bucket_ok st r →
  (∀ c, 0 <= c <= history_length st → has_cell (historyWeightTable st) r c) ∧
  (∀ c, 0 <= c <= branchAddrBits st → has_cell (addrWeightTable st) r c).
Proof.
  intros S Hr.
  destruct (bucket_row_ok _ _ S Hr) as (_ & [hrow Hh] & [arow Ha]).
  split; intros c Hc.
  - assert (Z.of_nat (length hrow) = history_length st + 1) as Hl.
    { apply vat_Some in Hh as [_ Hh].
      by apply (Forall_lookup_1 _ _ _ _ (sh_hrow _ S) Hh). }
    destruct (vat_is_Some hrow c ltac:(lia)) as [w Hw]. by exists hrow, w.
  - assert (Z.of_nat (length arow) = branchAddrBits st + 1) as Hl.
    { apply vat_Some in Ha as [_ Ha].
      by apply (Forall_lookup_1 _ _ _ _ (sh_arow _ S) Ha). }
    destruct (vat_is_Some arow c ltac:(lia)) as [w Hw]. by exists arow, w.
Qed.

Lemma weights_within_wget B wt r c :
  0 <= B → weights_within B wt → - B <= wget wt r c <= B.
Proof.
  intros HB W. unfold wget.
  destruct (vat wt r) as [row|] eqn:Hr; simpl; [|lia].
  destruct (vat row c) as [w|] eqn:Hc; simpl; [|lia].
  apply vat_Some in Hr as [_ Hr], Hc as [_ Hc].
  pose proof (Forall_lookup_1 _ _ _ _ W Hr) as Wr.
  by apply (Forall_lookup_1 _ _ _ _ Wr Hc).
Qed.

Lemma adjust_defined wt k j up :
  has_cell wt k j → INT_MIN < wget wt k j < INT_MAX →
  is_Some (adjust wt k j up).
Proof.
  intros (row & w & Hrow & Hw) Hin. unfold wget in Hin.
  rewrite Hrow in Hin. simpl in Hin. rewrite Hw in Hin. simpl in Hin.
  unfold adjust. rewrite Hrow. simpl. rewrite Hw. simpl.
  assert (in_int (w + 1) = true ∧ in_int (w - 1) = true) as [H1 H2].
  { unfold in_int. rewrite !andb_true_iff, !Z.leb_le. lia. }
  unfold int_add, int_sub. rewrite H1, H2.
  destruct up; simpl;
    rewrite (vset_is_Some row) by (by eapply vat_lt); simpl;
    rewrite (vset_is_Some wt) by (by eapply vat_lt); eauto.
Qed.

(** A training loop is defined when the path names existing rows and the
    columns it has yet to visit hold weights away from the limits. *)
Lemma train_loop_defined path reg taken B n : ∀ j0 wt,
  1 <= j0 → j0 - 1 + Z.of_nat n <= 64 → B < INT_MAX →
  (∀ j, j0 <= j < j0 + Z.of_nat n →
        ∃ a, vat path (j - 1) = Some a ∧ has_cell wt (u32 a) j) →
  (∀ r c, j0 <= c → - B <= wget wt r c <= B) →
  is_Some (for_loop n j0 (train_step path reg taken) wt).
Proof.
  induction n as [|n IH]; intros j0 wt Hj0 H64 HB Hpath Hw; [by eexists|].
  simpl. destruct (Hpath j0 ltac:(lia)) as (a & Ha & Hcell).
  destruct (adjust_defined wt (u32 a) j0
              (eqb taken (negb (Z.land (Z.shiftr reg (j0 - 1)) 1 =? 0))) Hcell)
    as [wt1 Hadj].
  { specialize (Hw (u32 a) j0 ltac:(lia)). unfold INT_MIN, INT_MAX in *. lia. }
  assert (train_step path reg taken j0 wt = Some wt1) as ->.
  { unfold train_step. rewrite Ha. simpl. unfold shr64.
    replace ((0 <=? j0 - 1) && (j0 - 1 <? 64)) with true
      by (symmetry; apply andb_true_iff; rewrite Z.leb_le, Z.ltb_lt; lia).
    simpl. exact Hadj. }
  simpl. apply IH; try lia.
  - intros j Hj. destruct (Hpath j ltac:(lia)) as (a' & Ha' & Hc').
    exists a'. split; [assumption|].
    eapply has_cell_shape; [by eapply adjust_shape | assumption].
  - intros r c Hc. rewrite (adjust_wget _ _ _ _ _ r c Hadj).
    replace (c =? j0) with false by (symmetry; apply Z.eqb_neq; lia).
    rewrite andb_false_r, Z.add_0_r. apply Hw. lia.
Qed.

(** [update] is defined for a live snapshot when no weight is at a limit
    of [int]. *)
Lemma update_defined st hp tid pc taken h squashed B :
  world_shape st hp →
  is_Some (snapshot_of hp h) →
  0 <= B < INT_MAX →
  weights_within B (historyWeightTable st) →
  weights_within B (addrWeightTable st) →
  is_Some (update st hp tid pc taken h squashed).
Proof.
  intros [S F Hcap M] [s Hs] HB Wh Wa.
  destruct h as [l|]; [|discriminate]. simpl in Hs.
  pose proof (M _ _ Hs) as [_ _ Hplen Hpath].
  unfold update. simpl. rewrite Hs. simpl.
  destruct (fires s squashed); [|destruct squashed; simpl; eauto].
  assert (is_Some (train st s (Z.land pc (pcMask st)) taken)) as [st' ->];
    [|destruct squashed; simpl; eauto].
  pose proof (sh_lb _ S) as Hlb. pose proof (sh_hl _ S) as Hhl.
  pose proof (sh_ab _ S) as Hab.
  destruct (shape_cells st _ S (new_pc_ok st pc S)) as [Hch Hca].
  assert (∀ j, 1 <= j <= path_capacity st →
            ∃ a, vat (h_path s) (j - 1) = Some a ∧ bucket_ok st a) as Hp.
  { intros j Hj. destruct (vat_is_Some (h_path s) (j - 1) ltac:(lia)) as [a Ha].
    exists a. split; [assumption|].
    apply vat_Some in Ha as [_ Ha]. by apply (Forall_lookup_1 _ _ _ _ Hpath Ha). }
  assert (∀ a, bucket_ok st a → u32 a = a) as Hu.
  { intros a [? ?]. pose proof (sh_mask _ S). apply u32_id. lia. }
  unfold path_capacity in Hp.
  unfold train.
  destruct (adjust_defined (historyWeightTable st) (Z.land pc (pcMask st)) 0
              taken (Hch 0 ltac:(lia))) as [hw1 Hh1].
  { pose proof (weights_within_wget B _ (Z.land pc (pcMask st)) 0
                  ltac:(lia) Wh). unfold INT_MIN, INT_MAX in *. lia. }
  rewrite Hh1. simpl. unfold shl64.
  replace ((0 <=? localHistoryBits st) && (localHistoryBits st <? 64)) with true
    by (symmetry; apply andb_true_iff; rewrite Z.leb_le, Z.ltb_lt; lia).
  simpl.
  destruct (train_loop_defined (h_path s)
              (Z.lor (u64 (Z.shiftl (Z.land (h_globalHistoryReg s)
                                            (globalHistoryMask st))
                                    (localHistoryBits st)))
                     (u64 (h_local s)))
              taken B (Z.to_nat (history_length st)) 1 hw1)
    as [hw2 ->]; try lia.
  { intros j Hj. destruct (Hp j ltac:(lia)) as (a & Ha & Hok).
    exists a. split; [assumption|]. rewrite (Hu a Hok).
    eapply has_cell_shape; [by eapply adjust_shape|].
    destruct (shape_cells st a S Hok) as [Hc _]. apply Hc. lia. }
  { intros r c Hc. rewrite (adjust_wget _ _ _ _ _ r c Hh1).
    replace (c =? 0) with false by (symmetry; apply Z.eqb_neq; lia).
    rewrite andb_false_r, Z.add_0_r.
    apply weights_within_wget; [lia | assumption]. }
  simpl.
  destruct (adjust_defined (addrWeightTable st) (Z.land pc (pcMask st)) 0
              taken (Hca 0 ltac:(lia))) as [aw1 Ha1].
  { pose proof (weights_within_wget B _ (Z.land pc (pcMask st)) 0
                  ltac:(lia) Wa). unfold INT_MIN, INT_MAX in *. lia. }
  rewrite Ha1. simpl.
  destruct (train_loop_defined (h_path s) (Z.land pc (pcMask st))
              taken B (Z.to_nat (branchAddrBits st)) 1 aw1)
    as [aw2 ->]; try lia.
  { intros j Hj. destruct (Hp j ltac:(lia)) as (a & Ha & Hok).
    exists a. split; [assumption|]. rewrite (Hu a Hok).
    eapply has_cell_shape; [by eapply adjust_shape|].
    destruct (shape_cells st a S Hok) as [_ Hc]. apply Hc. lia. }
  { intros r c Hc. rewrite (adjust_wget _ _ _ _ _ r c Ha1).
    replace (c =? 0) with false by (symmetry; apply Z.eqb_neq; lia).
    rewrite andb_false_r, Z.add_0_r.
    apply weights_within_wget; [lia | assumption]. }
  simpl. eauto.
Qed.

(** A scoring loop is defined when the running sum stays inside [int];
    with weights in [-B, B] it moves by at most [B] per round. *)
Lemma score_loop_defined wt path reg B n : ∀ j0 y M,
  1 <= j0 → j0 - 1 + Z.of_nat n <= 64 → 0 <= B →
  (∀ j, j0 <= j < j0 + Z.of_nat n →
        ∃ a, vat path (j - 1) = Some a ∧ has_cell wt (u32 a) j) →
  (∀ r c, - B <= wget wt r c <= B) →
  - M <= y <= M → M + Z.of_nat n * B <= INT_MAX →
  ∃ y', for_loop n j0 (score_step wt path reg) y = Some y' ∧
        - (M + Z.of_nat n * B) <= y' <= M + Z.of_nat n * B.
Proof.
  induction n as [|n IH]; intros j0 y M Hj0 H64 HB Hpath Hw Hy HM.
  - exists y. split; [done|]. simpl. lia.
  - simpl. destruct (Hpath j0 ltac:(lia)) as (a & Ha & row & w & Hrow & Hcw).
    pose proof (Hw (u32 a) j0) as Hwb. unfold wget in Hwb.
    rewrite Hrow in Hwb. simpl in Hwb. rewrite Hcw in Hwb. simpl in Hwb.
    assert (∃ y1, score_step wt path reg j0 y = Some y1 ∧
                  - (M + B) <= y1 <= M + B) as (y1 & -> & Hy1).
    { unfold score_step. rewrite Ha. simpl. unfold shr64.
      replace ((0 <=? j0 - 1) && (j0 - 1 <? 64)) with true
        by (symmetry; apply andb_true_iff; rewrite Z.leb_le, Z.ltb_lt; lia).
      simpl. rewrite Hrow. simpl. rewrite Hcw. simpl.
      assert (in_int (y + w) = true ∧ in_int (y - w) = true) as [H1 H2].
      { unfold in_int, INT_MIN, INT_MAX in *.
        rewrite !andb_true_iff, !Z.leb_le. nia. }
      unfold int_add, int_sub. rewrite H1, H2.
      destruct (negb _); eexists; (split; [reflexivity|lia]). }
    simpl.
    destruct (IH (j0 + 1) y1 (M + B)) as (y' & -> & Hy'); try lia.
    + intros j Hj. apply Hpath. lia.
    + assumption.
    + exists y'. split; [done|]. lia.
Qed.

(** [lookup] is defined for a valid thread when the weights are small
    enough for the two sums to stay inside [int]. *)
Lemma lookup_defined st hp tid pc B :
  world_shape st hp →
  0 <= tid < Z.of_nat (length (globalHistoryReg st)) →
  0 <= B →
  (history_length st + branchAddrBits st + 2) * B <= INT_MAX →
  weights_within B (historyWeightTable st) →
  weights_within B (addrWeightTable st) →
  is_Some (lookup st hp tid pc).
Proof.
  intros [S F Hcap M] Ht HB Hsum Wh Wa.
  destruct (thread_ok _ _ S Ht) as [[g Hg] [q Hq]].
  destruct (bucket_row_ok _ _ S (new_pc_ok st pc S)) as ([b Hb] & _ & _).
  destruct (shape_queue _ _ _ S F Hq) as [Hlen Hqok].
  pose proof (sh_lb _ S) as Hlb. pose proof (sh_hl _ S) as Hhl.
  pose proof (sh_ab _ S) as Hab.
  destruct (shape_cells st _ S (new_pc_ok st pc S)) as [Hch Hca].
  destruct (Hch 0 ltac:(lia)) as (row0 & y0 & Hrow0 & Hy0).
  destruct (Hca 0 ltac:(lia)) as (arow0 & a0 & Harow0 & Ha0).
  assert (∀ j, 1 <= j <= path_capacity st →
            ∃ a, vat q (j - 1) = Some a ∧ bucket_ok st a) as Hp.
  { intros j Hj. destruct (vat_is_Some q (j - 1) ltac:(lia)) as [a Ha].
    exists a. split; [assumption|].
    apply vat_Some in Ha as [_ Ha]. by apply (Forall_lookup_1 _ _ _ _ Hqok Ha). }
  assert (∀ a, bucket_ok st a → u32 a = a) as Hu.
  { intros a [? ?]. pose proof (sh_mask _ S). apply u32_id. lia. }
  unfold path_capacity in Hp.
  assert (- B <= y0 <= B) as Hy0b.
  { pose proof (weights_within_wget B _ (Z.land pc (pcMask st)) 0 HB Wh) as H.
    unfold wget in H. rewrite Hrow0 in H. simpl in H. by rewrite Hy0 in H. }
  assert (- B <= a0 <= B) as Ha0b.
  { pose proof (weights_within_wget B _ (Z.land pc (pcMask st)) 0 HB Wa) as H.
    unfold wget in H. rewrite Harow0 in H. simpl in H. by rewrite Ha0 in H. }
  assert (0 <= history_length st * B ∧ 0 <= branchAddrBits st * B)
    as [HhB HaB] by (split; apply Z.mul_nonneg_nonneg; lia).
  unfold lookup. rewrite Hg. simpl. rewrite Hb. simpl.
  rewrite Hrow0. simpl. rewrite Hy0. simpl. unfold shl64.
  replace ((0 <=? localHistoryBits st) && (localHistoryBits st <? 64)) with true
    by (symmetry; apply andb_true_iff; rewrite Z.leb_le, Z.ltb_lt; lia).
  simpl. rewrite Hq. simpl.
  destruct (score_loop_defined (historyWeightTable st) q
              (Z.lor (u64 (Z.shiftl (Z.land g (globalHistoryMask st))
                                    (localHistoryBits st)))
                     (Z.land (u32 b) (localMask st)))
              B (Z.to_nat (history_length st)) 1 y0 B)
    as (y_hist & -> & Hyh); try lia.
  { intros j Hj. destruct (Hp j ltac:(lia)) as (a & Ha & Hok).
    exists a. split; [assumption|]. rewrite (Hu a Hok).
    destruct (shape_cells st a S Hok) as [Hc _]. apply Hc. lia. }
  { intros r c. by apply weights_within_wget. }
  simpl. rewrite Harow0. simpl. rewrite Ha0. simpl.
  destruct (score_loop_defined (addrWeightTable st) q (Z.land pc (pcMask st))
              B (Z.to_nat (branchAddrBits st)) 1 a0 B)
    as (y_addr & -> & Hya); try lia.
  { intros j Hj. destruct (Hp j ltac:(lia)) as (a & Ha & Hok).
    exists a. split; [assumption|]. rewrite (Hu a Hok).
    destruct (shape_cells st a S Hok) as [_ Hc]. apply Hc. lia. }
  { intros r c. by apply weights_within_wget. }
  simpl.
  assert (in_int (y_addr + y_hist) = true) as Hin.
  { unfold in_int, INT_MIN, INT_MAX in *.
    rewrite andb_true_iff, !Z.leb_le. rewrite !Z2Nat.id in * by lia. lia. }
  unfold int_add. rewrite Hin. simpl. eauto.
Qed.

(** *** The shape is kept along the protocol *)

Lemma shape_weights st hw aw :
  shape st →
  length <$> hw = length <$> historyWeightTable st →
  length <$> aw = length <$> addrWeightTable st →
  shape (set_addrWeightTable (set_historyWeightTable st hw) aw).
Proof.
  intros [] Hh Ha.
  assert (length hw = length (historyWeightTable st)) as Lh
    by (by rewrite <- (length_fmap length hw), Hh, length_fmap).
  assert (length aw = length (addrWeightTable st)) as La
    by (by rewrite <- (length_fmap length aw), Ha, length_fmap).
  split; simpl; rewrite ?Lh, ?La; try assumption.
  - apply (Forall_fmap length (λ n, Z.of_nat n = history_length st + 1)).
    rewrite Hh. by apply Forall_fmap.
  - apply (Forall_fmap length (λ n, Z.of_nat n = branchAddrBits st + 1)).
    rewrite Ha. by apply Forall_fmap.
Qed.

Lemma shape_history st ghr bht ptab :
  shape st →
  length ghr = length (globalHistoryReg st) →
  length bht = length (branchHistoryTable st) →
  length ptab = length (pathTable st) →
  Forall (Forall (bucket_ok st)) ptab →
  shape (set_pathTable (set_branchHistoryTable (set_globalHistoryReg st ghr) bht)
                       ptab).
Proof.
  intros [] Lg Lb Lp Fp.
  split; simpl; rewrite ?Lg, ?Lb, ?Lp; assumption.
Qed.

Lemma snap_shape_config st st' s :
  pcMask st' = pcMask st → path_capacity st' = path_capacity st →
  snap_shape st s → snap_shape st' s.
Proof.
  intros Hm Hc [H1 H2 H3 H4]. unfold bucket_ok in *.
  split; unfold bucket_ok; rewrite ?Hm, ?Hc; assumption.
Qed.

Lemma heap_shape_config st st' (hp : Heap) :
  pcMask st' = pcMask st → path_capacity st' = path_capacity st →
  map_Forall (λ _ s, snap_shape st s) hp →
  map_Forall (λ _ s, snap_shape st' s) hp.
Proof.
  intros Hm Hc M. eapply map_Forall_impl; [exact M|].
  intros ? ?. by apply snap_shape_config.
Qed.

Lemma world_shape_lookup st hp tid pc b h st' hp' :
  world_shape st hp → lookup st hp tid pc = Some (b, h, st', hp') →
  world_shape st' hp'.
Proof.
  intros [S F Hcap M] (g & bv & q & y & _ & _ & Hq & _ & _ & -> & ->)%lookup_inv.
  destruct (shape_queue _ _ _ S F Hq) as [Hlen Hqok].
  split; try assumption.
  apply map_Forall_insert_2; [|assumption].
  split; simpl; try assumption; [|discriminate].
  pose proof (new_pc_ok st pc S) as Hok. pose proof (sh_mask _ S).
  rewrite u32_id; [assumption|]. unfold bucket_ok in Hok. lia.
Qed.

Lemma world_shape_update st hp tid pc taken h squashed h' st' hp' :
  world_shape st hp →
  update st hp tid pc taken h squashed = Some (h', st', hp') →
  world_shape st' hp'.
Proof.
  intros [S F Hcap M] (l & s & _ & _ & Ht & Hh)%update_inv.
  assert (world_shape st' hp) as [S' F' Hcap' M'].
  { destruct (fires s squashed); [|by subst].
    pose proof (train_shape _ _ _ _ _ Ht) as [Hsh Hsa].
    apply train_frame in Ht. rewrite Ht.
    split; [by apply shape_weights | exact F | exact Hcap |].
    by apply (heap_shape_config st). }
  destruct squashed; destruct Hh as [_ ->]; split; try assumption.
  by apply map_Forall_delete.
Qed.

Lemma world_shape_updateHistories st hp tid pc uncond taken h h' st' hp' :
  world_shape st hp →
  updateHistories st hp tid pc uncond taken h = Some (h', st', hp') →
  world_shape st' hp'.
Proof.
  intros [S F Hcap M] H.
  assert (run_inv st hp) as Hi.
  { split; [assumption | lia |]. intros ? ? _ _. assumption. }
  destruct (updateHistories_full _ _ _ _ _ _ _ _ _ _ Hi H) as [[F' _ _] _].
  apply updateHistories_inv in H; simpl in H.
  destruct H as (hp1 & g & b & q & q1 & Hg & Hb & Hq & H1 & H2 & ->).
  destruct (shape_queue _ _ _ S F Hq) as [Hlen Hqok].
  pose proof (new_pc_ok st pc S) as Hok. pose proof (sh_mask _ S) as Hm.
  assert (map_Forall (λ _ s, snap_shape st s) hp1) as M1.
  { destruct uncond; destruct H1 as [_ ->]; [|assumption].
    apply map_Forall_insert_2; [|assumption].
    split; simpl; try assumption; [|discriminate].
    rewrite u32_id; [assumption|]. unfold bucket_ok in Hok. lia. }
  fold (path_capacity st) in H2. rewrite Hlen, Z.eqb_refl in H2.
  destruct H2 as (l & s & back & _ & Hs & Hlast & -> & ->).
  apply removelast_last in Hlast as Hq'.
  rewrite <- Hq' in Hqok. apply Forall_app in Hqok as [Hrl Hback].
  apply Forall_inv in Hback.
  split; try assumption.
  - apply shape_history; rewrite ?length_insert; try done.
    apply Forall_insert; [by destruct S|]. by constructor.
  - apply (heap_shape_config st); [done | done |].
    apply map_Forall_insert_2; [|exact M1].
    destruct (M1 _ _ Hs) as [? ? ? ?]. split; simpl; try assumption.
    intros _. exists (u32 back). split; [done|].
    rewrite u32_id; [assumption|]. unfold bucket_ok in Hback. lia.
Qed.

Lemma world_shape_squash st hp tid h s h' st' hp' :
  world_shape st hp →
  snapshot_of hp h = Some s →
  h_branchAddrReplaced s = true →
  squash st hp tid h = Some (h', st', hp') →
  world_shape st' hp'.
Proof.
  intros [S F Hcap M] Hs Hrep H.
  assert (run_inv st hp) as Hi.
  { split; [assumption | lia |]. intros ? ? _ _. assumption. }
  destruct (run_inv_squash _ _ _ _ _ _ _ _ Hi Hs Hrep H) as [F' _ _].
  apply squash_inv in H.
  destruct H as (l & s' & q & q2 & -> & Hl & _ & _ & Hq & H2 & _ & -> & ->).
  simpl in Hs. assert (s' = s) as -> by congruence.
  rewrite Hrep in H2. destruct H2 as (a & Ha & ->).
  destruct (shape_queue _ _ _ S F Hq) as [Hlen Hqok].
  destruct (M _ _ Hl) as [_ Hev _ _].
  destruct (Hev Hrep) as (a' & Ha' & Hok).
  assert (a' = a) as -> by congruence.
  split; try assumption.
  - apply shape_history; rewrite ?length_insert; try done.
    apply Forall_insert; [by destruct S|].
    apply Forall_app. split; [|by constructor].
    destruct q; [assumption|]. by inversion Hqok.
  - apply (heap_shape_config st); [done | done |].
    by apply map_Forall_delete.
Qed.

(** From valid parameters, every world of the protocol has the shape
    under which the calls are defined. *)
Lemma protocol_world_shape p st hp :
  params_ok p → protocol_run p st hp → world_shape st hp.
Proof.
  intros Hp. induction 1;
    eauto using world_shape_new, world_shape_lookup,
                world_shape_updateHistories, world_shape_update,
                world_shape_squash.
Qed.

(** Prediction followed by advance is defined in every world of the
    protocol: the premises of the round-trip hold whenever the thread is
    valid and the weights are small. *)
Lemma predict_advance_defined p st hp tid pc uncond taken B :
  params_ok p → protocol_run p st hp →
  0 <= tid < Z.of_nat (length (globalHistoryReg st)) →
  0 <= B →
  (history_length st + branchAddrBits st + 2) * B <= INT_MAX →
  weights_within B (historyWeightTable st) →
  weights_within B (addrWeightTable st) →
  ∃ b h hp1 h2 st2 hp2,
    lookup st hp tid pc = Some (b, h, st, hp1) ∧
    updateHistories st hp1 tid pc uncond taken h = Some (h2, st2, hp2) ∧
    is_Some (squash st2 hp2 tid h2).
Proof.
  intros Hp Hrun Ht HB Hsum Wh Wa.
  pose proof (protocol_world_shape _ _ _ Hp Hrun) as Hw.
  destruct (lookup_defined st hp tid pc B Hw Ht HB Hsum Wh Wa)
    as [[[[b h] st1] hp1] Hlk].
  pose proof (world_shape_lookup _ _ _ _ _ _ _ _ Hw Hlk) as Hw1.
  pose proof (lookup_inv _ _ _ _ _ _ _ _ Hlk)
    as (g & bv & q & y & _ & _ & _ & _ & Eh & Est & Ehp).
  subst st1.
  destruct (updateHistories_defined st hp1 tid pc uncond taken h Hw1 Ht)
    as [[[h2 st2] hp2] Hadv].
  { right. subst h hp1. simpl. rewrite lookup_insert_eq. eauto. }
  pose proof (world_shape_updateHistories _ _ _ _ _ _ _ _ _ _ Hw1 Hadv) as Hw2.
  exists b, h, hp1, h2, st2, hp2. split; [assumption|]. split; [assumption|].
  assert (run_inv st hp1) as Hi.
  { destruct Hw1. split; [assumption | lia |]. intros ? ? _ _. assumption. }
  destruct (updateHistories_full _ _ _ _ _ _ _ _ _ _ Hi Hadv)
    as [_ (l & s & _ & _ & -> & Hl & _)].
  apply squash_defined; [assumption| |simpl; rewrite Hl; eauto].
  apply updateHistories_inv in Hadv
    as (? & ? & ? & ? & ? & _ & _ & _ & _ & _ & ->).
  simpl. rewrite length_insert. lia.
Qed.

(** ** The claims at the concrete world *)

Lemma w_reachable : reachable w_p w_st w_hp.
Proof.
  pose proof (reach_new w_p w_st0 eq_refl) as R.
  eapply (reach_lookup _ _ _ 0 1) in R; [|vm_compute; reflexivity].
  eapply (reach_updateHistories _ _ _ 0 1 false true (Some 1%positive)) in R;
    [|vm_compute; reflexivity].
  eapply (reach_update _ _ _ 0 1 true (Some 1%positive) false) in R;
    [|vm_compute; reflexivity].
  eapply (reach_lookup _ _ _ 0 2) in R; [|vm_compute; reflexivity].
  eapply (reach_updateHistories _ _ _ 0 2 false true (Some 1%positive)) in R;
    [|vm_compute; reflexivity].
  eapply (reach_update _ _ _ 0 2 false (Some 1%positive) true) in R;
    [|vm_compute; reflexivity].
  eapply (reach_lookup _ _ _ 0 3) in R; [|vm_compute; reflexivity].
  eapply (reach_updateHistories _ _ _ 0 3 false true (Some 2%positive)) in R;
    [|vm_compute; reflexivity].
  exact R.
Defined.

Lemma w_protocol_run : protocol_run w_p w_st w_hp.
Proof.
  pose proof (run_new w_p w_st0 eq_refl) as R.
  eapply (run_lookup _ _ _ 0 1) in R; [|vm_compute; reflexivity].
  eapply (run_updateHistories _ _ _ 0 1 false true (Some 1%positive)) in R;
    [|vm_compute; reflexivity].
  eapply (run_update _ _ _ 0 1 true (Some 1%positive) false) in R;
    [|vm_compute; reflexivity].
  eapply (run_lookup _ _ _ 0 2) in R; [|vm_compute; reflexivity].
  eapply (run_updateHistories _ _ _ 0 2 false true (Some 1%positive)) in R;
    [|vm_compute; reflexivity].
  eapply (run_update _ _ _ 0 2 false (Some 1%positive) true) in R;
    [|vm_compute; reflexivity].
  eapply (run_lookup _ _ _ 0 3) in R; [|vm_compute; reflexivity].
  eapply (run_updateHistories _ _ _ 0 3 false true (Some 2%positive)) in R;
    [|vm_compute; reflexivity].
  exact R.
Defined.

Lemma squash_restores_advance_witness :
  ∃ b h st1 hp1 h2 st2 hp2,
    lookup w_st w_hp 0 1 = Some (b, h, st1, hp1) ∧
    updateHistories st1 hp1 0 1 false false h = Some (h2, st2, hp2) ∧
    ∃ st3 hp3,
      squash st2 hp2 0 h2 = Some (None, st3, hp3) ∧
      vat (globalHistoryReg st3) 0 = vat (globalHistoryReg st1) 0 ∧
      vat (branchHistoryTable st3) (Z.land 1 (pcMask st1)) =
        vat (branchHistoryTable st1) (Z.land 1 (pcMask st1)) ∧
      vat (pathTable st3) 0 = vat (pathTable st1) 0 ∧
      st3 = st1.
Proof.
  do 7 eexists. split; [vm_compute; reflexivity|].
  split; [vm_compute; reflexivity|].
  eapply (squash_restores_advance w_p w_st w_hp 0 1 _ _ _ _ false false);
    [exact w_reachable | vm_compute; reflexivity | vm_compute; reflexivity].
Defined.

Lemma squash_youngest_keeps_older_witness :
  ∃ bA hA st1 hp1 hA' stA hpA bB hB st2 hp2 hB' stB hpB,
    lookup w_st w_hp 0 1 = Some (bA, hA, st1, hp1) ∧
    updateHistories st1 hp1 0 1 false true hA = Some (hA', stA, hpA) ∧
    lookup stA hpA 0 2 = Some (bB, hB, st2, hp2) ∧
    updateHistories st2 hp2 0 2 false false hB = Some (hB', stB, hpB) ∧
    ∃ st3 hp3,
      squash stB hpB 0 hB' = Some (None, st3, hp3) ∧
      is_Some (snapshot_of hpA hA') ∧
      snapshot_of hp3 hA' = snapshot_of hpA hA' ∧
      historyWeightTable st3 = historyWeightTable stB ∧
      addrWeightTable st3 = addrWeightTable stB ∧
      historyWeightTable st3 = historyWeightTable stA ∧
      addrWeightTable st3 = addrWeightTable stA ∧
      vat (globalHistoryReg st3) 0 = vat (globalHistoryReg stA) 0 ∧
      vat (pathTable st3) 0 = vat (pathTable stA) 0 ∧
      st3 = stA.
Proof.
  do 14 eexists. split; [vm_compute; reflexivity|].
  split; [vm_compute; reflexivity|].
  split; [vm_compute; reflexivity|].
  split; [vm_compute; reflexivity|].
  eapply (squash_youngest_keeps_older w_p w_st w_hp 0 1 2
            _ _ _ _ false true _ _ _ _ _ _ _ false false);
    [exact w_reachable | vm_compute; reflexivity | vm_compute; reflexivity
    | vm_compute; reflexivity | vm_compute; reflexivity].
Defined.

Lemma saturation_policy_witness :
  (∃ h' st' hp',
     update w_st w_hp_sat 0 3 true (Some 1%positive) false
       = Some (h', st', hp') ∧
     historyWeightTable st' = historyWeightTable w_st ∧
     addrWeightTable st' = addrWeightTable w_st) ∧
  (∃ h' st' hp',
     update w_st w_hp 0 3 true (Some 2%positive) false
       = Some (h', st', hp') ∧
     wget (historyWeightTable st') 3 0 = wget (historyWeightTable w_st) 3 0 + 1 ∧
     wget (addrWeightTable st') 3 0 = wget (addrWeightTable w_st) 3 0 + 1).
Proof.
  split.
  - do 3 eexists. split; [vm_compute; reflexivity|].
    eapply (saturation_policy w_st w_hp_sat 0 3 true (Some 1%positive) false
              w_snap_sat);
      [vm_compute; reflexivity | vm_compute; reflexivity | reflexivity
      | vm_compute; reflexivity].
  - do 3 eexists. split; [vm_compute; reflexivity|].
    pose proof (saturation_policy w_st w_hp 0 3 true (Some 2%positive) false
                  w_snap2 _ _ _ eq_refl eq_refl) as [_ H].
    destruct H as (Hh & Ha & _); [right; simpl; lia|].
    split; [exact Hh | exact Ha].
Defined.

Lemma prediction_rule_witness :
  ∃ b h st' hp',
    lookup w_st w_hp 0 1 = Some (b, h, st', hp') ∧
    (b = true ↔ 0 <= spec_y_total w_st 0 1) ∧
    h_last_y <$> snapshot_of hp' h = Some (spec_y_total w_st 0 1).
Proof.
  do 4 eexists. split; [vm_compute; reflexivity|].
  eapply (prediction_rule w_p w_st w_hp 0 1);
    [exact w_reachable | simpl; lia | vm_compute; reflexivity].
Defined.

Lemma lookup_read_only_witness :
  ∃ b h st' hp' b2 h2 st2 hp2',
    lookup w_st w_hp 0 1 = Some (b, h, st', hp') ∧
    lookup w_st ∅ 0 1 = Some (b2, h2, st2, hp2') ∧
    st' = w_st ∧ b2 = b ∧ snapshot_of hp2' h2 = snapshot_of hp' h.
Proof.
  do 8 eexists. split; [vm_compute; reflexivity|].
  split; [vm_compute; reflexivity|].
  pose proof (lookup_read_only w_st w_hp ∅ 0 1 _ _ _ _ _ _ _ _
                eq_refl eq_refl)
    as (H1 & _ & _ & _ & _ & _ & _ & H2 & _ & H3).
  split; [exact H1|]. split; [exact H2 | exact H3].
Defined.

Lemma training_moves_by_one_witness :
  ∃ h' st' hp',
    update w_st w_hp 0 3 true (Some 2%positive) false = Some (h', st', hp') ∧
    l1_table (historyWeightTable w_st) (historyWeightTable st')
    + l1_table (addrWeightTable w_st) (addrWeightTable st')
    <= history_length w_st + branchAddrBits w_st + 2.
Proof.
  do 3 eexists. split; [vm_compute; reflexivity|].
  eapply (training_moves_by_one w_p w_st w_hp 0 3 true (Some 2%positive)
            false w_snap2);
    [exact w_reachable | vm_compute; reflexivity | vm_compute; reflexivity
    | vm_compute; reflexivity].
Defined.

Lemma training_reads_only_snapshot_witness :
  ∃ h' st' hp',
    update w_st w_hp 0 3 true (Some 2%positive) false = Some (h', st', hp') ∧
    weights_after
      (update (with_history w_st [0] [0; 0; 0; 0] [[0; 0; 0; 0]]) w_hp_sat 0 3
              true (Some 1%positive) true)
    = weights_after
        (update (with_history w_st [2] [3; 2; 1; 0] [[1; 1; 1; 1]]) w_hp 0 3
                true (Some 2%positive) true).
Proof.
  do 3 eexists. split; [vm_compute; reflexivity|].
  pose proof (training_reads_only_snapshot w_p w_st w_hp 0 3 true
                2%positive true w_snap2 _ _ _ w_reachable eq_refl eq_refl
                eq_refl) as (_ & _ & H).
  rewrite (H [2] [3; 2; 1; 0] [[1; 1; 1; 1]] w_hp 0 2%positive eq_refl).
  vm_compute. reflexivity.
Defined.

Lemma snapshot_disposal_witness :
  ∃ hu stu hpu hs sts hps,
    update w_st w_hp 0 3 true (Some 2%positive) false = Some (hu, stu, hpu) ∧
    squash w_st w_hp 0 (Some 2%positive) = Some (hs, sts, hps) ∧
    hu = None ∧ hpu !! 2%positive = None ∧
    hs = None ∧ hps !! 2%positive = None.
Proof.
  do 6 eexists. split; [vm_compute; reflexivity|].
  split; [vm_compute; reflexivity|].
  pose proof (snapshot_disposal w_st w_hp 0 3 true (Some 2%positive) false
                _ _ _ w_st w_hp 0 (Some 2%positive) _ _ _ eq_refl eq_refl)
    as [(l & [= <-] & _ & Hn & Hd & _) (l' & [= <-] & _ & Hs & _ & Hps)].
  destruct (Hd eq_refl) as [_ Hpu].
  split; [by apply Hn|]. split; [exact Hpu|]. split; [exact Hs | exact Hps].
Defined.

Lemma path_queue_stays_full_witness :
  path_full w_st ∧
  ∃ h' st' hp' l s,
    updateHistories w_st w_hp 0 1 true false None = Some (h', st', hp') ∧
    h' = Some l ∧ hp' !! l = Some s ∧ h_branchAddrReplaced s = true ∧
    path_full st'.
Proof.
  destruct (path_queue_stays_full w_p w_st w_hp w_protocol_run)
    as (_ & Hfull & _ & _ & _ & Hadv).
  split; [exact Hfull|].
  destruct (Hadv 0 1 true false None _ _ _ eq_refl)
    as (Hf & l & s & q & back & Hh & Hl & Hrep & _).
  do 5 eexists. split; [reflexivity|]. eauto.
Defined.

Lemma update_keeps_history_witness :
  ∃ h' st' hp',
    update w_st w_hp 0 3 true (Some 2%positive) true = Some (h', st', hp') ∧
    globalHistoryReg st' = globalHistoryReg w_st ∧
    branchHistoryTable st' = branchHistoryTable w_st ∧
    pathTable st' = pathTable w_st ∧
    hp' = w_hp.
Proof.
  do 3 eexists. split; [vm_compute; reflexivity|].
  pose proof (update_keeps_history w_st w_hp 0 3 true (Some 2%positive) true
                _ _ _ eq_refl)
    as (H1 & H2 & H3 & _ & _ & l & _ & H4).
  split; [exact H1|]. split; [exact H2|]. split; [exact H3 | exact H4].
Defined.

(** * Further properties of the code *)

(** ** The masks of the constructor *)

Lemma makeMask_ones bits : 0 <= bits → makeMask bits = Z.ones (Z.min bits 64).
Proof.
  intros Hb. unfold makeMask.
  destruct (bits =? 0) eqn:E0; [apply Z.eqb_eq in E0; by subst|].
  destruct (64 <=? bits) eqn:E64.
  - apply Z.leb_le in E64. by rewrite Z.min_r by lia.
  - apply Z.leb_gt in E64. rewrite Z.min_l by lia.
    rewrite Z.shiftl_1_l, Z.ones_equiv. lia.
Qed.

(** X1 (masks).  The lambda [makeMask] returns the [Addr] with exactly the
    low [min bits 64] bits set; stored in the 32-bit members of the
    object, the three masks keep exactly the low [min width 32] bits of a
    value, so a width of 0 gives 0 and a width of 32 or more keeps a whole
    32-bit register. *)
Theorem stored_masks_keep_low_bits p st x :
  PerceptronBP_new p = Some st →
  makeMask (globalHistoryBits st) = Z.ones (Z.min (globalHistoryBits st) 64) ∧
  makeMask (localHistoryBits st) = Z.ones (Z.min (localHistoryBits st) 64) ∧
  makeMask (branchAddrBits st) = Z.ones (Z.min (branchAddrBits st) 64) ∧
  Z.land x (globalHistoryMask st) = x mod 2 ^ Z.min (globalHistoryBits st) 32 ∧
  Z.land x (localMask st) = x mod 2 ^ Z.min (localHistoryBits st) 32 ∧
  Z.land x (pcMask st) = x mod 2 ^ Z.min (branchAddrBits st) 32.
Proof.
  intros H. apply inv_new in H as [C _ _ _].
  pose proof (u32_range (p_globalHistoryBits p)) as Rg.
  pose proof (u32_range (p_localHistoryBits p)) as Rl.
  pose proof (u32_range (p_branchAddrBits p)) as Ra.
  rewrite <- (cfg_gb _ _ C) in Rg. rewrite <- (cfg_lb _ _ C) in Rl.
  rewrite <- (cfg_ab _ _ C) in Ra.
  rewrite (cfg_gmask _ _ C), (cfg_lmask _ _ C), (cfg_pcmask _ _ C).
  rewrite !mask32_ones, !makeMask_ones by lia.
  rewrite !Z.land_ones by lia. done.
Qed.

(** ** The shift registers of [updateHistories] *)

Lemma b2z_bit taken i : 0 <= i → Z.testbit (b2z taken) i = (i =? 0) && taken.
Proof.
  intros Hi. destruct taken; simpl.
  - destruct (Z.eq_dec i 0) as [->|Hne]; [done|].
    replace (i =? 0) with false by (symmetry; by apply Z.eqb_neq).
    change 1 with (Z.ones 1). rewrite Z.testbit_ones_nonneg by lia.
    apply Z.ltb_ge. lia.
  - by rewrite Z.bits_0, andb_false_r.
Qed.

Lemma s32_bit x i : 0 <= i < 32 → Z.testbit (s32 x) i = Z.testbit x i.
Proof.
  intros Hi. rewrite <- (Z.mod_pow2_bits_low (s32 x) 32 i) by lia.
  fold (u32 (s32 x)). rewrite u32_s32. unfold u32.
  by rewrite Z.mod_pow2_bits_low by lia.
Qed.

Lemma s32_id x : - 2 ^ 31 <= x < 2 ^ 31 → s32 x = x.
Proof. intros Hx. unfold s32. rewrite Z.mod_small; lia. Qed.

Lemma u32_bit x i : 0 <= i < 32 → Z.testbit (u32 x) i = Z.testbit x i.
Proof. intros Hi. unfold u32. by rewrite Z.mod_pow2_bits_low by lia. Qed.

Lemma shift_in_bit x taken i :
  0 <= i →
  Z.testbit (Z.lor (Z.shiftl x 1) (b2z taken)) i =
  if i =? 0 then taken else Z.testbit x (i - 1).
Proof.
  intros Hi. rewrite Z.lor_spec, Z.shiftl_spec, b2z_bit by lia.
  destruct (Z.eq_dec i 0) as [->|Hne].
  - by rewrite Z.testbit_neg_r by lia.
  - replace (i =? 0) with false by (symmetry; by apply Z.eqb_neq).
    simpl. by rewrite orb_false_r.
Qed.

(** X2 (global history is a shift register).  With at most 32 global
    history bits, [updateHistories] puts the outcome in bit 0 of the
    register of the thread, moves every old bit one place up, and clears
    all bits from the configured width on. *)
Theorem advance_shifts_global p st hp tid pc uncond taken h h' st' hp' g g' :
  reachable p st hp →
  globalHistoryBits st <= 32 →
  updateHistories st hp tid pc uncond taken h = Some (h', st', hp') →
  vat (globalHistoryReg st) tid = Some g →
  vat (globalHistoryReg st') tid = Some g' →
  (0 < globalHistoryBits st → Z.testbit g' 0 = taken) ∧
  (∀ i, 0 <= i → i + 1 < globalHistoryBits st →
        Z.testbit g' (i + 1) = Z.testbit g i) ∧
  (∀ i, globalHistoryBits st <= i → Z.testbit g' i = false) ∧
  0 <= g' < 2 ^ globalHistoryBits st.
Proof.
  intros Hr Hgb Hadv Hg Hg'.
  apply reachable_inv in Hr as [C _ _ _].
  pose proof (u32_range (p_globalHistoryBits p)) as Rg.
  rewrite <- (cfg_gb _ _ C) in Rg.
  apply updateHistories_inv in Hadv
    as (hp1 & g0 & b & q & q1 & Hg0 & _ & _ & _ & _ & ->).
  simpl in Hg'. rewrite (vat_insert_eq _ _ _ _ Hg0) in Hg'.
  injection Hg' as <-. assert (g0 = g) as -> by congruence.
  unfold shift_global.
  rewrite (cfg_gmask _ _ C), mask32_ones, Z.min_l by lia.
  assert (∀ i, 0 <= i →
            Z.testbit (Z.land (Z.lor (u32 (Z.shiftl g 1)) (b2z taken))
                              (Z.ones (globalHistoryBits st))) i =
            (if i =? 0 then taken else Z.testbit g (i - 1))
            && (i <? globalHistoryBits st)) as Hbit.
  { intros i Hi. rewrite Z.land_spec, Z.testbit_ones_nonneg by lia.
    destruct (i <? globalHistoryBits st) eqn:E; [|by rewrite !andb_false_r].
    apply Z.ltb_lt in E. rewrite !andb_true_r.
    rewrite <- shift_in_bit by lia.
    rewrite !Z.lor_spec. by rewrite u32_bit by lia. }
  split; [|split; [|split]].
  - intros Hpos. rewrite Hbit by lia. simpl.
    replace (0 <? globalHistoryBits st) with true
      by (symmetry; apply Z.ltb_lt; lia).
    apply andb_true_r.
  - intros i Hi Hlt. rewrite Hbit by lia.
    replace (i + 1 =? 0) with false by (symmetry; apply Z.eqb_neq; lia).
    replace (i + 1 - 1) with i by lia.
    replace (i + 1 <? globalHistoryBits st) with true
      by (symmetry; apply Z.ltb_lt; lia).
    apply andb_true_r.
  - intros i Hi. rewrite Hbit by lia.
    replace (i <? globalHistoryBits st) with false
      by (symmetry; apply Z.ltb_ge; lia).
    apply andb_false_r.
  - rewrite Z.land_ones by lia. apply Z.mod_pos_bound.
    apply Z.pow_pos_nonneg; lia.
Qed.

(** X3 (local history is a shift register).  With at most 32 local
    history bits, [updateHistories] puts the outcome in bit 0 of the
    register of the bucket and moves the old bits below the width one
    place up; with at most 31 bits the stored [int] is the non-negative
    number below [2 ^ localHistoryBits] with those bits. *)
Theorem advance_shifts_local p st hp tid pc uncond taken h h' st' hp' b b' :
  reachable p st hp →
  localHistoryBits st <= 32 →
  updateHistories st hp tid pc uncond taken h = Some (h', st', hp') →
  vat (branchHistoryTable st) (Z.land pc (pcMask st)) = Some b →
  vat (branchHistoryTable st') (Z.land pc (pcMask st)) = Some b' →
  (0 < localHistoryBits st → Z.testbit b' 0 = taken) ∧
  (∀ i, 0 <= i → i + 1 < localHistoryBits st →
        Z.testbit b' (i + 1) = Z.testbit b i) ∧
  (localHistoryBits st <= 31 → 0 <= b' < 2 ^ localHistoryBits st).
Proof.
  intros Hr Hlb Hadv Hb Hb'.
  apply reachable_inv in Hr as [C _ _ _].
  pose proof (u32_range (p_localHistoryBits p)) as Rl.
  rewrite <- (cfg_lb _ _ C) in Rl.
  apply updateHistories_inv in Hadv
    as (hp1 & g & b0 & q & q1 & _ & Hb0 & _ & _ & _ & ->).
  simpl in Hb'. rewrite (vat_insert_eq _ _ _ _ Hb0) in Hb'.
  injection Hb' as <-. assert (b0 = b) as -> by congruence.
  unfold shift_local.
  rewrite (cfg_lmask _ _ C), mask32_ones, Z.min_l by lia.
  assert (∀ i, 0 <= i < localHistoryBits st →
            Z.testbit
              (s32 (Z.land (u32 (Z.lor (s32 (Z.shiftl b 1)) (b2z taken)))
                           (Z.ones (localHistoryBits st)))) i =
            if i =? 0 then taken else Z.testbit b (i - 1)) as Hbit.
  { intros i Hi. rewrite s32_bit by lia.
    rewrite Z.land_spec, Z.testbit_ones_nonneg by lia.
    replace (i <? localHistoryBits st) with true
      by (symmetry; apply Z.ltb_lt; lia).
    rewrite andb_true_r, u32_bit by lia.
    rewrite <- shift_in_bit by lia.
    rewrite !Z.lor_spec. by rewrite s32_bit by lia. }
  split; [|split].
  - intros Hpos. by rewrite Hbit by lia.
  - intros i Hi Hlt. rewrite Hbit by lia.
    replace (i + 1 =? 0) with false by (symmetry; apply Z.eqb_neq; lia).
    f_equal. lia.
  - intros H31.
    assert (0 < 2 ^ localHistoryBits st) by (apply Z.pow_pos_nonneg; lia).
    assert (2 ^ localHistoryBits st <= 2 ^ 31)
      by (apply Z.pow_le_mono_r; lia).
    rewrite Z.land_ones by lia.
    pose proof (Z.mod_pos_bound
                  (u32 (Z.lor (s32 (Z.shiftl b 1)) (b2z taken)))
                  (2 ^ localHistoryBits st) ltac:(lia)) as Hm.
    rewrite s32_id; lia.
Qed.

(** ** The registers stay under their masks *)

Lemma config_gmask p st :
  config_of p st → ∃ k, 0 <= k <= 32 ∧ globalHistoryMask st = Z.ones k.
Proof.
  intros C. exists (Z.min (globalHistoryBits st) 32).
  pose proof (u32_range (p_globalHistoryBits p)).
  rewrite (cfg_gmask _ _ C), (cfg_gb _ _ C).
  split; [lia | apply mask32_ones; lia].
Qed.

Lemma reachable_reg_inv p st hp : reachable p st hp → reg_inv st hp.
Proof.
  induction 1 as [st Hnew
                 |st hp tid pc b h st' hp' Hr IH Hlk
                 |st hp tid pc uncond taken h h' st' hp' Hr IH Hadv
                 |st hp tid pc taken h squashed h' st' hp' Hr IH Hup
                 |st hp tid h h' st' hp' Hr IH Hsq].
  - pose proof (inv_new _ _ Hnew) as [C _ _ _].
    destruct (config_gmask _ _ C) as (k & Hk & Hm).
    pose proof (ones_range k Hk).
    unfold PerceptronBP_new in Hnew.
    apply bind_Some in Hnew as (rows & _ & Hnew). injection Hnew as <-.
    split; [|apply map_Forall_empty]. simpl in *.
    apply Forall_replicate. lia.
  - destruct IH as [G M].
    apply lookup_inv in Hlk
      as (g & bv & path & y & [_ Hg]%vat_Some & _ & _ & _ & _ & -> & ->).
    split; [assumption|].
    apply map_Forall_insert_2; [|assumption]. simpl.
    by apply (Forall_lookup_1 _ _ _ _ G Hg).
  - destruct IH as [G M]. apply reachable_inv in Hr as [C _ _ _].
    destruct (config_gmask _ _ C) as (k & Hk & Hm).
    apply updateHistories_inv in Hadv; simpl in Hadv.
    destruct Hadv as (hp1 & g & b & q & q1 & Hg & _ & _ & H1 & H2 & ->).
    assert (0 <= g <= globalHistoryMask st) as Hgb.
    { apply vat_Some in Hg as [_ Hg]. by apply (Forall_lookup_1 _ _ _ _ G Hg). }
    assert (map_Forall
              (λ _ s, 0 <= h_globalHistoryReg s <= globalHistoryMask st) hp1)
      as M1.
    { destruct uncond; destruct H1 as [_ ->]; [|assumption].
      by apply map_Forall_insert_2. }
    split; simpl.
    + apply Forall_insert; [assumption|]. unfold shift_global.
      rewrite Hm. by apply land_ones_range.
    + destruct (_ =? _).
      * destruct H2 as (l & s & back & _ & Hs & _ & _ & ->).
        apply map_Forall_insert_2; [|assumption]. simpl. by apply (M1 _ _ Hs).
      * by destruct H2 as [_ ->].
  - destruct IH as [G M].
    apply update_inv in Hup as (l & s & _ & _ & Ht & Hh).
    assert (reg_inv st' hp) as [G' M'].
    { destruct (fires s squashed); [|by subst].
      apply train_frame in Ht. rewrite Ht. by split. }
    destruct squashed; destruct Hh as [_ ->]; split; try assumption.
    by apply map_Forall_delete.
  - destruct IH as [G M].
    apply squash_inv in Hsq
      as (l & s & q & q2 & _ & Hs & _ & _ & _ & _ & _ & -> & ->).
    split; simpl.
    + apply Forall_insert; [assumption|]. by apply (M _ _ Hs).
    + by apply map_Forall_delete.
Qed.

Lemma masked_bound k b :
  0 <= k <= 31 → masked (Z.ones k) b → 0 <= b <= Z.ones k.
Proof.
  intros Hk Hb. unfold masked in Hb.
  pose proof (land_ones_range (u32 b) k ltac:(lia)) as Hl.
  assert (Z.ones k < 2 ^ 31).
  { rewrite Z.ones_equiv.
    assert (2 ^ k <= 2 ^ 31) by (apply Z.pow_le_mono_r; lia). lia. }
  rewrite s32_id in Hb by lia. lia.
Qed.

(** X4 (registers stay under their masks).  In every reachable world each
    global history register, and the global history kept in each live
    snapshot, lies between 0 and the global mask; with at most 31 local
    history bits the same holds for every local history register and the
    local history of each snapshot under the local mask. *)
Theorem registers_within_masks p st hp :
  reachable p st hp →
  Forall (λ g, 0 <= g <= globalHistoryMask st) (globalHistoryReg st) ∧
  map_Forall (λ _ s, 0 <= h_globalHistoryReg s <= globalHistoryMask st) hp ∧
  (localHistoryBits st <= 31 →
     Forall (λ b, 0 <= b <= localMask st) (branchHistoryTable st) ∧
     map_Forall (λ _ s, 0 <= h_local s <= localMask st) hp).
Proof.
  intros Hr. destruct (reachable_reg_inv _ _ _ Hr) as [G M].
  split; [assumption|]. split; [assumption|]. intros Hlb.
  apply reachable_inv in Hr as [C B _ Mh].
  pose proof (u32_range (p_localHistoryBits p)) as Rl.
  rewrite <- (cfg_lb _ _ C) in Rl.
  assert (localMask st = Z.ones (localHistoryBits st)) as Hm.
  { rewrite (cfg_lmask _ _ C), mask32_ones by lia. f_equal. lia. }
  rewrite Hm in *. split.
  - eapply Forall_impl; [exact B|]. intros b. apply masked_bound. lia.
  - eapply map_Forall_impl; [exact Mh|]. intros l s [Hl _ _].
    revert Hl. apply masked_bound. lia.
Qed.

(** ** What [updateHistories] and [squash] leave alone *)

(** X5 (frame of [updateHistories] and [squash]).  Both calls write one
    global history register (of the thread), one local history register
    (of the bucket) and one path queue (of the thread): the registers and
    queues of every other thread, the local history of every other
    bucket, both weight tables and the constructor-written members are
    left as they were. *)
Theorem history_calls_frame st hp tid pc uncond taken h ha sta hpa
    st2 hp2 tid2 h2 s hs sts hps :
  updateHistories st hp tid pc uncond taken h = Some (ha, sta, hpa) →
  snapshot_of hp2 h2 = Some s →
  squash st2 hp2 tid2 h2 = Some (hs, sts, hps) →
  ((∀ t, t ≠ tid →
      vat (globalHistoryReg sta) t = vat (globalHistoryReg st) t ∧
      vat (pathTable sta) t = vat (pathTable st) t) ∧
   (∀ a, a ≠ Z.land pc (pcMask st) →
      vat (branchHistoryTable sta) a = vat (branchHistoryTable st) a) ∧
   weights sta = weights st ∧ same_config st sta) ∧
  ((∀ t, t ≠ tid2 →
      vat (globalHistoryReg sts) t = vat (globalHistoryReg st2) t ∧
      vat (pathTable sts) t = vat (pathTable st2) t) ∧
   (∀ a, a ≠ h_new_pc s →
      vat (branchHistoryTable sts) a = vat (branchHistoryTable st2) a) ∧
   weights sts = weights st2 ∧ same_config st2 sts).
Proof.
  intros Hadv Hs Hsq. split.
  - apply updateHistories_inv in Hadv
      as (hp1 & g & b & q & q1 & Hg & Hb & Hq & _ & _ & ->).
    simpl. split; [|split; [|split]]; try done.
    + intros t Ht. split.
      * eapply vat_vset_ne; [apply vset_is_Some; by eapply vat_lt | done].
      * eapply vat_vset_ne; [apply vset_is_Some; by eapply vat_lt | done].
    + intros a Ha.
      eapply vat_vset_ne; [apply vset_is_Some; by eapply vat_lt|].
      by apply not_eq_sym.
  - apply squash_inv in Hsq
      as (l & s' & q & q2 & -> & Hl & Ht & Hn & Hq & _ & _ & _ & ->).
    simpl in Hs. assert (s' = s) as -> by congruence.
    simpl. split; [|split; [|split]]; try done.
    + intros t Hne. split.
      * eapply vat_vset_ne; [by apply vset_is_Some | done].
      * eapply vat_vset_ne; [apply vset_is_Some; by eapply vat_lt | done].
    + intros a Ha.
      eapply vat_vset_ne; [by apply vset_is_Some|]. by apply not_eq_sym.
Qed.

(** ** Unconditional branches *)

(** X6 (an unconditional advance makes its own snapshot).  With [uncond]
    set, [updateHistories] ignores the handle it is given: it allocates a
    snapshot of the state before the advance (the global register of the
    thread, the masked local register of the bucket, the path queue, the
    bucket) with score 0, so a later [update] on it always trains; every
    record that was live, the one behind the incoming handle included,
    stays on the heap. *)
Theorem uncond_advance_snapshot st hp tid pc taken h h' st' hp' :
  updateHistories st hp tid pc true taken h = Some (h', st', hp') →
  (∀ h0, updateHistories st hp tid pc true taken h0 = Some (h', st', hp')) ∧
  hp !! fresh (dom hp) = None ∧
  h' = Some (fresh (dom hp)) ∧
  (∀ l s, hp !! l = Some s → hp' !! l = Some s) ∧
  ∃ s g b q,
    snapshot_of hp' h' = Some s ∧
    vat (globalHistoryReg st) tid = Some g ∧
    vat (branchHistoryTable st) (Z.land pc (pcMask st)) = Some b ∧
    vat (pathTable st) tid = Some q ∧
    h_globalHistoryReg s = g ∧
    h_local s = s32 (Z.land (u32 b) (localMask st)) ∧
    h_path s = q ∧
    h_new_pc s = u32 (Z.land pc (pcMask st)) ∧
    h_last_y s = 0 ∧
    ∀ squashed, fires s squashed = true.
Proof.
  intros H.
  assert (hp !! fresh (dom hp) = None) as Hfresh
    by apply not_elem_of_dom, is_fresh.
  split; [intros h0; rewrite <- H; reflexivity|].
  split; [assumption|].
  apply updateHistories_inv in H; simpl in H.
  destruct H as (hp1 & g & b & q & q1 & Hg & Hb & Hq & [-> ->] & H2 & ->).
  split; [done|].
  assert (∀ l s, hp !! l = Some s → l ≠ fresh (dom hp)) as Hne.
  { intros l s Hl ->. congruence. }
  destruct (_ =? _).
  - destruct H2 as (l & s & back & [= <-] & Hs & _ & _ & ->).
    rewrite lookup_insert_eq in Hs. injection Hs as <-. split.
    + intros l s Hl. rewrite !lookup_insert_ne; [done|..];
        apply not_eq_sym; by eapply Hne.
    + eexists _, g, b, q. simpl. rewrite lookup_insert_eq.
      repeat split; try done. intros sq. unfold fires. simpl.
      apply orb_true_r.
  - destruct H2 as [_ ->]. split.
    + intros l s Hl. rewrite lookup_insert_ne; [done|].
      apply not_eq_sym; by eapply Hne.
    + eexists _, g, b, q. simpl. rewrite lookup_insert_eq.
      repeat split; try done. intros sq. unfold fires. simpl.
      apply orb_true_r.
Qed.

(** ** Handles after disposal *)

(** X7 (a disposed snapshot cannot be used again).  After [update] with
    [squashed] false, and after [squash], the record is gone from the
    heap and the handle that comes back is null: a further [update] or
    [squash], through the handle that was passed or through the one that
    came back, on any object, has no defined behaviour. *)
Theorem disposed_handle_is_dead st hp tid pc taken h hu stu hpu
    st2 hp2 tid2 h2 hs sts hps :
  update st hp tid pc taken h false = Some (hu, stu, hpu) →
  squash st2 hp2 tid2 h2 = Some (hs, sts, hps) →
  (∀ st3 tid3 pc3 taken3 squashed3,
     update st3 hpu tid3 pc3 taken3 h squashed3 = None ∧
     update st3 hpu tid3 pc3 taken3 hu squashed3 = None ∧
     squash st3 hpu tid3 h = None ∧
     squash st3 hpu tid3 hu = None) ∧
  (∀ st3 tid3 pc3 taken3 squashed3,
     update st3 hps tid3 pc3 taken3 h2 squashed3 = None ∧
     update st3 hps tid3 pc3 taken3 hs squashed3 = None ∧
     squash st3 hps tid3 h2 = None ∧
     squash st3 hps tid3 hs = None).
Proof.
  intros (l & s & -> & _ & _ & [-> ->])%update_inv
         (l2 & s2 & _ & _ & -> & _ & _ & _ & _ & _ & -> & -> & _)%squash_inv.
  split; intros st3 tid3 pc3 taken3 squashed3; unfold update, squash; simpl;
    rewrite lookup_delete_eq; done.
Qed.

(** ** How squashes compose *)

(** Prediction, advance and squash of one branch, with what happens to
    the heap: the record of the branch sits at an address that was free,
    and the records that were live stay. *)
Lemma predict_advance_squash p st hp tid pc b h st1 hp1 uncond taken
    h2 st2 hp2 :
  inv p st hp →
  lookup st hp tid pc = Some (b, h, st1, hp1) →
  updateHistories st1 hp1 tid pc uncond taken h = Some (h2, st2, hp2) →
  st1 = st ∧
  ∃ l2 s2,
    h2 = Some l2 ∧ hp !! l2 = None ∧ hp2 !! l2 = Some s2 ∧
    (∀ l0 s, hp !! l0 = Some s → hp2 !! l0 = Some s) ∧
    squash st2 hp2 tid h2 = Some (None, st, delete l2 hp2).
Proof.
  intros Hi Hlk Hadv.
  pose proof (inv_lookup _ _ _ _ _ _ _ _ _ Hi Hlk) as Hi1.
  apply lookup_inv in Hlk
    as (g & bv & path & y & Hg & Hb & Hp & _ & Eh & Est & Ehp).
  subst h st1 hp1. split; [done|].
  assert (hp !! fresh (dom hp) = None) as Hfresh
    by apply not_elem_of_dom, is_fresh.
  eapply advance_squash in Hadv as (l2 & Eh2 & Hsame & Hnew & Hsq & Hframe);
    [| exact Hi1 | exact Hg | exact Hb | exact Hp | apply lookup_insert_eq].
  subst h2.
  assert (hp !! l2 = None) as Hl2.
  { destruct uncond.
    - specialize (Hnew eq_refl).
      apply lookup_insert_None in Hnew as [? _]. done.
    - by rewrite (Hsame eq_refl). }
  pose proof (squash_inv _ _ _ _ _ _ _ Hsq)
    as (l & s & _ & _ & [= <-] & Hs & _).
  exists l2, s. repeat split; try done.
  intros l0 s0 Hl0.
  rewrite Hframe by (intros ->; congruence).
  rewrite lookup_insert_ne; [done|]. intros <-. congruence.
Qed.

Lemma squash_record_only st hp hp2 tid l :
  hp !! l = hp2 !! l →
  (λ x, x.1) <$> squash st hp tid (Some l)
  = (λ x, x.1) <$> squash st hp2 tid (Some l).
Proof.
  intros E. unfold squash. simpl. rewrite E.
  destruct (hp2 !! l) as [s|]; simpl; [|done].
  destruct (vset (globalHistoryReg st) _ _); simpl; [|done].
  destruct (vset (branchHistoryTable st) _ _); simpl; [|done].
  destruct (vat (pathTable st) tid); simpl; [|done].
  destruct (h_branchAddrReplaced s); simpl.
  - destruct (h_branchAddr s); simpl; [|done].
    destruct (vset (pathTable st) _ _); simpl; done.
  - destruct (vset (pathTable st) _ _); simpl; done.
Qed.

Lemma squash_with_weights st hw aw hp tid h :
  squash (set_addrWeightTable (set_historyWeightTable st hw) aw) hp tid h
  = (λ x, (x.1.1, set_addrWeightTable (set_historyWeightTable x.1.2 hw) aw,
           x.2))
    <$> squash st hp tid h.
Proof.
  unfold squash. destruct h as [l|]; simpl; [|done].
  destruct (hp !! l) as [s|]; simpl; [|done].
  destruct (vset (globalHistoryReg st) _ _); simpl; [|done].
  destruct (vset (branchHistoryTable st) _ _); simpl; [|done].
  destruct (vat (pathTable st) tid); simpl; [|done].
  destruct (h_branchAddrReplaced s); simpl.
  - destruct (h_branchAddr s); simpl; [|done].
    destruct (vset (pathTable st) _ _); simpl; done.
  - destruct (vset (pathTable st) _ _); simpl; done.
Qed.

(** X8 (squashes in reverse order unwind).  After predict and advance
    for a branch A and then for a branch B on the same thread, squashing
    B and then A (the youngest first) is defined and gives back the
    object as it was before A was predicted; every record that was live
    before is still on the heap. *)
Theorem squash_in_reverse_order p st hp tid pcA pcB
    bA hA st1 hp1 uncondA takenA hA' stA hpA
    bB hB st2 hp2 uncondB takenB hB' stB hpB :
  reachable p st hp →
  lookup st hp tid pcA = Some (bA, hA, st1, hp1) →
  updateHistories st1 hp1 tid pcA uncondA takenA hA = Some (hA', stA, hpA) →
  lookup stA hpA tid pcB = Some (bB, hB, st2, hp2) →
  updateHistories st2 hp2 tid pcB uncondB takenB hB = Some (hB', stB, hpB) →
  ∃ st3 hp3 hp4,
    squash stB hpB tid hB' = Some (None, st3, hp3) ∧
    squash st3 hp3 tid hA' = Some (None, st, hp4) ∧
    ∀ l s, hp !! l = Some s → hp4 !! l = Some s.
Proof.
  intros Hr HlkA HadvA HlkB HadvB. apply reachable_inv in Hr.
  pose proof (inv_lookup _ _ _ _ _ _ _ _ _ Hr HlkA) as Hi1.
  pose proof (inv_updateHistories _ _ _ _ _ _ _ _ _ _ _ Hi1 HadvA) as HiA.
  destruct (predict_advance_squash _ _ _ _ _ _ _ _ _ _ _ _ _ _ Hr HlkA HadvA)
    as (_ & lA & sA & EA & HfA & HsA & HframeA & HsqA).
  destruct (predict_advance_squash _ _ _ _ _ _ _ _ _ _ _ _ _ _ HiA HlkB HadvB)
    as (_ & lB & sB & EB & HfB & HsB & HframeB & HsqB).
  subst hA' hB'.
  assert (lA ≠ lB) as Hne by (intros ->; congruence).
  assert (delete lB hpB !! lA = hpA !! lA) as Hrec.
  { rewrite lookup_delete_ne by done. rewrite HsA. by apply HframeB. }
  pose proof (squash_record_only stA (delete lB hpB) hpA tid lA Hrec) as Heq.
  rewrite HsqA in Heq.
  destruct (squash stA (delete lB hpB) tid (Some lA))
    as [[[h4 st4] hp4]|] eqn:Hsq4; [|discriminate].
  cbn in Heq. injection Heq as -> ->.
  exists stA, (delete lB hpB), hp4. split; [exact HsqB|]. split; [done|].
  intros l s Hl.
  apply squash_inv in Hsq4
    as (l' & s' & _ & _ & [= <-] & _ & _ & _ & _ & _ & _ & -> & _).
  assert (l ≠ lA) by (intros ->; congruence).
  assert (l ≠ lB).
  { intros ->. apply HframeA in Hl. congruence. }
  rewrite !lookup_delete_ne by done. by apply HframeB, HframeA.
Qed.

(** X9 (train as squashed, then squash).  When a branch that was
    predicted and advanced is trained with [squashed] set and then
    squashed through the handle that [update] left intact, the object
    that comes back has the history registers and path queues it had
    before the branch was predicted and the weight tables that the
    training produced. *)
Theorem train_then_squash p st hp tid pc b h st1 hp1 uncond taken0
    h2 st2 hp2 taken h3 st3 hp3 :
  reachable p st hp →
  lookup st hp tid pc = Some (b, h, st1, hp1) →
  updateHistories st1 hp1 tid pc uncond taken0 h = Some (h2, st2, hp2) →
  update st2 hp2 tid pc taken h2 true = Some (h3, st3, hp3) →
  h3 = h2 ∧ hp3 = hp2 ∧
  ∃ st4 hp4,
    squash st3 hp3 tid h3 = Some (None, st4, hp4) ∧
    st4 = set_addrWeightTable
            (set_historyWeightTable st (historyWeightTable st3))
            (addrWeightTable st3) ∧
    globalHistoryReg st4 = globalHistoryReg st ∧
    branchHistoryTable st4 = branchHistoryTable st ∧
    pathTable st4 = pathTable st ∧
    weights st4 = weights st3.
Proof.
  intros Hr Hlk Hadv Hup. apply reachable_inv in Hr.
  destruct (predict_advance_squash _ _ _ _ _ _ _ _ _ _ _ _ _ _ Hr Hlk Hadv)
    as (_ & l2 & s2 & E2 & _ & Hs2 & _ & Hsq).
  subst h2.
  apply update_inv in Hup as (l & s & [= <-] & Hl & Ht & [-> ->]).
  split; [done|]. split; [done|].
  unfold fires in Ht. simpl in Ht.
  apply train_inv in Ht as (? & ? & hw & ? & aw & _ & _ & _ & _ & _ & ->).
  rewrite squash_with_weights, Hsq. simpl.
  eexists _, _. split; [reflexivity|]. by destruct st.
Qed.

(** ** Calls outside the protocol *)

Lemma protocol_run_reachable p st hp : protocol_run p st hp → reachable p st hp.
Proof.
  induction 1;
    eauto using reach_new, reach_lookup, reach_updateHistories, reach_update,
                reach_squash.
Qed.

(** X10 (squash of the older of two branches in flight).  After predict
    and advance for a branch A and then for a branch B on the same thread,
    a [squash] on the snapshot of A writes back the global history from
    before A, and on the path queue it drops the bucket of B from the
    front and appends the address that A evicted.  When the queue before
    A had at least two entries and its front was not the bucket of A, the
    queue after the squash is not the queue before A. *)
Theorem squash_older_first p st hp tid pcA pcB
    bA hA st1 hp1 uncondA takenA hA' stA hpA
    bB hB st2 hp2 uncondB takenB hB' stB hpB q x h3 st3 hp3 :
  protocol_run p st hp →
  vat (pathTable st) tid = Some q →
  last q = Some x →
  lookup st hp tid pcA = Some (bA, hA, st1, hp1) →
  updateHistories st1 hp1 tid pcA uncondA takenA hA = Some (hA', stA, hpA) →
  lookup stA hpA tid pcB = Some (bB, hB, st2, hp2) →
  updateHistories st2 hp2 tid pcB uncondB takenB hB = Some (hB', stB, hpB) →
  squash stB hpB tid hA' = Some (h3, st3, hp3) →
  vat (globalHistoryReg st3) tid = vat (globalHistoryReg st) tid ∧
  vat (pathTable stB) tid =
    Some (Z.land pcB (pcMask st)
          :: removelast (Z.land pcA (pcMask st) :: removelast q)) ∧
  vat (pathTable st3) tid =
    Some (removelast (Z.land pcA (pcMask st) :: removelast q) ++ [x]) ∧
  (∀ y, head q = Some y → (2 <= length q)%nat →
        y ≠ Z.land pcA (pcMask st) →
        vat (pathTable st3) tid ≠ vat (pathTable st) tid).
Proof.
  intros Hrun Hq Hx HlkA HadvA HlkB HadvB Hsq.
  assert (∀ a y, head q = Some y → (2 <= length q)%nat → y ≠ a →
                 removelast (a :: removelast q) ++ [x] ≠ q) as Hne.
  { intros a y Hy Hlen Hya. destruct q as [|y' [|z q2]]; simpl in Hlen;
      [lia | lia |].
    injection Hy as ->. cbn. intros E. injection E as E _. congruence. }
  pose proof (protocol_run_inv _ _ _ Hrun) as Ri.
  apply protocol_run_reachable, reachable_inv in Hrun as Hi.
  pose proof (inv_lookup _ _ _ _ _ _ _ _ _ Hi HlkA) as Hi1.
  pose proof (inv_updateHistories _ _ _ _ _ _ _ _ _ _ _ Hi1 HadvA) as HiA.
  pose proof (run_inv_lookup _ _ _ _ _ _ _ _ Ri HlkA) as Ri1.
  destruct (predict_advance_squash _ _ _ _ _ _ _ _ _ _ _ _ _ _ Hi HlkA HadvA)
    as (-> & lA & sA & EA & HfA & HsA & _ & HsqA).
  destruct (updateHistories_full _ _ _ _ _ _ _ _ _ _ Ri1 HadvA)
    as (RiA & lA' & sA' & qA & backA & EA' & HsA' & HrepA & HqA & HlastA
        & HevA & HqA').
  subst hA'. injection EA' as <-. assert (sA' = sA) as -> by congruence.
  assert (qA = q) as -> by congruence.
  assert (backA = x) as -> by congruence.
  pose proof (run_inv_lookup _ _ _ _ _ _ _ _ RiA HlkB) as Ri2.
  destruct (predict_advance_squash _ _ _ _ _ _ _ _ _ _ _ _ _ _ HiA HlkB HadvB)
    as (-> & lB & sB & EB & HfB & HsB & HframeB & _).
  destruct (updateHistories_full _ _ _ _ _ _ _ _ _ _ Ri2 HadvB)
    as (_ & _ & _ & qB & _ & _ & _ & _ & HqB & _ & _ & HqB').
  rewrite HqA' in HqB. injection HqB as <-.
  assert (pcMask stA = pcMask st) as Hm.
  { apply updateHistories_inv in HadvA
      as (? & ? & ? & ? & ? & _ & _ & _ & _ & _ & ->). done. }
  rewrite Hm in HqB'.
  (* what squash on A's record restores *)
  pose proof (squash_inv _ _ _ _ _ _ _ HsqA)
    as (l0 & s0 & q0 & q02 & [= <-] & Hs0 & Ht0 & _ & _ & _ & _ & _ & Est).
  assert (s0 = sA) as -> by congruence.
  assert (vat (globalHistoryReg st) tid = Some (h_globalHistoryReg sA)) as Hg.
  { rewrite Est at 1. simpl. apply vat_Some. split; [lia|].
    apply list_lookup_insert_eq. lia. }
  apply squash_inv in Hsq
    as (l1 & s1 & q1 & q12 & [= <-] & Hs1 & Ht1 & _ & Hq1 & H2 & _ & _ & ->).
  assert (s1 = sA) as -> by (apply HframeB in HsA; congruence).
  rewrite HqB' in Hq1. injection Hq1 as <-.
  rewrite HrepA, HevA in H2. destruct H2 as (a & [= <-] & ->).
  assert (vat (pathTable
                 (set_pathTable
                    (set_branchHistoryTable
                       (set_globalHistoryReg stB
                          (<[Z.to_nat tid := h_globalHistoryReg sA]>
                             (globalHistoryReg stB)))
                       (<[Z.to_nat (h_new_pc sA) := h_local sA]>
                          (branchHistoryTable stB)))
                    (<[Z.to_nat tid :=
                         tail (Z.land pcB (pcMask st)
                               :: removelast (Z.land pcA (pcMask st)
                                              :: removelast q))
                         ++ [u32 x]]> (pathTable stB)))) tid =
          Some (removelast (Z.land pcA (pcMask st) :: removelast q) ++ [x]))
    as Hq3.
  { assert (u32 x = x) as ->.
    { apply u32_id. pose proof (inv_path_at _ _ _ _ _ Hi Hq) as Fq.
      apply removelast_last in Hx. rewrite <- Hx in Fq.
      apply Forall_app in Fq as [_ Fx]. by apply Forall_inv in Fx. }
    simpl. apply vat_Some. split; [lia|]. apply list_lookup_insert_eq.
    apply vat_lt in HqB'. lia. }
  split; [|split; [done|split; [exact Hq3|]]].
  - simpl. rewrite Hg. apply vat_Some. split; [lia|].
    apply list_lookup_insert_eq. lia.
  - intros y Hy Hlen Hya E.
    assert (Some (removelast (Z.land pcA (pcMask st) :: removelast q) ++ [x])
            = Some q) as [= E'].
    { rewrite <- Hq3, <- Hq. exact E. }
    by apply (Hne _ _ Hy Hlen Hya).
Qed.

Lemma score_loop_path wt path reg n : ∀ j0 y y',
  for_loop n j0 (score_step wt path reg) y = Some y' →
  ∀ j, j0 <= j < j0 + Z.of_nat n → is_Some (vat path (j - 1)).
Proof.
  induction n as [|n IH]; intros j0 y y' H j Hj; [lia|].
  simpl in H. apply bind_Some in H as (y1 & Hs & H).
  destruct (Z.eq_dec j j0) as [->|Hne].
  - apply score_step_inv in Hs as (a & _ & _ & Ha & _). eauto.
  - eapply IH; [exact H | lia].
Qed.

(** A defined [lookup] has read the path queue of the thread up to its
    capacity. *)
Lemma lookup_reads_whole_path st hp tid pc r :
  lookup st hp tid pc = Some r →
  ∃ q, vat (pathTable st) tid = Some q ∧
       path_capacity st <= Z.of_nat (length q).
Proof.
  unfold lookup. intros H.
  apply bind_Some in H as (g & Eg & H).
  apply bind_Some in H as (bv & Eb & H).
  apply bind_Some in H as (row0 & Erow0 & H).
  apply bind_Some in H as (y0 & Ey0 & H).
  apply bind_Some in H as (sh & Esh & H).
  apply bind_Some in H as (q & Eq & H).
  apply bind_Some in H as (y_hist & Ehist & H).
  apply bind_Some in H as (arow0 & Earow0 & H).
  apply bind_Some in H as (a0 & Ea0 & H).
  apply bind_Some in H as (y_addr & Eaddr & H).
  exists q. split; [assumption|].
  pose proof (score_loop_path _ _ _ _ _ _ _ Ehist) as Hh.
  pose proof (score_loop_path _ _ _ _ _ _ _ Eaddr) as Ha.
  unfold path_capacity.
  assert (history_length st <= Z.of_nat (length q)).
  { destruct (Z.le_gt_cases (history_length st) 0); [lia|].
    destruct (Hh (history_length st) ltac:(lia)) as [a Ha'].
    apply vat_lt in Ha'. lia. }
  assert (branchAddrBits st <= Z.of_nat (length q)).
  { destruct (Z.le_gt_cases (branchAddrBits st) 0); [lia|].
    destruct (Ha (branchAddrBits st) ltac:(lia)) as [a Ha'].
    apply vat_lt in Ha'. lia. }
  lia.
Qed.

(** X11 (squash without advance).  When a snapshot that [lookup] made is
    squashed before [updateHistories] was called for it, the registers
    are left as they are but the path queue of the thread loses its front
    element and nothing is appended: the queue is one short of its
    capacity, and every later [lookup] on that thread reads past its end
    (no defined behaviour). *)
Theorem squash_without_advance p st hp tid pc b h st1 hp1 h2 st2 hp2 q :
  protocol_run p st hp →
  0 < path_capacity st →
  vat (pathTable st) tid = Some q →
  lookup st hp tid pc = Some (b, h, st1, hp1) →
  squash st1 hp1 tid h = Some (h2, st2, hp2) →
  globalHistoryReg st2 = globalHistoryReg st ∧
  branchHistoryTable st2 = branchHistoryTable st ∧
  vat (pathTable st2) tid = Some (tail q) ∧
  Z.of_nat (length (tail q)) = path_capacity st - 1 ∧
  ∀ hp' pc', lookup st2 hp' tid pc' = None.
Proof.
  intros Hrun Hcap Hq Hlk Hsq.
  pose proof (protocol_run_inv _ _ _ Hrun) as [F _ _].
  apply protocol_run_reachable, reachable_inv in Hrun as Hi.
  assert (Z.of_nat (length q) = path_capacity st) as Hlen.
  { apply vat_Some in Hq as [_ Hq']. by apply (Forall_lookup_1 _ _ _ _ F Hq'). }
  pose proof (lookup_inv _ _ _ _ _ _ _ _ Hlk)
    as (g & bv & path & y & Hg & Hb & Hp & _ & -> & -> & ->).
  assert (path = q) as -> by congruence.
  apply squash_inv in Hsq
    as (l & s & q1 & q2 & [= <-] & Hs & _ & _ & Hq1 & H2 & _ & _ & ->).
  rewrite lookup_insert_eq in Hs. injection Hs as <-. simpl in H2. subst q2.
  assert (q1 = q) as -> by congruence.
  destruct Hi as [C B P M].
  assert (masked (localMask st) bv) as Hbv.
  { apply vat_Some in Hb as [_ Hb']. by eapply (Forall_lookup_1 _ _ _ _ B). }
  assert (u32 (Z.land pc (pcMask st)) = Z.land pc (pcMask st)) as Hnpc.
  { apply u32_id. by eapply new_pc_addr32. }
  assert (Z.of_nat (length (tail q)) = path_capacity st - 1) as Htl.
  { destruct q; simpl in *; lia. }
  simpl. rewrite Hnpc, Hbv.
  split; [|split; [|split; [|split]]]; try done.
  - apply list_insert_id. by apply vat_Some in Hg as [_ ?].
  - apply list_insert_id. by apply vat_Some in Hb as [_ ?].
  - by eapply vat_insert_eq.
  - intros hp' pc'.
    destruct (lookup _ hp' tid pc') as [r|] eqn:Hlk2; [exfalso|done].
    apply lookup_reads_whole_path in Hlk2 as (q' & Hq' & Hcap').
    simpl in Hq'. rewrite (vat_insert_eq _ _ _ _ Hq) in Hq'.
    injection Hq' as <-. unfold path_capacity in *. simpl in Hcap'. lia.
Qed.

(** X12 (a predictor without inputs cannot advance).  When the three
    widths are all 0 the path queues are empty and at capacity, so
    [updateHistories] takes the branch of line 174 and reads the back of
    an empty vector: no call of it has defined behaviour. *)
Theorem zero_width_advance_undefined p st hp tid pc uncond taken h :
  protocol_run p st hp →
  path_capacity st = 0 →
  updateHistories st hp tid pc uncond taken h = None.
Proof.
  intros Hrun Hcap. pose proof (protocol_run_inv _ _ _ Hrun) as Ri.
  destruct (updateHistories st hp tid pc uncond taken h)
    as [[[h' st'] hp']|] eqn:H; [exfalso|done].
  destruct (updateHistories_full _ _ _ _ _ _ _ _ _ _ Ri H)
    as (_ & l & s & q & back & _ & _ & _ & Hq & Hlast & _).
  destruct Ri as [F _ _].
  apply vat_Some in Hq as [_ Hq].
  pose proof (Forall_lookup_1 _ _ _ _ F Hq) as Hlen. simpl in Hlen.
  rewrite Hcap in Hlen. destruct q; [discriminate|simpl in Hlen; lia].
Qed.

(** ** The size of the score *)

(** With every weight in [-B, B] and room in [int] for the two sums,
    [lookup] is defined and its score is at most the number of weights it
    reads times [B]. *)
Lemma lookup_bounded st hp tid pc B :
  world_shape st hp →
  0 <= tid < Z.of_nat (length (globalHistoryReg st)) →
  0 <= B →
  (history_length st + branchAddrBits st + 2) * B <= INT_MAX →
  weights_within B (historyWeightTable st) →
  weights_within B (addrWeightTable st) →
  ∃ h hp' s,
    lookup st hp tid pc = Some (0 <=? h_last_y s, h, st, hp') ∧
    snapshot_of hp' h = Some s ∧
    - ((history_length st + branchAddrBits st + 2) * B) <= h_last_y s
      <= (history_length st + branchAddrBits st + 2) * B.
Proof.
  intros [S F Hcap M] Ht HB Hsum Wh Wa.
  destruct (thread_ok _ _ S Ht) as [[g Hg] [q Hq]].
  destruct (bucket_row_ok _ _ S (new_pc_ok st pc S)) as ([b Hb] & _ & _).
  destruct (shape_queue _ _ _ S F Hq) as [Hlen Hqok].
  pose proof (sh_lb _ S) as Hlb. pose proof (sh_hl _ S) as Hhl.
  pose proof (sh_ab _ S) as Hab.
  destruct (shape_cells st _ S (new_pc_ok st pc S)) as [Hch Hca].
  destruct (Hch 0 ltac:(lia)) as (row0 & y0 & Hrow0 & Hy0).
  destruct (Hca 0 ltac:(lia)) as (arow0 & a0 & Harow0 & Ha0).
  assert (∀ j, 1 <= j <= path_capacity st →
            ∃ a, vat q (j - 1) = Some a ∧ bucket_ok st a) as Hp.
  { intros j Hj. destruct (vat_is_Some q (j - 1) ltac:(lia)) as [a Ha].
    exists a. split; [assumption|].
    apply vat_Some in Ha as [_ Ha]. by apply (Forall_lookup_1 _ _ _ _ Hqok Ha). }
  assert (∀ a, bucket_ok st a → u32 a = a) as Hu.
  { intros a [? ?]. pose proof (sh_mask _ S). apply u32_id. lia. }
  unfold path_capacity in Hp.
  assert (- B <= y0 <= B) as Hy0b.
  { pose proof (weights_within_wget B _ (Z.land pc (pcMask st)) 0 HB Wh) as H.
    unfold wget in H. rewrite Hrow0 in H. simpl in H. by rewrite Hy0 in H. }
  assert (- B <= a0 <= B) as Ha0b.
  { pose proof (weights_within_wget B _ (Z.land pc (pcMask st)) 0 HB Wa) as H.
    unfold wget in H. rewrite Harow0 in H. simpl in H. by rewrite Ha0 in H. }
  assert (0 <= history_length st * B ∧ 0 <= branchAddrBits st * B)
    as [HhB HaB] by (split; apply Z.mul_nonneg_nonneg; lia).
  unfold lookup. rewrite Hg. simpl. rewrite Hb. simpl.
  rewrite Hrow0. simpl. rewrite Hy0. simpl. unfold shl64.
  replace ((0 <=? localHistoryBits st) && (localHistoryBits st <? 64)) with true
    by (symmetry; apply andb_true_iff; rewrite Z.leb_le, Z.ltb_lt; lia).
  simpl. rewrite Hq. simpl.
  destruct (score_loop_defined (historyWeightTable st) q
              (Z.lor (u64 (Z.shiftl (Z.land g (globalHistoryMask st))
                                    (localHistoryBits st)))
                     (Z.land (u32 b) (localMask st)))
              B (Z.to_nat (history_length st)) 1 y0 B)
    as (y_hist & -> & Hyh); try lia.
  { intros j Hj. destruct (Hp j ltac:(lia)) as (a & Ha & Hok).
    exists a. split; [assumption|]. rewrite (Hu a Hok).
    destruct (shape_cells st a S Hok) as [Hc _]. apply Hc. lia. }
  { intros r c. by apply weights_within_wget. }
  simpl. rewrite Harow0. simpl. rewrite Ha0. simpl.
  destruct (score_loop_defined (addrWeightTable st) q (Z.land pc (pcMask st))
              B (Z.to_nat (branchAddrBits st)) 1 a0 B)
    as (y_addr & -> & Hya); try lia.
  { intros j Hj. destruct (Hp j ltac:(lia)) as (a & Ha & Hok).
    exists a. split; [assumption|]. rewrite (Hu a Hok).
    destruct (shape_cells st a S Hok) as [_ Hc]. apply Hc. lia. }
  { intros r c. by apply weights_within_wget. }
  simpl. rewrite !Z2Nat.id in * by lia.
  assert (in_int (y_addr + y_hist) = true) as Hin.
  { unfold in_int, INT_MIN, INT_MAX in *.
    rewrite andb_true_iff, !Z.leb_le. lia. }
  unfold int_add. rewrite Hin. simpl.
  eexists (Some (fresh (dom hp))), _,
    (new_BPHistory g (s32 (Z.land (u32 b) (localMask st))) q
                   (u32 (Z.land pc (pcMask st))) (y_addr + y_hist)).
  split; [|split].
  - reflexivity.
  - simpl. apply lookup_insert_eq.
  - simpl. lia.
Qed.

(** X13 (the score is bounded by the weights).  From valid parameters,
    in every world of the protocol where each weight lies in [-B, B] and
    [(history_length + branchAddrBits + 2) * B] fits an [int], [lookup]
    on a valid thread is defined and the score it records has magnitude
    at most [(history_length + branchAddrBits + 2) * B]. *)
Theorem score_bounded_by_weights p st hp tid pc B :
  params_ok p →
  protocol_run p st hp →
  0 <= tid < Z.of_nat (length (globalHistoryReg st)) →
  0 <= B →
  (history_length st + branchAddrBits st + 2) * B <= INT_MAX →
  weights_within B (historyWeightTable st) →
  weights_within B (addrWeightTable st) →
  ∃ b h hp' s,
    lookup st hp tid pc = Some (b, h, st, hp') ∧
    snapshot_of hp' h = Some s ∧
    b = (0 <=? h_last_y s) ∧
    Z.abs (h_last_y s) <= (history_length st + branchAddrBits st + 2) * B.
Proof.
  intros Hp Hrun Ht HB Hsum Wh Wa.
  pose proof (protocol_world_shape _ _ _ Hp Hrun) as Hw.
  destruct (lookup_bounded st hp tid pc B Hw Ht HB Hsum Wh Wa)
    as (h & hp' & s & Hlk & Hs & Hy).
  exists (0 <=? h_last_y s), h, hp', s. repeat split; try done. lia.
Qed.

(** What the constructor leaves in the registers and the tables. *)
Lemma new_fresh p st :
  PerceptronBP_new p = Some st →
  globalHistoryReg st = replicate (Z.to_nat (u32 (p_numThreads p))) 0 ∧
  branchHistoryTable st = replicate (length (branchHistoryTable st)) 0 ∧
  weights_within 0 (historyWeightTable st) ∧
  weights_within 0 (addrWeightTable st).
Proof.
  unfold PerceptronBP_new. intros Hnew.
  apply bind_Some in Hnew as (rows & _ & Hnew). injection Hnew as <-.
  simpl. rewrite length_replicate. repeat split; try done;
    apply Forall_replicate, Forall_replicate; lia.
Qed.

(** X14 (a new predictor predicts taken).  On the object that the
    constructor returns for valid parameters, [lookup] on any valid
    thread and any address answers taken with score 0, recording the
    all-zero history and path. *)
Theorem new_predictor_predicts_taken p st tid pc :
  params_ok p →
  PerceptronBP_new p = Some st →
  0 <= tid < u32 (p_numThreads p) →
  ∃ h hp' s,
    lookup st ∅ tid pc = Some (true, h, st, hp') ∧
    snapshot_of hp' h = Some s ∧
    h_last_y s = 0 ∧ h_globalHistoryReg s = 0 ∧ h_local s = 0 ∧
    h_path s = replicate (Z.to_nat (path_capacity st)) 0.
Proof.
  intros Hp Hnew Ht.
  pose proof (world_shape_new _ _ Hp Hnew) as Hw.
  pose proof (new_path_zero _ _ Hnew) as (Hlen & Hz & _).
  pose proof (new_fresh _ _ Hnew) as (Hghr & Hbht & Wh & Wa).
  assert (0 <= tid < Z.of_nat (length (globalHistoryReg st))) as Ht'.
  { rewrite Hghr, length_replicate. lia. }
  destruct (lookup_bounded st ∅ tid pc 0 Hw Ht' ltac:(lia)
              ltac:(unfold INT_MAX; lia) Wh Wa)
    as (h & hp' & s & Hlk & Hs & Hy).
  assert (h_last_y s = 0) as Hy0 by lia.
  rewrite Hy0 in Hlk. simpl in Hlk.
  exists h, hp', s. split; [done|]. split; [done|].
  split; [done|].
  apply lookup_inv in Hlk
    as (g & bv & q & y & Hg & Hb & Hq & _ & -> & _ & ->).
  simpl in Hs. rewrite lookup_insert_eq in Hs. injection Hs as <-. simpl.
  assert (g = 0) as ->.
  { apply vat_Some in Hg as [_ Hg]. rewrite Hghr in Hg.
    by apply lookup_replicate in Hg as [? _]. }
  assert (bv = 0) as ->.
  { apply vat_Some in Hb as [_ Hb]. rewrite Hbht in Hb.
    by apply lookup_replicate in Hb as [? _]. }
  split; [done|]. split.
  - unfold u32. rewrite Zmod_0_l, Z.land_0_l. reflexivity.
  - apply vat_Some in Hq as [_ Hq]. by apply (Forall_lookup_1 _ _ _ _ Hz Hq).
Qed.

(** X15 (weights grow by at most one per training).  When every weight
    of the two tables lies in [-B, B], after any [update] every weight
    lies in [-(B+1), B+1]. *)
Theorem update_grows_weights_by_one st hp tid pc taken h squashed
    h' st' hp' B :
  0 <= B →
  weights_within B (historyWeightTable st) →
  weights_within B (addrWeightTable st) →
  update st hp tid pc taken h squashed = Some (h', st', hp') →
  weights_within (B + 1) (historyWeightTable st') ∧
  weights_within (B + 1) (addrWeightTable st').
Proof.
  intros HB Wh Wa (l & s & _ & _ & Ht & _)%update_inv.
  assert (∀ wt wt' : list (list Z),
            weights_within B wt →
            length <$> wt' = length <$> wt →
            (∀ r c, -1 <= wget wt' r c - wget wt r c <= 1) →
            weights_within (B + 1) wt') as Hgrow.
  { intros wt wt' W Hsh Hd.
    apply Forall_lookup_2. intros r row' Hrow'.
    apply Forall_lookup_2. intros c w' Hw'.
    assert (has_cell wt' (Z.of_nat r) (Z.of_nat c)) as Hcell.
    { exists row', w'. split; apply vat_Some; rewrite Nat2Z.id; split; (lia || done). }
    apply (has_cell_shape wt' wt) in Hcell; [|done].
    destruct Hcell as (row & w & Hrow & Hw).
    specialize (Hd (Z.of_nat r) (Z.of_nat c)). unfold wget in Hd.
    rewrite Hrow in Hd. simpl in Hd. rewrite Hw in Hd.
    assert (vat wt' (Z.of_nat r) = Some row') as Hr'
      by (apply vat_Some; rewrite Nat2Z.id; split; (lia || done)).
    assert (vat row' (Z.of_nat c) = Some w') as Hc'
      by (apply vat_Some; rewrite Nat2Z.id; split; (lia || done)).
    rewrite Hr' in Hd. simpl in Hd. rewrite Hc' in Hd. simpl in Hd.
    apply vat_Some in Hrow as [_ Hrow], Hw as [_ Hw].
    pose proof (Forall_lookup_1 _ _ _ _ W Hrow) as Wr.
    pose proof (Forall_lookup_1 _ _ _ _ Wr Hw). simpl in *. lia. }
  destruct (fires s squashed).
  - pose proof (train_shape _ _ _ _ _ Ht) as [Sh Sa].
    pose proof (train_wget _ _ _ _ _ Ht) as Hd.
    assert (∀ (b1 : bool) r c new_pc hl path reg,
              -1 <= (if (r =? new_pc) && (c =? 0) then sgn taken else 0) +
                    (if (1 <=? c) && (c <=? hl)
                     then step_delta path reg taken r c else 0) <= 1) as Hb.
    { intros _ r c new_pc hl path reg.
      pose proof (step_delta_bound path reg taken r c).
      destruct (c =? 0) eqn:E0.
      - apply Z.eqb_eq in E0. subst c. simpl. rewrite andb_true_r.
        unfold sgn. destruct (r =? new_pc), taken; simpl; lia.
      - rewrite andb_false_r. simpl. destruct (_ && _); lia. }
    split.
    + apply (Hgrow _ _ Wh Sh). intros r c. destruct (Hd r c) as [E _].
      specialize (Hb true r c (Z.land pc (pcMask st)) (history_length st)
                    (h_path s) (snapshot_history_reg st s)). lia.
    + apply (Hgrow _ _ Wa Sa). intros r c. destruct (Hd r c) as [_ E].
      specialize (Hb true r c (Z.land pc (pcMask st)) (branchAddrBits st)
                    (h_path s) (Z.land pc (pcMask st))). lia.
  - subst st'. split.
    + apply (Hgrow _ _ Wh eq_refl). intros; lia.
    + apply (Hgrow _ _ Wa eq_refl). intros; lia.
Qed.

(** ** What training does to the score *)

(** The score that [lookup] records is the total of the specification
    (for at most 32 address bits). *)
Lemma lookup_records_total p st hp tid pc b h st' hp' :
  inv p st hp →
  branchAddrBits st <= 32 →
  lookup st hp tid pc = Some (b, h, st', hp') →
  ∃ s, snapshot_of hp' h = Some s ∧ h_last_y s = spec_y_total st tid pc.
Proof.
  intros [C _ P _] Hab H.
  pose proof (u32_range (p_branchAddrBits p)) as Ra.
  rewrite <- (cfg_ab _ _ C) in Ra.
  pose proof (u32_range (u32 (p_globalHistoryBits p)
                         + u32 (p_localHistoryBits p))) as Rh.
  rewrite <- (cfg_hl _ _ C) in Rh.
  pose proof (u32_range (p_localHistoryBits p)) as Rl.
  rewrite <- (cfg_lb _ _ C) in Rl.
  assert (localMask st = Z.ones (Z.min (localHistoryBits st) 32)) as Hlm.
  { rewrite (cfg_lmask _ _ C). apply mask32_ones. lia. }
  assert (pcMask st = Z.ones (branchAddrBits st)) as Hpm.
  { rewrite (cfg_pcmask _ _ C), mask32_ones by lia. f_equal. lia. }
  unfold lookup in H.
  apply bind_Some in H as (g & Eg & H).
  apply bind_Some in H as (bv & Eb & H).
  apply bind_Some in H as (row0 & Erow0 & H).
  apply bind_Some in H as (y0 & Ey0 & H).
  apply bind_Some in H as (sh & Esh & H).
  apply bind_Some in H as (path & Epath & H).
  apply bind_Some in H as (y_hist & Ehist & H).
  apply bind_Some in H as (arow0 & Earow0 & H).
  apply bind_Some in H as (a0 & Ea0 & H).
  apply bind_Some in H as (y_addr & Eaddr & H).
  apply bind_Some in H as (y & Ey & H).
  injection H as <- <- <- <-.
  assert (Forall addr32 path) as Fp.
  { apply vat_Some in Epath as [_ Epath].
    by eapply (Forall_lookup_1 _ _ _ _ P). }
  assert (sh = u64 (Z.shiftl (Z.land g (globalHistoryMask st))
                             (localHistoryBits st))) as ->.
  { unfold shl64 in Esh. destruct (_ && _); [|discriminate].
    by injection Esh as <-. }
  assert (∀ j a, vat path (j - 1) = Some a → spec_visited st tid j = a)
    as Hvis.
  { intros j a Ha. unfold spec_visited. rewrite Epath. simpl. by rewrite Ha. }
  eapply (score_loop_sum _ _ _
            (λ j, signed (wget (historyWeightTable st) (spec_visited st tid j) j)
                         (Z.testbit (spec_combined_history st tid pc) (j - 1))))
    in Ehist as [-> _]; [|assumption|]; cycle 1.
  { intros j a Hj Hj64 Ha. rewrite (Hvis j a Ha). f_equal.
    unfold spec_combined_history, spec_bucket. rewrite Eb, Eg. simpl.
    rewrite Hlm. symmetry. apply history_reg_bit; lia. }
  eapply (score_loop_sum _ _ _
            (λ j, signed (wget (addrWeightTable st) (spec_visited st tid j) j)
                         (Z.testbit pc (j - 1))))
    in Eaddr as [-> _]; [|assumption|]; cycle 1.
  { intros j a Hj Hj64 Ha. rewrite (Hvis j a Ha). f_equal.
    rewrite Hpm. symmetry. apply bucket_bit; lia. }
  eexists. split; [simpl; apply lookup_insert_eq|]. simpl.
  unfold int_add in Ey. destruct (in_int _); [|discriminate].
  injection Ey as <-.
  unfold spec_y_total, spec_y_hist, spec_y_addr, sum_from_1, spec_bucket,
    wget.
  rewrite Erow0, Earow0. simpl. rewrite Ey0, Ea0. simpl.
  rewrite !Z2Nat.id by lia. lia.
Qed.

Lemma sum_shift (f f' : Z → Z) d n : ∀ j0,
  (∀ j, j0 <= j < j0 + Z.of_nat n → f' j = f j + d) →
  foldr Z.add 0 (f' <$> seqZ j0 (Z.of_nat n)) =
  foldr Z.add 0 (f <$> seqZ j0 (Z.of_nat n)) + Z.of_nat n * d.
Proof.
  induction n as [|n IH]; intros j0 H; [simpl; lia|].
  rewrite (seqZ_cons j0) by lia.
  replace (Z.pred (Z.of_nat (S n))) with (Z.of_nat n) by lia.
  rewrite !fmap_cons. cbn [foldr].
  rewrite H by lia. rewrite IH by (intros j Hj; apply H; lia). lia.
Qed.

Lemma train_loop_range path reg taken n : ∀ j0 wt wt',
  for_loop n j0 (train_step path reg taken) wt = Some wt' →
  ∀ c, j0 <= c < j0 + Z.of_nat n → 0 <= c - 1 < 64.
Proof.
  induction n as [|n IH]; intros j0 wt wt' H c Hc; [lia|].
  simpl in H. apply bind_Some in H as (wt1 & Hs & H).
  destruct (Z.eq_dec c j0) as [->|Hne].
  - unfold train_step in Hs.
    apply bind_Some in Hs as (a & _ & Hs).
    apply bind_Some in Hs as (sh & Esh & _).
    unfold shr64 in Esh.
    destruct ((0 <=? j0 - 1) && (j0 - 1 <? 64)) eqn:E; [|discriminate].
    apply andb_true_iff in E as [?%Z.leb_le ?%Z.ltb_lt]. lia.
  - eapply IH; [exact H | lia].
Qed.

(** With at most 31 local history bits, the register that [update]
    rebuilds from a snapshot of the state has the bits of the combined
    history of that state. *)
Lemma snapshot_reg_bit p st tid pc g bv s i :
  config_of p st →
  localHistoryBits st <= 31 →
  vat (globalHistoryReg st) tid = Some g →
  vat (branchHistoryTable st) (Z.land pc (pcMask st)) = Some bv →
  h_globalHistoryReg s = g →
  h_local s = s32 (Z.land (u32 bv) (localMask st)) →
  0 <= i < 64 →
  Z.testbit (snapshot_history_reg st s) i =
  Z.testbit (spec_combined_history st tid pc) i.
Proof.
  intros C Hlb Hg Hb Eg El Hi.
  pose proof (u32_range (p_localHistoryBits p)) as Rl.
  rewrite <- (cfg_lb _ _ C) in Rl.
  assert (localMask st = Z.ones (localHistoryBits st)) as Hlm.
  { rewrite (cfg_lmask _ _ C), mask32_ones by lia. f_equal. lia. }
  unfold snapshot_history_reg, spec_combined_history, spec_bucket.
  rewrite Hg, Hb, Eg, El, Hlm. simpl.
  pose proof (land_ones_range (u32 bv) (localHistoryBits st) ltac:(lia)) as HL.
  assert (Z.ones (localHistoryBits st) < 2 ^ 31).
  { rewrite Z.ones_equiv.
    assert (2 ^ localHistoryBits st <= 2 ^ 31)
      by (apply Z.pow_le_mono_r; lia). lia. }
  rewrite s32_id by lia.
  assert (u64 (Z.land (u32 bv) (Z.ones (localHistoryBits st)))
          = Z.land (u32 bv) (Z.ones (localHistoryBits st))) as ->.
  { unfold u64. apply Z.mod_small. lia. }
  apply history_reg_bit; lia.
Qed.

Lemma signed_step w taken bit :
  signed (w + sgn (eqb taken bit)) bit = signed w bit + sgn taken.
Proof. unfold signed, sgn. destruct taken, bit; simpl; lia. Qed.

(** Training from a snapshot of the state itself moves each term of the
    two sums by one in the direction of the outcome. *)
Lemma trained_score p st hp tid pc g bv q s taken st2 :
  inv p st hp →
  branchAddrBits st <= 32 →
  localHistoryBits st <= 31 →
  vat (globalHistoryReg st) tid = Some g →
  vat (branchHistoryTable st) (Z.land pc (pcMask st)) = Some bv →
  vat (pathTable st) tid = Some q →
  h_globalHistoryReg s = g →
  h_local s = s32 (Z.land (u32 bv) (localMask st)) →
  h_path s = q →
  train st s (Z.land pc (pcMask st)) taken = Some st2 →
  spec_y_total st2 tid pc =
  spec_y_total st tid pc
  + sgn taken * (history_length st + branchAddrBits st + 2).
Proof.
  intros Hi Hab Hlb Hg Hb Hq Eg El Ep Ht.
  pose proof (inv_path_at _ _ _ _ _ Hi Hq) as Fq.
  destruct Hi as [C _ _ _].
  pose proof (u32_range (p_branchAddrBits p)) as Ra.
  rewrite <- (cfg_ab _ _ C) in Ra.
  pose proof (u32_range (u32 (p_globalHistoryBits p)
                         + u32 (p_localHistoryBits p))) as Rh.
  rewrite <- (cfg_hl _ _ C) in Rh.
  assert (pcMask st = Z.ones (branchAddrBits st)) as Hpm.
  { rewrite (cfg_pcmask _ _ C), mask32_ones by lia. f_equal. lia. }
  pose proof (train_wget _ _ _ _ _ Ht) as Hd.
  pose proof (train_inv _ _ _ _ _ Ht)
    as (hw1 & sh & hw2 & aw1 & aw2 & _ & Hsh & Hh2 & _ & Ha2 & Est).
  assert (Z.lor sh (u64 (h_local s)) = snapshot_history_reg st s) as Hreg.
  { unfold shl64 in Hsh. destruct (_ && _); [|discriminate].
    by injection Hsh as <-. }
  rewrite Hreg, Ep in Hh2. rewrite Ep in Ha2.
  assert (∀ j, spec_visited st2 tid j = spec_visited st tid j) as Hv
    by (by subst st2).
  assert (spec_combined_history st2 tid pc = spec_combined_history st tid pc)
    as Hc by (by subst st2).
  assert (history_length st2 = history_length st ∧
          branchAddrBits st2 = branchAddrBits st ∧
          spec_bucket st2 pc = spec_bucket st pc) as (Ehl & Eab & Ebk)
    by (by subst st2).
  assert (∀ j a, vat q (j - 1) = Some a → spec_visited st tid j = a ∧ u32 a = a)
    as Hvis.
  { intros j a Ha. split.
    - unfold spec_visited. rewrite Hq. simpl. by rewrite Ha.
    - apply u32_id. apply vat_Some in Ha as [_ Ha].
      by apply (Forall_lookup_1 _ _ _ _ Fq Ha). }
  unfold spec_y_total, spec_y_hist, spec_y_addr, sum_from_1.
  rewrite Ehl, Eab, Ebk, Hc. unfold spec_bucket.
  destruct (Hd (Z.land pc (pcMask st)) 0) as [Eh0 Ea0].
  rewrite !Z.eqb_refl in Eh0, Ea0. simpl in Eh0, Ea0.
  rewrite Eh0, Ea0.
  rewrite <- (Z2Nat.id (history_length st)) at 1 3 by lia.
  rewrite <- (Z2Nat.id (branchAddrBits st)) at 1 3 by lia.
  rewrite (sum_shift
             (λ j, signed (wget (historyWeightTable st) (spec_visited st tid j) j)
                     (Z.testbit (spec_combined_history st tid pc) (j - 1)))
             _ (sgn taken)); cycle 1.
  { intros j Hj. cbv beta. rewrite Hv.
    destruct (train_loop_path _ _ _ _ _ _ _ Hh2 j Hj) as [a Ha].
    pose proof (train_loop_range _ _ _ _ _ _ _ Hh2 j Hj) as H64.
    destruct (Hvis j a Ha) as [-> Hu].
    destruct (Hd a j) as [E _]. rewrite E. rewrite Ep.
    replace (j =? 0) with false by (symmetry; apply Z.eqb_neq; lia).
    replace ((1 <=? j) && (j <=? history_length st)) with true
      by (symmetry; apply andb_true_iff; rewrite !Z.leb_le; lia).
    rewrite andb_false_r, Z.add_0_r. unfold step_delta.
    rewrite Ha, Hu, Z.eqb_refl.
    rewrite (snapshot_reg_bit p st tid pc g bv s (j - 1)) by done.
    apply signed_step. }
  rewrite (sum_shift
             (λ j, signed (wget (addrWeightTable st) (spec_visited st tid j) j)
                     (Z.testbit pc (j - 1)))
             (λ j, signed (wget (addrWeightTable st2) (spec_visited st2 tid j) j)
                     (Z.testbit pc (j - 1)))
             (sgn taken)); cycle 1.
  { intros j Hj. cbv beta. rewrite Hv.
    destruct (train_loop_path _ _ _ _ _ _ _ Ha2 j Hj) as [a Ha].
    destruct (Hvis j a Ha) as [-> Hu].
    destruct (Hd a j) as [_ E]. rewrite E. rewrite Ep.
    replace (j =? 0) with false by (symmetry; apply Z.eqb_neq; lia).
    replace ((1 <=? j) && (j <=? branchAddrBits st)) with true
      by (symmetry; apply andb_true_iff; rewrite !Z.leb_le; lia).
    rewrite andb_false_r, Z.add_0_r. unfold step_delta.
    rewrite Ha, Hu, Z.eqb_refl.
    rewrite Hpm, bucket_bit by lia.
    apply signed_step. }
  rewrite !Z2Nat.id by lia. lia.
Qed.

(** The record behind the handle after [lookup] and [updateHistories]
    still holds the state from before the advance. *)
Lemma advanced_snapshot_fields st hp tid pc b h st1 hp1 uncond taken
    h2 st2 hp2 :
  lookup st hp tid pc = Some (b, h, st1, hp1) →
  updateHistories st1 hp1 tid pc uncond taken h = Some (h2, st2, hp2) →
  ∃ s g bv q ghr bht ptab,
    snapshot_of hp2 h2 = Some s ∧
    vat (globalHistoryReg st) tid = Some g ∧
    vat (branchHistoryTable st) (Z.land pc (pcMask st)) = Some bv ∧
    vat (pathTable st) tid = Some q ∧
    h_globalHistoryReg s = g ∧
    h_local s = s32 (Z.land (u32 bv) (localMask st)) ∧
    h_path s = q ∧
    st2 = with_history st ghr bht ptab.
Proof.
  intros Hlk Hadv.
  apply lookup_inv in Hlk
    as (g & bv & q & y & Hg & Hb & Hq & _ & Eh & Est & Ehp).
  subst h st1 hp1.
  apply updateHistories_inv in Hadv; simpl in Hadv.
  destruct Hadv as (hp1 & g' & b' & q' & q1 & Hg' & Hb' & Hq' & H1 & H2 & ->).
  assert (g' = g) as -> by congruence.
  assert (b' = bv) as -> by congruence.
  assert (q' = q) as -> by congruence.
  assert (∃ l y2, h2 = Some l ∧
            hp1 !! l = Some (new_BPHistory g
                               (s32 (Z.land (u32 bv) (localMask st))) q
                               (u32 (Z.land pc (pcMask st))) y2))
    as (l & y2 & -> & Hl).
  { destruct uncond; destruct H1 as [-> ->]; eexists _, _;
      (split; [reflexivity|]); apply lookup_insert_eq. }
  destruct (_ =? _).
  - destruct H2 as (l' & s' & back & [= <-] & Hs' & _ & _ & ->).
    rewrite Hl in Hs'. injection Hs' as <-.
    eexists _, g, bv, q, _, _, _. split; [simpl; apply lookup_insert_eq|].
    repeat split; done.
  - destruct H2 as [_ ->].
    eexists _, g, bv, q, _, _, _. split; [exact Hl|]. repeat split; done.
Qed.

(** X16 ([update] trains against the history that [lookup] saw).  With
    at most 31 local history bits, the history register that [update]
    rebuilds from the snapshot of a branch that was predicted and
    advanced has, in each of its 64 bits, the bit of the combined history
    of the state in which the branch was predicted, not of the advanced
    one. *)
Theorem update_sees_lookup_history p st hp tid pc b h st1 hp1 uncond taken
    h2 st2 hp2 :
  reachable p st hp →
  localHistoryBits st <= 31 →
  lookup st hp tid pc = Some (b, h, st1, hp1) →
  updateHistories st1 hp1 tid pc uncond taken h = Some (h2, st2, hp2) →
  ∃ s, snapshot_of hp2 h2 = Some s ∧
       ∀ i, 0 <= i < 64 →
            Z.testbit (snapshot_history_reg st2 s) i =
            Z.testbit (spec_combined_history st tid pc) i.
Proof.
  intros Hr Hlb Hlk Hadv. apply reachable_inv in Hr as [C _ _ _].
  destruct (advanced_snapshot_fields _ _ _ _ _ _ _ _ _ _ _ _ _ Hlk Hadv)
    as (s & g & bv & q & ghr & bht & ptab & Hs & Hg & Hb & Hq & Eg & El & Ep
        & ->).
  exists s. split; [done|]. intros i Hi.
  change (snapshot_history_reg (with_history st ghr bht ptab) s)
    with (snapshot_history_reg st s).
  by eapply snapshot_reg_bit.
Qed.

(** X17 (one training moves the score by the number of inputs).  In a
    reachable world with at most 32 address bits and 31 local history
    bits, when [update] fires on the snapshot that [lookup] just made,
    the next [lookup] at the same thread and address records the old score
    plus (outcome taken) or minus (not taken)
    [history_length + branchAddrBits + 2]. *)
Theorem training_moves_score p st hp tid pc b h st1 hp1 s taken squashed
    h' st2 hp2 b2 h2 st3 hp3 :
  reachable p st hp →
  branchAddrBits st <= 32 →
  localHistoryBits st <= 31 →
  lookup st hp tid pc = Some (b, h, st1, hp1) →
  snapshot_of hp1 h = Some s →
  fires s squashed = true →
  update st1 hp1 tid pc taken h squashed = Some (h', st2, hp2) →
  lookup st2 hp2 tid pc = Some (b2, h2, st3, hp3) →
  ∃ s2, snapshot_of hp3 h2 = Some s2 ∧
        h_last_y s2 =
        h_last_y s + sgn taken * (history_length st + branchAddrBits st + 2).
Proof.
  intros Hr Hab Hlb Hlk Hs Hf Hup Hlk2. apply reachable_inv in Hr as Hi.
  pose proof (inv_lookup _ _ _ _ _ _ _ _ _ Hi Hlk) as Hi1.
  pose proof (inv_update _ _ _ _ _ _ _ _ _ _ _ Hi1 Hup) as Hi2.
  destruct (lookup_records_total _ _ _ _ _ _ _ _ _ Hi Hab Hlk)
    as (s' & Hs' & Hy).
  assert (s' = s) as -> by congruence.
  pose proof (update_train _ _ _ _ _ _ _ _ _ _ _ Hs Hup) as Ht.
  rewrite Hf in Ht.
  pose proof (lookup_inv _ _ _ _ _ _ _ _ Hlk)
    as (g & bv & q & y & Hg & Hb & Hq & _ & Eh & Est & Ehp).
  subst h st1 hp1. simpl in Hs. rewrite lookup_insert_eq in Hs.
  injection Hs as <-.
  assert (branchAddrBits st2 = branchAddrBits st) as Eab.
  { apply train_frame in Ht. by rewrite Ht. }
  destruct (lookup_records_total _ _ _ _ _ _ _ _ _ Hi2 ltac:(lia) Hlk2)
    as (s2 & Hs2 & Hy2).
  exists s2. split; [done|]. rewrite Hy2, Hy.
  eapply trained_score; try done; reflexivity.
Qed.

(** X18 (a mispredicted branch trains the score towards the outcome).
    In a reachable world with at most 32 address bits and 31 local
    history bits, after a branch was predicted and advanced, trained with
    [squashed] set and then squashed, the next [lookup] at the same thread
    and address records the score of the first prediction plus (outcome
    taken) or minus (not taken) [history_length + branchAddrBits + 2]. *)
Theorem squashed_branch_trains_score p st hp tid pc b h st1 hp1 s
    uncond taken0 h2 st2 hp2 taken h3 st3 hp3 h4 st4 hp4 b5 h5 st5 hp5 :
  reachable p st hp →
  branchAddrBits st <= 32 →
  localHistoryBits st <= 31 →
  lookup st hp tid pc = Some (b, h, st1, hp1) →
  snapshot_of hp1 h = Some s →
  updateHistories st1 hp1 tid pc uncond taken0 h = Some (h2, st2, hp2) →
  update st2 hp2 tid pc taken h2 true = Some (h3, st3, hp3) →
  squash st3 hp3 tid h3 = Some (h4, st4, hp4) →
  lookup st4 hp4 tid pc = Some (b5, h5, st5, hp5) →
  ∃ s5, snapshot_of hp5 h5 = Some s5 ∧
        h_last_y s5 =
        h_last_y s + sgn taken * (history_length st + branchAddrBits st + 2).
Proof.
  intros Hr Hab Hlb Hlk Hs Hadv Hup Hsq Hlk5. apply reachable_inv in Hr as Hi.
  pose proof (inv_lookup _ _ _ _ _ _ _ _ _ Hi Hlk) as Hi1.
  pose proof (inv_updateHistories _ _ _ _ _ _ _ _ _ _ _ Hi1 Hadv) as Hi2.
  pose proof (inv_update _ _ _ _ _ _ _ _ _ _ _ Hi2 Hup) as Hi3.
  pose proof (inv_squash _ _ _ _ _ _ _ _ Hi3 Hsq) as Hi4.
  destruct (lookup_records_total _ _ _ _ _ _ _ _ _ Hi Hab Hlk)
    as (s' & Hs' & Hy).
  assert (s' = s) as -> by congruence.
  destruct (predict_advance_squash _ _ _ _ _ _ _ _ _ _ _ _ _ _ Hi Hlk Hadv)
    as (_ & l2 & s2 & E2 & _ & Hs2 & _ & Hsq2).
  destruct (advanced_snapshot_fields _ _ _ _ _ _ _ _ _ _ _ _ _ Hlk Hadv)
    as (s2' & g & bv & q & ghr & bht & ptab & Hs2' & Hg & Hb & Hq & Eg & El
        & Ep & Est2).
  subst h2. simpl in Hs2'. assert (s2' = s2) as -> by congruence.
  pose proof (update_inv _ _ _ _ _ _ _ _ _ _ Hup)
    as (l & su & [= <-] & Hl & Ht & [-> ->]).
  assert (su = s2) as -> by congruence.
  unfold fires in Ht. simpl in Ht.
  assert (pcMask st2 = pcMask st) as Hm by (by subst st2).
  rewrite Hm in Ht. rewrite Est2, train_with_history in Ht.
  destruct (train st s2 (Z.land pc (pcMask st)) taken) as [stT|] eqn:HtT;
    [|discriminate].
  simpl in Ht. injection Ht as <-.
  (* the squash gives back the history of [st] with the trained weights *)
  assert (st4 = stT) as ->.
  { pose proof (train_frame _ _ _ _ _ HtT) as EstT.
    assert (with_history stT ghr bht ptab =
            set_addrWeightTable
              (set_historyWeightTable st2 (historyWeightTable stT))
              (addrWeightTable stT)) as Ew.
    { rewrite Est2. rewrite EstT at 1. reflexivity. }
    rewrite Ew, squash_with_weights, Hsq2 in Hsq. simpl in Hsq.
    injection Hsq as _ <- _. rewrite EstT at 2. by destruct st. }
  assert (branchAddrBits stT = branchAddrBits st) as Eab.
  { apply train_frame in HtT. by rewrite HtT. }
  destruct (lookup_records_total _ _ _ _ _ _ _ _ _ Hi4 ltac:(lia) Hlk5)
    as (s5 & Hs5 & Hy5).
  exists s5. split; [done|]. rewrite Hy5, Hy.
  eapply trained_score; try done.
Qed.

(** ** Calls with defined behaviour *)

(** X19 (a whole round has defined behaviour).  From valid parameters,
    along the calling protocol, for a valid thread id and weights within
    [-B, B] with [(history_length + branchAddrBits + 2) * B <= INT_MAX] and
    [B < INT_MAX]: [lookup] returns, [updateHistories] on its handle
    returns, and on the world after the advance both [squash] and
    [update] (either outcome, squashed or not) on that handle return. *)
Theorem protocol_round_defined p st hp tid pc uncond taken B :
  params_ok p → protocol_run p st hp →
  0 <= tid < Z.of_nat (length (globalHistoryReg st)) →
  0 <= B < INT_MAX →
  (history_length st + branchAddrBits st + 2) * B <= INT_MAX →
  weights_within B (historyWeightTable st) →
  weights_within B (addrWeightTable st) →
  ∃ b h hp1 h2 st2 hp2,
    lookup st hp tid pc = Some (b, h, st, hp1) ∧
    updateHistories st hp1 tid pc uncond taken h = Some (h2, st2, hp2) ∧
    is_Some (squash st2 hp2 tid h2) ∧
    ∀ outcome squashed, is_Some (update st2 hp2 tid pc outcome h2 squashed).
Proof.
  intros Hp Hr Ht HB Hsum Hh Ha.
  destruct (predict_advance_defined p st hp tid pc uncond taken B Hp Hr Ht
              ltac:(lia) Hsum Hh Ha)
    as (b & h & hp1 & h2 & st2 & hp2 & Hlk & Hadv & Hsq).
  exists b, h, hp1, h2, st2, hp2.
  split; [done|]. split; [done|]. split; [done|].
  intros outcome squashed.
  assert (protocol_run p st2 hp2) as Hr2.
  { eapply run_updateHistories; [|exact Hadv].
    eapply run_lookup; [exact Hr | exact Hlk]. }
  destruct Hsq as [[[h4 st4] hp4] Hsq].
  apply squash_inv in Hsq as (l & s & _ & _ & E & Hl & _).
  pose proof (updateHistories_inv _ _ _ _ _ _ _ _ _ _ Hadv) as Hinv.
  simpl in Hinv.
  destruct Hinv as (? & ? & ? & ? & ? & _ & _ & _ & _ & _ & Est2).
  apply (update_defined st2 hp2 tid pc outcome h2 squashed B).
  - by apply (protocol_world_shape p).
  - subst h2. simpl. by rewrite Hl.
  - lia.
  - by rewrite Est2.
  - by rewrite Est2.
Qed.

(** X20 (a thread id outside the object is undefined behaviour).  The
    three member functions that index [globalHistoryReg] and [pathTable]
    by the thread id have no defined result for a thread id that is
    negative or not below the number of threads, whatever the other
    arguments are. *)
Theorem thread_out_of_range_undefined st hp tid :
  ¬ (0 <= tid < Z.of_nat (length (globalHistoryReg st))) →
  (∀ pc, lookup st hp tid pc = None) ∧
  (∀ pc uncond taken h, updateHistories st hp tid pc uncond taken h = None) ∧
  (∀ h, squash st hp tid h = None).
Proof.
  intros Hn. split; [|split].
  - intros pc. destruct (lookup st hp tid pc) as [[[[b h] st'] hp']|] eqn:E;
      [|done].
    apply lookup_inv in E as (g & _ & _ & _ & Hg & _). apply vat_lt in Hg.
    contradiction.
  - intros pc uncond taken h.
    destruct (updateHistories st hp tid pc uncond taken h)
      as [[[h' st'] hp']|] eqn:E; [|done].
    apply updateHistories_inv in E. simpl in E.
    destruct E as (? & g & ? & ? & ? & Hg & _). apply vat_lt in Hg.
    contradiction.
  - intros h. destruct (squash st hp tid h) as [[[h' st'] hp']|] eqn:E;
      [|done].
    apply squash_inv in E as (? & ? & ? & ? & _ & _ & Ht & _).
    contradiction.
Qed.

(** ** The prediction rule above 32 address bits *)

Lemma sum_from_1_ext n (f g : Z → Z) :
  (∀ j, 1 <= j <= n → f j = g j) → sum_from_1 n f = sum_from_1 n g.
Proof.
  intros H. unfold sum_from_1. f_equal. apply list_fmap_ext.
  intros i j [-> Hi]%lookup_seqZ. apply H. lia.
Qed.

Lemma weights_within_of_wget B wt :
  (∀ r c, - B <= wget wt r c <= B) → weights_within B wt.
Proof.
  intros H. apply Forall_lookup_2. intros r row Hrow.
  apply Forall_lookup_2. intros c w Hw.
  specialize (H (Z.of_nat r) (Z.of_nat c)). unfold wget in H.
  assert (vat wt (Z.of_nat r) = Some row) as Hr
    by (apply vat_Some; rewrite Nat2Z.id; split; (lia || done)).
  assert (vat row (Z.of_nat c) = Some w) as Hc
    by (apply vat_Some; rewrite Nat2Z.id; split; (lia || done)).
  rewrite Hr in H. simpl in H. rewrite Hc in H. exact H.
Qed.

Lemma train_grows_weights st history new_pc taken st' B :
  0 <= B →
  weights_within B (historyWeightTable st) →
  weights_within B (addrWeightTable st) →
  train st history new_pc taken = Some st' →
  weights_within (B + 1) (historyWeightTable st') ∧
  weights_within (B + 1) (addrWeightTable st').
Proof.
  intros HB Wh Wa Ht. pose proof (train_wget _ _ _ _ _ Ht) as Hd.
  assert (∀ r c hl path reg,
            -1 <= (if (r =? new_pc) && (c =? 0) then sgn taken else 0) +
                  (if (1 <=? c) && (c <=? hl)
                   then step_delta path reg taken r c else 0) <= 1) as Hb.
  { intros r c hl path reg.
    pose proof (step_delta_bound path reg taken r c).
    destruct (c =? 0) eqn:E0.
    - apply Z.eqb_eq in E0. subst c. simpl. rewrite andb_true_r.
      unfold sgn. destruct (r =? new_pc), taken; simpl; lia.
    - rewrite andb_false_r. simpl. destruct (_ && _); lia. }
  split; apply weights_within_of_wget; intros r c.
  - destruct (Hd r c) as [E _].
    pose proof (weights_within_wget B _ r c HB Wh).
    specialize (Hb r c (history_length st) (h_path history)
                  (snapshot_history_reg st history)). lia.
  - destruct (Hd r c) as [_ E].
    pose proof (weights_within_wget B _ r c HB Wa).
    specialize (Hb r c (branchAddrBits st) (h_path history) new_pc). lia.
Qed.

(** For every width [lookup] records the history score of the
    specification plus the address score over the bits of the bucket. *)
Lemma lookup_records_bucket_score p st hp tid pc b h st' hp' :
  inv p st hp →
  lookup st hp tid pc = Some (b, h, st', hp') →
  b = (0 <=? spec_y_hist st tid pc + bucket_y_addr st tid pc) ∧
  ∃ s, snapshot_of hp' h = Some s ∧
       h_last_y s = spec_y_hist st tid pc + bucket_y_addr st tid pc.
Proof.
  intros [C _ P _] H.
  pose proof (u32_range (p_branchAddrBits p)) as Ra.
  rewrite <- (cfg_ab _ _ C) in Ra.
  pose proof (u32_range (u32 (p_globalHistoryBits p)
                         + u32 (p_localHistoryBits p))) as Rh.
  rewrite <- (cfg_hl _ _ C) in Rh.
  pose proof (u32_range (p_localHistoryBits p)) as Rl.
  rewrite <- (cfg_lb _ _ C) in Rl.
  assert (localMask st = Z.ones (Z.min (localHistoryBits st) 32)) as Hlm.
  { rewrite (cfg_lmask _ _ C). apply mask32_ones. lia. }
  unfold lookup in H.
  apply bind_Some in H as (g & Eg & H).
  apply bind_Some in H as (bv & Eb & H).
  apply bind_Some in H as (row0 & Erow0 & H).
  apply bind_Some in H as (y0 & Ey0 & H).
  apply bind_Some in H as (sh & Esh & H).
  apply bind_Some in H as (path & Epath & H).
  apply bind_Some in H as (y_hist & Ehist & H).
  apply bind_Some in H as (arow0 & Earow0 & H).
  apply bind_Some in H as (a0 & Ea0 & H).
  apply bind_Some in H as (y_addr & Eaddr & H).
  apply bind_Some in H as (y & Ey & H).
  injection H as <- <- <- <-.
  assert (Forall addr32 path) as Fp.
  { apply vat_Some in Epath as [_ Epath].
    by eapply (Forall_lookup_1 _ _ _ _ P). }
  assert (sh = u64 (Z.shiftl (Z.land g (globalHistoryMask st))
                             (localHistoryBits st))) as ->.
  { unfold shl64 in Esh. destruct (_ && _); [|discriminate].
    by injection Esh as <-. }
  assert (∀ j a, vat path (j - 1) = Some a → spec_visited st tid j = a)
    as Hvis.
  { intros j a Ha. unfold spec_visited. rewrite Epath. simpl. by rewrite Ha. }
  eapply (score_loop_sum _ _ _
            (λ j, signed (wget (historyWeightTable st) (spec_visited st tid j) j)
                         (Z.testbit (spec_combined_history st tid pc) (j - 1))))
    in Ehist as [-> _]; [|assumption|]; cycle 1.
  { intros j a Hj Hj64 Ha. rewrite (Hvis j a Ha). f_equal.
    unfold spec_combined_history, spec_bucket. rewrite Eb, Eg. simpl.
    rewrite Hlm. symmetry. apply history_reg_bit; lia. }
  eapply (score_loop_sum _ _ _
            (λ j, signed (wget (addrWeightTable st) (spec_visited st tid j) j)
                         (Z.testbit (spec_bucket st pc) (j - 1))))
    in Eaddr as [-> _]; [|assumption|]; cycle 1.
  { intros j a Hj Hj64 Ha. by rewrite (Hvis j a Ha). }
  assert (y = spec_y_hist st tid pc + bucket_y_addr st tid pc) as ->.
  { unfold int_add in Ey. destruct (in_int _); [|discriminate].
    injection Ey as <-.
    unfold spec_y_hist, bucket_y_addr, sum_from_1, spec_bucket, wget.
    rewrite Erow0, Earow0. simpl. rewrite Ey0, Ea0. simpl.
    rewrite !Z2Nat.id by lia. lia. }
  split; [done|].
  eexists. split; [simpl; apply lookup_insert_eq|]. reflexivity.
Qed.

(** C4, as the specification states it, fails without the bound on the
    address width.  A
    predictor with no history bits and 33 address bits is built; the
    branch at address 0 is predicted and trained as taken; the next
    [lookup], at [2 ^ 32 + 65535], answers taken (score 1 over the bits
    of the bucket 65535), where the total over the low 33 bits of the
    address is -1. *)
Lemma prediction_rule_needs_32_bits :
  ∃ st0 b0 h0 st1 hp1 h1 st2 hp2 h3 st3 hp3,
    PerceptronBP_new (mkParams 0 0 33 1) = Some st0 ∧
    lookup st0 ∅ 0 0 = Some (b0, h0, st1, hp1) ∧
    update st1 hp1 0 0 true h0 false = Some (h1, st2, hp2) ∧
    reachable (mkParams 0 0 33 1) st2 hp2 ∧
    lookup st2 hp2 0 (2 ^ 32 + 65535) = Some (true, h3, st3, hp3) ∧
    spec_y_total st2 0 (2 ^ 32 + 65535) = -1 ∧
    ¬ (true = true ↔ 0 <= spec_y_total st2 0 (2 ^ 32 + 65535)).
Proof.
  set (p := mkParams 0 0 33 1). set (pc := 2 ^ 32 + 65535).
  assert (params_ok p) as Hp by (constructor; simpl; lia).
  destruct (new_defined p Hp) as [st0 Hnew].
  pose proof (world_shape_new _ _ Hp Hnew) as Hw0.
  pose proof (new_fresh _ _ Hnew) as (Hghr & _ & Wh0 & Wa0).
  pose proof (new_path_zero _ _ Hnew) as (_ & Hz & _).
  pose proof (reach_new p st0 Hnew) as R0.
  pose proof (reachable_inv _ _ _ R0) as [C0 _ _ _].
  assert (branchAddrBits st0 = 33) as Hab0
    by (rewrite (cfg_ab _ _ C0); reflexivity).
  assert (history_length st0 = 0) as Hhl0
    by (rewrite (cfg_hl _ _ C0); reflexivity).
  assert (pcMask st0 = 2 ^ 32 - 1) as Hpm0
    by (rewrite (cfg_pcmask _ _ C0), Hab0; reflexivity).
  assert (0 <= 0 < Z.of_nat (length (globalHistoryReg st0))) as Ht0.
  { rewrite Hghr, length_replicate. vm_compute. split; [discriminate|done]. }
  (* the first prediction *)
  destruct (lookup_bounded st0 ∅ 0 0 0 Hw0 Ht0 ltac:(lia)
              ltac:(unfold INT_MAX; lia) Wh0 Wa0)
    as (h0 & hp1 & s0 & Hlk0 & Hs0 & Hy0).
  assert (h_last_y s0 = 0) as Ey0 by lia.
  pose proof (world_shape_lookup _ _ _ _ _ _ _ _ Hw0 Hlk0) as Hw1.
  pose proof (reach_lookup _ _ _ _ _ _ _ _ _ R0 Hlk0) as R1.
  (* its training *)
  destruct (update_defined st0 hp1 0 0 true h0 false 0 Hw1
              (mk_is_Some _ _ Hs0) ltac:(unfold INT_MAX; lia) Wh0 Wa0)
    as [[[h1 st2] hp2] Hup].
  pose proof (world_shape_update _ _ _ _ _ _ _ _ _ _ Hw1 Hup) as Hw2.
  pose proof (reach_update _ _ _ _ _ _ _ _ _ _ _ R1 Hup) as R2.
  pose proof (update_train _ _ _ _ _ _ _ _ _ _ _ Hs0 Hup) as Ht.
  unfold fires in Ht. rewrite Ey0, Z.land_0_l in Ht. simpl in Ht.
  pose proof (train_wget _ _ _ _ _ Ht) as Hwg.
  pose proof (train_grows_weights _ _ _ _ _ 0 ltac:(lia) Wh0 Wa0 Ht)
    as [Wh2 Wa2].
  pose proof (train_frame _ _ _ _ _ Ht) as Hfr.
  assert (globalHistoryReg st2 = globalHistoryReg st0 ∧
          pathTable st2 = pathTable st0 ∧
          pcMask st2 = pcMask st0 ∧
          history_length st2 = history_length st0 ∧
          branchAddrBits st2 = branchAddrBits st0)
    as (Eg2 & Ep2 & Em2 & Ehl2 & Eab2) by (rewrite Hfr; done).
  (* the path queue holds 33 zeros, before and after *)
  destruct (thread_ok st0 0 (ws_shape _ _ Hw0) Ht0) as [_ [q Hq]].
  assert (q = replicate 33 0) as ->.
  { apply vat_Some in Hq as Hq'. destruct Hq' as [_ Hq'].
    rewrite (Forall_lookup_1 _ _ _ _ Hz Hq'). unfold path_capacity.
    by rewrite Hab0, Hhl0. }
  assert (h_path s0 = replicate 33 0) as Hps.
  { apply lookup_inv in Hlk0
      as (g & bv & q' & y & _ & _ & Hq' & _ & -> & _ & ->).
    simpl in Hs0. rewrite lookup_insert_eq in Hs0. injection Hs0 as <-.
    change (q' = replicate 33 0). congruence. }
  assert (∀ j, 1 <= j <= 33 → vat (replicate 33 0) (j - 1) = Some 0) as Hrep.
  { intros j Hj. apply vat_Some. split; [lia|].
    apply lookup_replicate_2. lia. }
  assert (∀ j, 1 <= j <= 33 → spec_visited st2 0 j = 0) as Hvis.
  { intros j Hj. unfold spec_visited. rewrite Ep2, Hq.
    change (default 0 (vat (replicate 33 0) (j - 1)) = 0).
    by rewrite (Hrep j Hj). }
  (* the weights after the training *)
  assert (∀ j, 1 <= j <= 33 → wget (addrWeightTable st2) 0 j = -1) as HwA.
  { intros j Hj. destruct (Hwg 0 j) as [_ ->].
    pose proof (weights_within_wget 0 _ 0 j ltac:(lia) Wa0).
    replace (j =? 0) with false by (symmetry; apply Z.eqb_neq; lia).
    replace ((1 <=? j) && (j <=? branchAddrBits st0)) with true
      by (symmetry; apply andb_true_iff; split; apply Z.leb_le; lia).
    unfold step_delta. rewrite Hps, (Hrep j Hj), Z.testbit_0_l. simpl. lia. }
  assert (wget (historyWeightTable st2) 65535 0 = 0 ∧
          wget (addrWeightTable st2) 65535 0 = 0) as [HbH HbA].
  { destruct (Hwg 65535 0) as [-> ->].
    pose proof (weights_within_wget 0 _ 65535 0 ltac:(lia) Wh0).
    pose proof (weights_within_wget 0 _ 65535 0 ltac:(lia) Wa0).
    simpl. lia. }
  assert (spec_bucket st2 pc = 65535) as Hbk
    by (unfold spec_bucket; rewrite Em2, Hpm0; reflexivity).
  (* the second prediction *)
  assert (0 <= 0 < Z.of_nat (length (globalHistoryReg st2))) as Ht2
    by (by rewrite Eg2).
  destruct (lookup_bounded st2 hp2 0 pc 1 Hw2 Ht2 ltac:(lia)
              ltac:(rewrite Ehl2, Eab2, Hhl0, Hab0; unfold INT_MAX; lia)
              Wh2 Wa2)
    as (h3 & hp3 & s3 & Hlk2 & Hs3 & _).
  destruct (lookup_records_bucket_score _ _ _ _ _ _ _ _ _
              (reachable_inv _ _ _ R2) Hlk2)
    as (_ & s3' & Hs3' & Hy3).
  assert (s3' = s3) as -> by congruence.
  assert (spec_y_hist st2 0 pc = 0) as Hhist.
  { unfold spec_y_hist. rewrite Hbk, HbH, Ehl2, Hhl0. reflexivity. }
  assert (bucket_y_addr st2 0 pc = 1) as Haddr.
  { unfold bucket_y_addr. rewrite Hbk, HbA, Eab2, Hab0.
    rewrite (sum_from_1_ext 33 _
               (λ j, signed (-1) (Z.testbit 65535 (j - 1)))).
    - reflexivity.
    - intros j Hj. cbv beta. by rewrite (Hvis j Hj), (HwA j Hj). }
  assert (spec_y_total st2 0 pc = -1) as Htot.
  { unfold spec_y_total. rewrite Hhist. unfold spec_y_addr.
    rewrite Hbk, HbA, Eab2, Hab0.
    rewrite (sum_from_1_ext 33 _
               (λ j, signed (-1) (Z.testbit pc (j - 1)))).
    - reflexivity.
    - intros j Hj. cbv beta. by rewrite (Hvis j Hj), (HwA j Hj). }
  rewrite Hy3, Hhist, Haddr in Hlk2. simpl in Hlk2.
  exists st0, (0 <=? h_last_y s0), h0, st0, hp1, h1, st2, hp2, h3, st2, hp3.
  split; [exact Hnew|]. split; [exact Hlk0|]. split; [exact Hup|].
  split; [exact R2|]. split; [exact Hlk2|]. split; [exact Htot|].
  rewrite Htot. intros [H _]. specialize (H eq_refl). lia.
Qed.

(** ** The further properties at concrete worlds *)

Lemma w_params_ok : params_ok w_p.
Proof. constructor; simpl; lia. Defined.

Lemma w_weights_within :
  weights_within 2 (historyWeightTable w_st) ∧
  weights_within 2 (addrWeightTable w_st).
Proof.
  split; unfold weights_within; simpl;
    repeat (apply List.Forall_cons || apply List.Forall_nil || lia).
Defined.

Lemma stored_masks_keep_low_bits_witness :
  ∃ st, PerceptronBP_new (mkParams 40 2 2 1) = Some st ∧
        globalHistoryBits st = 40 ∧
        Z.land (2 ^ 35 + 5) (globalHistoryMask st) = 5.
Proof.
  pose proof (stored_masks_keep_low_bits (mkParams 40 2 2 1) _ (2 ^ 35 + 5)
                eq_refl) as (_ & _ & _ & H & _).
  eexists. split; [reflexivity|]. split; [reflexivity|].
  rewrite H. vm_compute. reflexivity.
Defined.

Lemma advance_shifts_global_witness :
  ∃ h' st' hp' g',
    updateHistories w_st w_hp 0 1 true false None = Some (h', st', hp') ∧
    vat (globalHistoryReg w_st) 0 = Some 3 ∧
    vat (globalHistoryReg st') 0 = Some g' ∧
    Z.testbit g' 0 = false ∧
    Z.testbit g' 1 = Z.testbit 3 0 ∧
    0 <= g' < 2 ^ globalHistoryBits w_st.
Proof.
  do 4 eexists. split; [vm_compute; reflexivity|].
  split; [vm_compute; reflexivity|]. split; [vm_compute; reflexivity|].
  destruct (advance_shifts_global w_p w_st w_hp 0 1 true false None _ _ _ 3 2
              w_reachable ltac:(simpl; lia) eq_refl eq_refl eq_refl)
    as (H0 & H1 & _ & H3).
  split; [apply H0; simpl; lia|].
  split; [apply (H1 0); simpl; lia | exact H3].
Defined.

Lemma advance_shifts_local_witness :
  ∃ h' st' hp' b',
    updateHistories w_st w_hp 0 1 true false None = Some (h', st', hp') ∧
    vat (branchHistoryTable w_st) (Z.land 1 (pcMask w_st)) = Some 1 ∧
    vat (branchHistoryTable st') (Z.land 1 (pcMask w_st)) = Some b' ∧
    Z.testbit b' 0 = false ∧
    Z.testbit b' 1 = Z.testbit 1 0 ∧
    0 <= b' < 2 ^ localHistoryBits w_st.
Proof.
  do 4 eexists. split; [vm_compute; reflexivity|].
  split; [vm_compute; reflexivity|]. split; [vm_compute; reflexivity|].
  destruct (advance_shifts_local w_p w_st w_hp 0 1 true false None _ _ _ 1 2
              w_reachable ltac:(simpl; lia) eq_refl eq_refl eq_refl)
    as (H0 & H1 & H2).
  split; [apply H0; simpl; lia|].
  split; [apply (H1 0); simpl; lia | apply H2; simpl; lia].
Defined.

Lemma registers_within_masks_witness :
  Forall (λ g, 0 <= g <= globalHistoryMask w_st) (globalHistoryReg w_st) ∧
  map_Forall (λ _ s, 0 <= h_globalHistoryReg s <= globalHistoryMask w_st) w_hp ∧
  Forall (λ b, 0 <= b <= localMask w_st) (branchHistoryTable w_st) ∧
  map_Forall (λ _ s, 0 <= h_local s <= localMask w_st) w_hp.
Proof.
  destruct (registers_within_masks w_p w_st w_hp w_reachable)
    as (H1 & H2 & H3).
  split; [exact H1|]. split; [exact H2|]. apply H3. simpl. lia.
Defined.

Lemma history_calls_frame_witness :
  ∃ ha sta hpa hs sts hps,
    updateHistories w_st w_hp 0 1 true false None = Some (ha, sta, hpa) ∧
    squash w_st w_hp 0 (Some 2%positive) = Some (hs, sts, hps) ∧
    vat (branchHistoryTable sta) 2 = vat (branchHistoryTable w_st) 2 ∧
    weights sta = weights w_st ∧
    vat (branchHistoryTable sts) 2 = vat (branchHistoryTable w_st) 2 ∧
    weights sts = weights w_st.
Proof.
  do 6 eexists. split; [vm_compute; reflexivity|].
  split; [vm_compute; reflexivity|].
  destruct (history_calls_frame w_st w_hp 0 1 true false None _ _ _
              w_st w_hp 0 (Some 2%positive) w_snap2 _ _ _
              eq_refl eq_refl eq_refl)
    as [(_ & Ha & Hwa & _) (_ & Hs & Hws & _)].
  split; [apply Ha; vm_compute; discriminate|]. split; [exact Hwa|].
  split; [apply Hs; vm_compute; discriminate | exact Hws].
Defined.

Lemma uncond_advance_snapshot_witness :
  ∃ h' st' hp' s,
    updateHistories w_st w_hp 0 1 true false None = Some (h', st', hp') ∧
    updateHistories w_st w_hp 0 1 true false (Some 2%positive)
      = Some (h', st', hp') ∧
    snapshot_of hp' h' = Some s ∧
    h_globalHistoryReg s = 3 ∧ h_last_y s = 0 ∧ fires s false = true.
Proof.
  destruct (uncond_advance_snapshot w_st w_hp 0 1 false None _ _ _ eq_refl)
    as (Hany & _ & _ & _ & s & g & b & q & Hs & Hg & _ & _ & Eg & _ & _ & _
        & Hy & Hf).
  do 3 eexists. exists s. split; [reflexivity|].
  split; [apply Hany|]. split; [exact Hs|].
  split; [|split; [exact Hy | apply Hf]].
  rewrite Eg. vm_compute in Hg. congruence.
Defined.

Lemma disposed_handle_is_dead_witness :
  ∃ hu stu hpu hs sts hps,
    update w_st w_hp 0 3 true (Some 2%positive) false = Some (hu, stu, hpu) ∧
    squash w_st w_hp 0 (Some 2%positive) = Some (hs, sts, hps) ∧
    update stu hpu 0 3 true (Some 2%positive) false = None ∧
    squash stu hpu 0 hu = None ∧
    squash sts hps 0 (Some 2%positive) = None ∧
    update sts hps 0 3 true hs true = None.
Proof.
  do 6 eexists. split; [vm_compute; reflexivity|].
  split; [vm_compute; reflexivity|].
  destruct (disposed_handle_is_dead w_st w_hp 0 3 true (Some 2%positive)
              _ _ _ w_st w_hp 0 (Some 2%positive) _ _ _ eq_refl eq_refl)
    as [Hu Hs].
  split; [exact (proj1 (Hu _ 0 3 true false))|].
  split; [exact (proj2 (proj2 (proj2 (Hu _ 0 3 true false))))|].
  split; [exact (proj1 (proj2 (proj2 (Hs _ 0 3 true true))))
         | exact (proj1 (proj2 (Hs _ 0 3 true true)))].
Defined.

Lemma squash_in_reverse_order_witness :
  ∃ bA hA st1 hp1 hA' stA hpA bB hB st2 hp2 hB' stB hpB,
    lookup w_st w_hp 0 1 = Some (bA, hA, st1, hp1) ∧
    updateHistories st1 hp1 0 1 false true hA = Some (hA', stA, hpA) ∧
    lookup stA hpA 0 2 = Some (bB, hB, st2, hp2) ∧
    updateHistories st2 hp2 0 2 false false hB = Some (hB', stB, hpB) ∧
    ∃ st3 hp3 hp4,
      squash stB hpB 0 hB' = Some (None, st3, hp3) ∧
      squash st3 hp3 0 hA' = Some (None, w_st, hp4) ∧
      ∀ l s, w_hp !! l = Some s → hp4 !! l = Some s.
Proof.
  do 14 eexists. split; [vm_compute; reflexivity|].
  split; [vm_compute; reflexivity|].
  split; [vm_compute; reflexivity|].
  split; [vm_compute; reflexivity|].
  eapply (squash_in_reverse_order w_p w_st w_hp 0 1 2
            _ _ _ _ false true _ _ _ _ _ _ _ false false);
    [exact w_reachable | vm_compute; reflexivity | vm_compute; reflexivity
    | vm_compute; reflexivity | vm_compute; reflexivity].
Defined.

Lemma train_then_squash_witness :
  ∃ b h st1 hp1 h2 st2 hp2 h3 st3 hp3,
    lookup w_st w_hp 0 1 = Some (b, h, st1, hp1) ∧
    updateHistories st1 hp1 0 1 false true h = Some (h2, st2, hp2) ∧
    update st2 hp2 0 1 false h2 true = Some (h3, st3, hp3) ∧
    h3 = h2 ∧ hp3 = hp2 ∧
    ∃ st4 hp4,
      squash st3 hp3 0 h3 = Some (None, st4, hp4) ∧
      globalHistoryReg st4 = globalHistoryReg w_st ∧
      branchHistoryTable st4 = branchHistoryTable w_st ∧
      pathTable st4 = pathTable w_st ∧
      weights st4 = weights st3.
Proof.
  do 10 eexists. split; [vm_compute; reflexivity|].
  split; [vm_compute; reflexivity|].
  split; [vm_compute; reflexivity|].
  destruct (train_then_squash w_p w_st w_hp 0 1 _ _ _ _ false true _ _ _
              false _ _ _ w_reachable eq_refl eq_refl eq_refl)
    as (H1 & H2 & st4 & hp4 & H3 & _ & H4 & H5 & H6 & H7).
  split; [exact H1|]. split; [exact H2|]. exists st4, hp4.
  split; [exact H3|]. split; [exact H4|]. split; [exact H5|].
  split; [exact H6 | exact H7].
Defined.

Lemma squash_older_first_witness :
  ∃ bA hA st1 hp1 hA' stA hpA bB hB st2 hp2 hB' stB hpB h3 st3 hp3,
    lookup w_st w_hp 0 1 = Some (bA, hA, st1, hp1) ∧
    updateHistories st1 hp1 0 1 false true hA = Some (hA', stA, hpA) ∧
    lookup stA hpA 0 2 = Some (bB, hB, st2, hp2) ∧
    updateHistories st2 hp2 0 2 false false hB = Some (hB', stB, hpB) ∧
    squash stB hpB 0 hA' = Some (h3, st3, hp3) ∧
    vat (globalHistoryReg st3) 0 = vat (globalHistoryReg w_st) 0 ∧
    vat (pathTable w_st) 0 = Some [3; 2; 1; 0] ∧
    vat (pathTable st3) 0 = Some [1; 3; 2; 0].
Proof.
  do 17 eexists. split; [vm_compute; reflexivity|].
  split; [vm_compute; reflexivity|].
  split; [vm_compute; reflexivity|].
  split; [vm_compute; reflexivity|].
  split; [vm_compute; reflexivity|].
  destruct (squash_older_first w_p w_st w_hp 0 1 2
              _ _ _ _ false true _ _ _ _ _ _ _ false false _ _ _
              [3; 2; 1; 0] 0 _ _ _
              w_protocol_run eq_refl eq_refl eq_refl eq_refl eq_refl eq_refl
              eq_refl)
    as (H1 & _ & H3 & _).
  split; [exact H1|]. split; [reflexivity | exact H3].
Defined.

Lemma squash_without_advance_witness :
  ∃ b h st1 hp1 h2 st2 hp2,
    lookup w_st w_hp 0 1 = Some (b, h, st1, hp1) ∧
    squash st1 hp1 0 h = Some (h2, st2, hp2) ∧
    vat (pathTable st2) 0 = Some [2; 1; 0] ∧
    lookup st2 hp2 0 1 = None.
Proof.
  do 7 eexists. split; [vm_compute; reflexivity|].
  split; [vm_compute; reflexivity|].
  destruct (squash_without_advance w_p w_st w_hp 0 1 _ _ _ _ _ _ _
              [3; 2; 1; 0] w_protocol_run ltac:(vm_compute; reflexivity)
              eq_refl eq_refl eq_refl)
    as (_ & _ & H3 & _ & H5).
  split; [exact H3 | apply H5].
Defined.

Lemma zero_width_advance_undefined_witness :
  ∃ st b h st1 hp1,
    PerceptronBP_new (mkParams 0 0 0 1) = Some st ∧
    lookup st ∅ 0 1 = Some (b, h, st1, hp1) ∧
    updateHistories st1 hp1 0 1 false true h = None ∧
    updateHistories st1 hp1 0 1 true true None = None.
Proof.
  pose proof (run_new (mkParams 0 0 0 1) _ eq_refl) as R.
  eapply (run_lookup _ _ _ 0 1) in R; [|vm_compute; reflexivity].
  do 5 eexists. split; [reflexivity|].
  split; [vm_compute; reflexivity|].
  split;
    apply (zero_width_advance_undefined (mkParams 0 0 0 1) _ _ 0 1 _ true _ R);
    vm_compute; reflexivity.
Defined.

Lemma score_bounded_by_weights_witness :
  ∃ b h hp' s,
    lookup w_st w_hp 0 1 = Some (b, h, w_st, hp') ∧
    snapshot_of hp' h = Some s ∧
    Z.abs (h_last_y s) <= 16.
Proof.
  destruct w_weights_within as [Hh Ha].
  destruct (score_bounded_by_weights w_p w_st w_hp 0 1 2 w_params_ok
              w_protocol_run ltac:(simpl; lia) ltac:(lia)
              ltac:(vm_compute; discriminate) Hh Ha)
    as (b & h & hp' & s & H1 & H2 & _ & H3).
  exists b, h, hp', s. split; [exact H1|]. split; [exact H2 | exact H3].
Defined.

Lemma new_predictor_predicts_taken_witness :
  PerceptronBP_new w_p = Some w_st0 ∧
  ∃ h hp' s,
    lookup w_st0 ∅ 0 1 = Some (true, h, w_st0, hp') ∧
    snapshot_of hp' h = Some s ∧
    h_last_y s = 0.
Proof.
  split; [reflexivity|].
  destruct (new_predictor_predicts_taken w_p w_st0 0 1 w_params_ok eq_refl
              ltac:(vm_compute; split; [discriminate | reflexivity]))
    as (h & hp' & s & H2 & H3 & H4 & _).
  exists h, hp', s. split; [exact H2|]. split; [exact H3 | exact H4].
Defined.

Lemma update_grows_weights_by_one_witness :
  ∃ h' st' hp',
    update w_st w_hp 0 3 true (Some 2%positive) false = Some (h', st', hp') ∧
    weights_within 3 (historyWeightTable st') ∧
    weights_within 3 (addrWeightTable st').
Proof.
  do 3 eexists. split; [vm_compute; reflexivity|].
  destruct w_weights_within as [Hh Ha].
  apply (update_grows_weights_by_one w_st w_hp 0 3 true (Some 2%positive)
           false _ _ _ 2 ltac:(lia) Hh Ha eq_refl).
Defined.

Lemma update_sees_lookup_history_witness :
  ∃ b h st1 hp1 h2 st2 hp2 s,
    lookup w_st w_hp 0 1 = Some (b, h, st1, hp1) ∧
    updateHistories st1 hp1 0 1 false false h = Some (h2, st2, hp2) ∧
    snapshot_of hp2 h2 = Some s ∧
    Z.testbit (snapshot_history_reg st2 s) 0 =
    Z.testbit (spec_combined_history w_st 0 1) 0.
Proof.
  destruct (update_sees_lookup_history w_p w_st w_hp 0 1 _ _ _ _ false false
              _ _ _ w_reachable ltac:(simpl; lia) eq_refl eq_refl)
    as (s & Hs & Hbit).
  do 7 eexists. exists s. split; [reflexivity|]. split; [reflexivity|].
  split; [exact Hs | apply Hbit; lia].
Defined.

Lemma training_moves_score_witness :
  ∃ b h st1 hp1 s h' st2 hp2 b2 h2 st3 hp3 s2,
    lookup w_st w_hp 0 1 = Some (b, h, st1, hp1) ∧
    snapshot_of hp1 h = Some s ∧
    update st1 hp1 0 1 false h false = Some (h', st2, hp2) ∧
    lookup st2 hp2 0 1 = Some (b2, h2, st3, hp3) ∧
    snapshot_of hp3 h2 = Some s2 ∧
    h_last_y s2 = h_last_y s - 8.
Proof.
  destruct (training_moves_score w_p w_st w_hp 0 1 _ _ _ _ _ false false
              _ _ _ _ _ _ _ w_reachable ltac:(simpl; lia) ltac:(simpl; lia)
              eq_refl eq_refl eq_refl eq_refl eq_refl)
    as (s2 & Hs2 & Hy).
  do 12 eexists. exists s2. split; [reflexivity|]. split; [reflexivity|].
  split; [reflexivity|]. split; [reflexivity|]. split; [exact Hs2 | exact Hy].
Defined.

Lemma squashed_branch_trains_score_witness :
  ∃ b h st1 hp1 s h2 st2 hp2 h3 st3 hp3 h4 st4 hp4 b5 h5 st5 hp5 s5,
    lookup w_st w_hp 0 1 = Some (b, h, st1, hp1) ∧
    snapshot_of hp1 h = Some s ∧
    updateHistories st1 hp1 0 1 false true h = Some (h2, st2, hp2) ∧
    update st2 hp2 0 1 false h2 true = Some (h3, st3, hp3) ∧
    squash st3 hp3 0 h3 = Some (h4, st4, hp4) ∧
    lookup st4 hp4 0 1 = Some (b5, h5, st5, hp5) ∧
    snapshot_of hp5 h5 = Some s5 ∧
    h_last_y s5 = h_last_y s - 8.
Proof.
  destruct (squashed_branch_trains_score w_p w_st w_hp 0 1 _ _ _ _ _
              false true _ _ _ false _ _ _ _ _ _ _ _ _ _
              w_reachable ltac:(simpl; lia) ltac:(simpl; lia)
              eq_refl eq_refl eq_refl eq_refl eq_refl eq_refl)
    as (s5 & Hs5 & Hy).
  do 18 eexists. exists s5. split; [reflexivity|]. split; [reflexivity|].
  split; [reflexivity|]. split; [reflexivity|]. split; [reflexivity|].
  split; [reflexivity|]. split; [exact Hs5 | exact Hy].
Defined.

Lemma protocol_round_defined_witness :
  ∃ b h hp1 h2 st2 hp2,
    lookup w_st w_hp 0 1 = Some (b, h, w_st, hp1) ∧
    updateHistories w_st hp1 0 1 false true h = Some (h2, st2, hp2) ∧
    is_Some (squash st2 hp2 0 h2) ∧
    is_Some (update st2 hp2 0 1 false h2 true).
Proof.
  destruct w_weights_within as [Hh Ha].
  destruct (protocol_round_defined w_p w_st w_hp 0 1 false true 2 w_params_ok
              w_protocol_run ltac:(simpl; lia)
              ltac:(vm_compute; split; [discriminate | reflexivity])
              ltac:(vm_compute; discriminate) Hh Ha)
    as (b & h & hp1 & h2 & st2 & hp2 & H1 & H2 & H3 & H4).
  exists b, h, hp1, h2, st2, hp2. split; [exact H1|]. split; [exact H2|].
  split; [exact H3 | apply H4].
Defined.

Lemma thread_out_of_range_undefined_witness :
  lookup w_st w_hp 1 1 = None ∧
  updateHistories w_st w_hp 1 1 true true None = None ∧
  squash w_st w_hp (-1) (Some 2%positive) = None.
Proof.
  split; [|split].
  - apply (thread_out_of_range_undefined w_st w_hp 1). simpl. lia.
  - apply (thread_out_of_range_undefined w_st w_hp 1). simpl. lia.
  - apply (thread_out_of_range_undefined w_st w_hp (-1)). simpl. lia.
Defined.
